(** * jrpc2: a batched, cache-coordinated JSON-RPC client

    A shallow embedding of [jrpc2/client.go] and the properties of its
    tip cache ([NumHash]), its range cache ([cache]), the fetchers with
    their chain validation, the enrichments and the endpoint rotor.

    Conventions.
    - [uint64] values are integers in [Z]; every addition or subtraction
      the source performs on them is written with [wrap64].
    - Go's [int] read counters are plain [Z]: a counter is only ever
      incremented from a value below [maxreads] or from zero, so it
      cannot leave the range of [int].
    - A call of [Client.do] is an input of the model: the decoded
      response (or the transport error) is passed to the function that
      issues the request.
    - Where Go iterates over a map, the order is an argument of the
      model. *)

From Stdlib Require Import ZArith Lia Strings.Byte.
From stdpp Require Import gmap list strings sorting.

Local Open Scope Z_scope.

(** ** Machine integers *)

Definition wrap64 (x : Z) : Z := x mod 2 ^ 64.

Definition is_uint64 (x : Z) : Prop := 0 <= x < 2 ^ 64.

(** ** Package eth *)

Module eth.

Definition Bytes := list byte.

(** [bytes.Equal]: equal length and equal contents; a nil slice and an
    empty slice are equal. *)
Fixpoint Equal (a b : Bytes) : bool :=
  match a, b with
  | [], [] => true
  | x :: a', y :: b' => Byte.eqb x y && Equal a' b'
  | _, _ => false
  end.

(** Modelled from the spec: [eth.Bytes.Write] of package eth, which
    lies outside package jrpc2.  The spec has the tip cache "replace" its hash and
    the enrichments "write the reported block hash into the header":
    the receiver's contents become a copy of the argument. *)
Definition Write (old p : Bytes) : Bytes := p.

(** Modelled from the spec: the event log of package eth; the client
    never looks inside one. *)
Record Log := mkLog {
  LogIdx : Z;
  Address : Bytes;
  Topics : list Bytes;
  Data : Bytes
}.

(** Modelled from the spec: a trace action of package eth; the client
    only assigns its [Idx]. *)
Record TraceAction := mkTraceAction {
  TAIdx : Z;
  CallType : string;
  TAFrom : Bytes;
  TATo : Bytes;
  TAValue : Z
}.

(** Modelled from the spec: the header of package eth,
    [Header { number: u64, hash: 32 bytes, parentHash: 32 bytes }]. *)
Record Header := mkHeader {
  Hash : Bytes;
  Number : Z;
  Parent : Bytes
}.

(** Modelled from the spec: the transaction of package eth, with the
    fields the spec lists (type byte, sender, recipient, status byte,
    gas used, effective gas price, contract address, logs, trace
    actions, optional L2 fee fields, precomputed hash). *)
Record Tx := mkTx {
  Idx : Z;
  PrecompHash : Bytes;
  Type_ : byte;
  From_ : Bytes;
  To : Bytes;
  Status : byte;
  GasUsed : Z;
  EffectiveGasPrice : Z;
  ContractAddress : Bytes;
  Logs : list Log;
  TraceActions : list TraceAction;
  L1BaseFeeScalar : option Z;
  L1BlobBaseFee : option Z;
  L1BlobBaseFeeScalar : option Z;
  L1Fee : option Z;
  L1GasPrice : option Z;
  L1GasUsed : option Z
}.

Definition emptyTx (idx : Z) : Tx :=
  mkTx idx [] x00 [] [] x00 0 0 [] [] [] None None None None None None.

(** Modelled from the spec: the block of package eth, a header and an
    ordered sequence of transactions. *)
Record Block := mkBlock {
  header : Header;
  Txs : list Tx
}.

Definition zeroHeader : Header := mkHeader [] 0 [].
Definition zeroBlock : Block := mkBlock zeroHeader [].

Definition Num (b : Block) : Z := Number (header b).
Definition BlockHash (b : Block) : Bytes := Hash (header b).

Definition withHash (h : Bytes) (b : Block) : Block :=
  mkBlock (mkHeader (Write (Hash (header b)) h) (Number (header b))
             (Parent (header b)))
          (Txs b).

(** Position of the first transaction whose [Idx] is [idx]. *)
Fixpoint findTx (idx : Z) (txs : list Tx) : option nat :=
  match txs with
  | [] => None
  | t :: rest =>
      if Idx t =? idx then Some 0%nat else S <$> findTx idx rest
  end.

(** Modelled from the spec: [Block.Tx] of package eth, "transactions
    are addressed by index within the block": the transaction with
    that index is located, and a fresh one is appended when the block
    has none.  The result is the block and the position of the
    transaction in [Txs]. *)
Definition TxAt (b : Block) (idx : Z) : Block * nat :=
  match findTx idx (Txs b) with
  | Some i => (b, i)
  | None => (mkBlock (header b) (Txs b ++ [emptyTx idx]), length (Txs b))
  end.

(** Update through the pointer [Block.Tx] returns. *)
Definition updTx (b : Block) (idx : Z) (f : Tx -> Tx) : Block :=
  let '(b', i) := TxAt b idx in
  mkBlock (header b') (alter f i (Txs b')).

End eth.

(** ** Errors *)

(** The JSON-RPC error object of a response. *)
Record Error := mkError { Code : Z; Message : string }.

Definition noError : Error := mkError 0 "".

Definition Exists (e : Error) : bool := negb (Code e =? 0).

(** The values of Go's [error] the client builds, one constructor for
    each [fmt.Errorf] site; [ErrWrap] is [%w] around another error. *)
Inductive goerror : Type :=
  | ErrTransport (msg : string)
  | ErrRPC (tag : string) (e : Error)
  | ErrWrap (prefix : string) (e : goerror)
  | ErrNoBlocks (caller : string)
  | ErrFirst (caller : string) (requested got : Z)
  | ErrLast (caller : string) (requested got : Z)
  | ErrCorrupt (caller : string)
  | ErrReceiptRange (num start lim : Z)
  | ErrLogRange (num start lim : Z)
  | ErrBlockNotFound
  | ErrMissingLogs (toBlock : Z)
  | ErrEmptyTrace
  | ErrTraceMissingBlock.

(** The outcome of one [Client.do]: the transport error, or the value
    decoded into the destination. *)
Inductive do_result (A : Type) : Type :=
  | DoErr (e : goerror)
  | DoOk (a : A).
Arguments DoErr {A} e.
Arguments DoOk {A} a.

(** ** Requests and the trace of a call *)

Inductive param : Type :=
  | PString (s : string)
  | PBool (b : bool)
  | PHex (n : Z)
  | PLogFilter (fromBlock toBlock : Z) (address : list string)
      (topics : list (list string)).

(** A request as it goes on the wire.  The [ID] of the source is a
    random diagnostic string that no response is matched against, and is
    left out. *)
Record request := mkRequest { Method : string; Params : list param }.

(** What a call does besides returning: the batches it hands to
    [Client.do], and the launch of the tip refresher. *)
Inductive event : Type :=
  | EvDo (url : string) (reqs : list request)
  | EvLaunchWS
  | EvLaunchPoll (url : string).

(** A call either returns or panics (a nil dereference, a division by
    zero). *)
Inductive outcome (A : Type) : Type :=
  | Returned (a : A)
  | Panicked.
Arguments Returned {A} a.
Arguments Panicked {A}.

(** Go's [copy(dst, src)]: the first [min (len dst) (len src)] elements
    of [dst] are overwritten. *)
Definition copy {A} (dst src : list A) : list A :=
  take (length dst) src ++ drop (length src) dst.

(** ** The tip cache *)

Module NumHash.

Record t := mk {
  err : option goerror;
  once : bool;          (* the [sync.Once] has fired *)
  maxreads : Z;
  nreads : Z;
  Num : Z;
  Hash : eth.Bytes
}.

Definition error (nh : t) (e : goerror) : t :=
  mk (Some e) (once nh) (maxreads nh) 0 (Num nh) (Hash nh).

Definition update (nh : t) (n : Z) (h : eth.Bytes) : t :=
  if n <=? Num nh then nh
  else mk (err nh) (once nh) (maxreads nh) 0 n (eth.Write (Hash nh) h).

(** The result is the triple the source returns: on a miss
    [(0, nil, false)]. *)
Definition get (nh : t) (n : Z) : t * (Z * eth.Bytes * bool) :=
  match err nh with
  | Some _ =>
      (mk None false (maxreads nh) (nreads nh) (Num nh) (Hash nh),
       (0, [], false))
  | None =>
      if (n =? 0) || (Num nh <? n) then (nh, (0, [], false))
      else if maxreads nh <=? nreads nh then
        (mk (err nh) (once nh) (maxreads nh) 0 0 (eth.Write (Hash nh) []),
         (0, [], false))
      else
        let nh' := mk (err nh) (once nh) (maxreads nh) (nreads nh + 1)
                      (Num nh) (Hash nh) in
        (nh', (Num nh', copy (replicate 32 x00) (Hash nh'), true))
  end.

End NumHash.

(** ** The range cache *)

(** [key{a, b}]: for a segment, [a] is the start and [b] the limit. *)
Abbreviation key := (Z * Z)%type.

(** What a fetcher hands back: the two values it returns and the
    requests it issued. *)
Record fetched := mkFetched {
  f_blocks : list eth.Block;
  f_err : option goerror;
  f_events : list event
}.

Definition getter := string -> Z -> Z -> fetched.

Module cache.

Record segment := mkSegment {
  nreads : Z;
  done : bool;
  d : list eth.Block
}.

Definition newSegment : segment := mkSegment 0 false [].

Record t := mk {
  maxreads : Z;
  segments : gmap key segment
}.

Definition live (maxreads : Z) (kv : key * segment) : Prop :=
  nreads kv.2 < maxreads.

Global Instance live_dec maxreads kv : Decision (live maxreads kv).
Proof. unfold live. apply _. Defined.

Definition pruneMaxRead (maxreads : Z) (segs : gmap key segment)
  : gmap key segment :=
  filter (live maxreads) segs.

Definition size_cap : nat := 5.

(** [order] is the slice [keys] after [sort.Slice]: the keys of the
    table in some order that is descending in [a]. *)
Definition pruneSegments (order : list key) (segs : gmap key segment)
  : gmap key segment :=
  if decide (size segs ≤ size_cap)%nat then segs
  else foldr delete segs (drop size_cap order).

(** The table right before [pruneSegments] runs in [get]. *)
Definition inserted (c : t) (start limit : Z) : gmap key segment :=
  let segs := pruneMaxRead (maxreads c) (segments c) in
  match segs !! (start, limit) with
  | Some _ => segs
  | None => <[(start, limit) := newSegment]> segs
  end.

Definition bump (seg : segment) : segment :=
  mkSegment (nreads seg + 1) (done seg) (d seg).

(** The segment is shared between the table and the running call: what
    the call writes to it shows in the table as long as the table
    still holds the segment. *)
Definition store (k : key) (seg : segment) (segs : gmap key segment)
  : gmap key segment :=
  match segs !! k with
  | Some _ => <[k := seg]> segs
  | None => segs
  end.

Definition get (c : t) (nocache : bool) (url : string) (start limit : Z)
    (f : getter) (order : list key) : t * fetched :=
  if nocache then (c, f url start limit)
  else
    let k := (start, limit) in
    let segs2 := inserted c start limit in
    let seg := default newSegment (segs2 !! k) in
    let segs3 := pruneSegments order segs2 in
    let seg1 := bump seg in
    if done seg1 then
      (mk (maxreads c) (store k seg1 segs3), mkFetched (d seg1) None [])
    else
      let r := f url start limit in
      match f_err r with
      | Some e =>
          (mk (maxreads c) (store k seg1 segs3),
           mkFetched [] (Some (ErrWrap "cache get" e)) (f_events r))
      | None =>
          let seg2 := mkSegment (nreads seg1) true (f_blocks r) in
          (mk (maxreads c) (store k seg2 segs3),
           mkFetched (d seg2) None (f_events r))
      end.

(** The keys of the table, in an order [sort.Slice] with the
    comparison [keys[i].a > keys[j].a] can leave them in. *)
Definition sorted_keys (segs : gmap key segment) (order : list key) : Prop :=
  order ≡ₚ (map_to_list segs).*1 ∧
  StronglySorted (λ x y : key, y.1 <= x.1) order.

End cache.

(** ** The client *)

(** [url.Parse] belongs to the standard library of Go; the client only
    stores its result. *)
Record URL := mkURL { parsed : string; provided : string }.

(** [None] stands for the exit of the process. *)
Definition MustURL (parse : string -> option string) (provided : string)
  : option URL :=
  match parse provided with
  | Some u => Some (mkURL u provided)
  | None => None
  end.

(** [strings.Contains]. *)
Fixpoint Contains (s substr : string) : bool :=
  String.prefix substr s ||
  match s with
  | EmptyString => false
  | String _ s' => Contains s' substr
  end.

Record Client := mkClient {
  nocache : bool;
  d : bool;
  urls : list URL;
  wsurl : string;
  reqCounter : Z;
  pollDuration : Z;
  lcache : NumHash.t;
  bcache : cache.t;
  hcache : cache.t
}.

(** The loop of [New]: the three variables after the strings seen so
    far. *)
Fixpoint New_loop (parse : string -> option string)
    (providedURLs : list string) (acc : list URL * bool * bool)
  : option (list URL * bool * bool) :=
  match providedURLs with
  | [] => Some acc
  | provided :: rest =>
      let '(urls, _, _) := acc in
      let debug := Contains provided "debug" in
      let nocache := Contains provided "nocache" in
      match MustURL parse provided with
      | Some u => New_loop parse rest (urls ++ [u], debug, nocache)
      | None => None
      end
  end.

Definition second : Z := 1000000000.

Definition New (parse : string -> option string) (providedURLs : list string)
  : option Client :=
  match New_loop parse providedURLs ([], false, false) with
  | Some (urls, debug, nocache) =>
      Some (mkClient nocache debug urls "" 0 second
              (NumHash.mk None false 20 0 0 [])
              (cache.mk 20 ∅) (cache.mk 20 ∅))
  | None => None
  end.

Definition set_reqCounter (c : Client) (n : Z) : Client :=
  mkClient (nocache c) (d c) (urls c) (wsurl c) n (pollDuration c)
    (lcache c) (bcache c) (hcache c).

Definition set_lcache (c : Client) (nh : NumHash.t) : Client :=
  mkClient (nocache c) (d c) (urls c) (wsurl c) (reqCounter c)
    (pollDuration c) nh (bcache c) (hcache c).

Definition set_bcache (c : Client) (b : cache.t) : Client :=
  mkClient (nocache c) (d c) (urls c) (wsurl c) (reqCounter c)
    (pollDuration c) (lcache c) b (hcache c).

Definition set_hcache (c : Client) (h : cache.t) : Client :=
  mkClient (nocache c) (d c) (urls c) (wsurl c) (reqCounter c)
    (pollDuration c) (lcache c) (bcache c) h.

(** The index [NextURL] selects: the counter is incremented first and
    read afterwards. *)
Definition next_index (c : Client) : Z :=
  wrap64 (reqCounter c + 1) mod Z.of_nat (length (urls c)).

(** With no endpoint the remainder panics (division by zero). *)
Definition NextURL (c : Client) : Client * outcome URL :=
  let c' := set_reqCounter c (wrap64 (reqCounter c + 1)) in
  if decide (length (urls c) = 0%nat) then (c', Panicked)
  else
    match urls c !! Z.to_nat (next_index c) with
    | Some u => (c', Returned u)
    | None => (c', Panicked)
    end.

Definition WithMaxReads (c : Client) (n : Z) : Client :=
  mkClient (nocache c) (d c) (urls c) (wsurl c) (reqCounter c)
    (pollDuration c)
    (NumHash.mk (NumHash.err (lcache c)) (NumHash.once (lcache c)) n
       (NumHash.nreads (lcache c)) (NumHash.Num (lcache c))
       (NumHash.Hash (lcache c)))
    (cache.mk n (cache.segments (bcache c)))
    (cache.mk n (cache.segments (hcache c))).

Definition WithWSURL (c : Client) (url : string) : Client :=
  mkClient (nocache c) (d c) (urls c) url (reqCounter c) (pollDuration c)
    (lcache c) (bcache c) (hcache c).

Record headerResp := mkHeaderResp {
  hrError : Error;
  hrHeader : option eth.Header     (* a nil pointer is [None] *)
}.

Definition latest_request : request :=
  mkRequest "eth_getBlockByNumber" [PString "latest"; PBool false].

(** [Latest]; [resp] is what [do] decodes when the request is made. *)
Definition Latest (c : Client) (url : string) (n : Z)
    (resp : do_result headerResp)
  : Client * outcome (Z * eth.Bytes * option goerror) * list event :=
  let lc := lcache c in
  let launch :=
    if NumHash.once lc then []
    else if decide (wsurl c = "") then [EvLaunchPoll url] else [EvLaunchWS] in
  let lc1 := NumHash.mk (NumHash.err lc) true (NumHash.maxreads lc)
               (NumHash.nreads lc) (NumHash.Num lc) (NumHash.Hash lc) in
  let '(lc2, (num, h, ok)) := NumHash.get lc1 n in
  if ok then (set_lcache c lc2, Returned (num, h, None), launch)
  else
    let evs := launch ++ [EvDo url [latest_request]] in
    match resp with
    | DoErr e =>
        (set_lcache c lc2,
         Returned (0, [], Some (ErrWrap "unable request latest" e)), evs)
    | DoOk hresp =>
        if Exists (hrError hresp) then
          (set_lcache c lc2,
           Returned (0, [], Some (ErrRPC "eth_getBlockByNumber/latest"
                                    (hrError hresp))), evs)
        else
          match hrHeader hresp with
          | None => (set_lcache c lc2, Panicked, evs)
          | Some hd =>
              (set_lcache c
                 (NumHash.update lc2 (eth.Number hd) (eth.Hash hd)),
               Returned (eth.Number hd, eth.Hash hd, None), evs)
          end
    end.

(** ** Fetchers *)

Record blockResp := mkBlockResp {
  brError : Error;
  brBlock : option eth.Block
}.

(** The loop of [validate] over adjacent pairs. *)
Fixpoint links (caller : string) (blocks : list eth.Block) : option goerror :=
  match blocks with
  | prev :: (curr :: _) as rest =>
      if eth.Equal (eth.Parent (eth.header curr)) (eth.BlockHash prev)
      then links caller rest
      else Some (ErrCorrupt caller)
  | _ => None
  end.

Definition validate (caller : string) (start limit : Z)
    (blocks : list eth.Block) : option goerror :=
  match blocks with
  | [] => Some (ErrNoBlocks caller)
  | b0 :: _ =>
      let first := eth.Num b0 in
      let last := eth.Num (List.last blocks b0) in
      if negb (first =? start) then Some (ErrFirst caller start first)
      else if negb (last =? wrap64 (start + limit - 1)) then
        Some (ErrLast caller (wrap64 (start + limit - 1)) last)
      else links caller blocks
  end.

(** The first JSON-RPC error of a batch, in response order. *)
Fixpoint first_error (errs : list Error) : option Error :=
  match errs with
  | [] => None
  | e :: rest => if Exists e then Some e else first_error rest
  end.

(** The [limit] preallocated slots once the batch is decoded: slot [i]
    holds what response [i] carried, and stays zero when the batch is
    shorter or the result is null. *)
Definition slots {A B} (zero : B) (pick : A -> option B) (limit : Z)
    (resps : list A) : list B :=
  (λ i, default zero (resps !! i ≫= pick)) <$> seq 0 (Z.to_nat limit).

Definition number_requests (method : string) (full : list param)
    (start limit : Z) : list request :=
  (λ i, mkRequest method (PHex (wrap64 (start + Z.of_nat i)) :: full))
    <$> seq 0 (Z.to_nat limit).

Definition blocks (resp : do_result (list blockResp)) : getter :=
  λ url start limit,
  let evs :=
    [EvDo url (number_requests "eth_getBlockByNumber" [PBool true]
                 start limit)] in
  match resp with
  | DoErr e => mkFetched [] (Some (ErrWrap "requesting blocks" e)) evs
  | DoOk resps =>
      match first_error (brError <$> resps) with
      | Some e => mkFetched [] (Some (ErrRPC "eth_getBlockByNumber" e)) evs
      | None =>
          let bs := slots eth.zeroBlock brBlock limit resps in
          mkFetched bs (validate "blocks" start limit bs) evs
      end
  end.

Definition headers (resp : do_result (list headerResp)) : getter :=
  λ url start limit,
  let evs :=
    [EvDo url (number_requests "eth_getBlockByNumber" [PBool false]
                 start limit)] in
  match resp with
  | DoErr e => mkFetched [] (Some (ErrWrap "requesting headers" e)) evs
  | DoOk resps =>
      match first_error (hrError <$> resps) with
      | Some e =>
          mkFetched [] (Some (ErrRPC "eth_getBlockByNumber/headers" e)) evs
      | None =>
          let bs :=
            slots eth.zeroBlock
              (λ r, (λ h, eth.mkBlock h []) <$> hrHeader r) limit resps in
          mkFetched bs (validate "headers" start limit bs) evs
      end
  end.

(** ** Enrichments *)

(** [blockmap]: a block number leads to the slot of the slice that holds
    the block (the source keeps the pointer [&blocks[i]]). *)
Definition mkBlockmap (bs : list eth.Block) : gmap Z nat :=
  foldl (λ (m : gmap Z nat) (ib : nat * eth.Block),
           <[eth.Num ib.2 := ib.1]> m)
        ∅ (imap (λ i b, (i, b)) bs).

Record receiptResult := mkReceiptResult {
  rBlockHash : eth.Bytes;
  rBlockNum : Z;
  rTxHash : eth.Bytes;
  rTxIdx : Z;
  rTxType : byte;
  rTxFrom : eth.Bytes;
  rTxTo : eth.Bytes;
  rStatus : byte;
  rGasUsed : Z;
  rEffectiveGasPrice : Z;
  rLogs : list eth.Log;
  rContractAddress : eth.Bytes;
  rL1BaseFeeScalar : option Z;
  rL1BlobBaseFee : option Z;
  rL1BlobBaseFeeScalar : option Z;
  rL1Fee : option Z;
  rL1GasPrice : option Z;
  rL1GasUsed : option Z
}.

Record receiptResp := mkReceiptResp {
  rrError : Error;
  rrResult : list receiptResult
}.

(** The body of the inner loop of [receipts]: every field of the
    transaction is taken from the receipt. *)
Definition fill_tx (r : receiptResult) (tx : eth.Tx) : eth.Tx :=
  eth.mkTx (eth.Idx tx) (eth.Write (eth.PrecompHash tx) (rTxHash r))
    (rTxType r) (eth.Write (eth.From_ tx) (rTxFrom r))
    (eth.Write (eth.To tx) (rTxTo r)) (rStatus r) (rGasUsed r)
    (rEffectiveGasPrice r)
    (eth.Write (eth.ContractAddress tx) (rContractAddress r))
    (copy (replicate (length (rLogs r)) (eth.mkLog 0 [] [] [])) (rLogs r))
    (eth.TraceActions tx)
    (rL1BaseFeeScalar r) (rL1BlobBaseFee r) (rL1BlobBaseFeeScalar r)
    (rL1Fee r) (rL1GasPrice r) (rL1GasUsed r).

Definition write_receipt (b : eth.Block) (r : receiptResult) : eth.Block :=
  eth.updTx b (rTxIdx r) (fill_tx r).

(** One non-empty response applied to the block it is attributed to. *)
Definition write_receipts (first : receiptResult)
    (results : list receiptResult) (b : eth.Block) : eth.Block :=
  foldl write_receipt (eth.withHash (rBlockHash first) b) results.

(** The second loop of [receipts], with its early returns. *)
Fixpoint receipts_loop (bm : gmap Z nat) (start limit : Z)
    (resps : list receiptResp) (bs : list eth.Block)
  : list eth.Block * option goerror :=
  match resps with
  | [] => (bs, None)
  | r :: rest =>
      match rrResult r with
      | [] => receipts_loop bm start limit rest bs
      | r0 :: _ =>
          let blockNum := rBlockNum r0 in
          if (blockNum <? start) || (wrap64 (start + limit) <? blockNum) then
            (bs, Some (ErrReceiptRange blockNum start limit))
          else
            match bm !! blockNum with
            | None => (bs, Some ErrBlockNotFound)
            | Some i =>
                receipts_loop bm start limit rest
                  (alter (write_receipts r0 (rrResult r)) i bs)
            end
      end
  end.

Definition receipts (url : string) (bm : gmap Z nat) (start limit : Z)
    (resp : do_result (list receiptResp)) (bs : list eth.Block)
  : list eth.Block * option goerror * list event :=
  let evs := [EvDo url (number_requests "eth_getBlockReceipts" [] start limit)] in
  match resp with
  | DoErr e => (bs, Some (ErrWrap "requesting receipts" e), evs)
  | DoOk resps =>
      match first_error (rrError <$> resps) with
      | Some e => (bs, Some (ErrRPC "eth_getBlockReceipts" e), evs)
      | None => (receipts_loop bm start limit resps bs, evs)
      end
  end.

(** Modelled from the spec: the filter of package glf, "a selector with
    booleans UseBlocks | UseHeaders | UseReceipts | UseLogs | UseTraces
    and, for UseLogs, address and topic filters (lists of lists)". *)
Record Filter := mkFilter {
  UseBlocks : bool;
  UseHeaders : bool;
  UseReceipts : bool;
  UseLogs : bool;
  UseTraces : bool;
  Addresses : list string;
  FilterTopics : list (list string)
}.

Record logResult := mkLogResult {
  lrLog : eth.Log;
  lrBlockHash : eth.Bytes;
  lrBlockNum : Z;
  lrTxHash : eth.Bytes;
  lrTxIdx : Z;
  lrRemoved : bool
}.

Record logResp := mkLogResp {
  lgError : Error;
  lgResult : list logResult
}.

(** The first loop of [logs]: the bounds check and the grouping by
    [(blockNum, txIdx)], in response order. *)
Fixpoint group_logs (start limit : Z) (results : list logResult)
    (logsByTx : gmap key (list logResult))
  : gmap key (list logResult) + goerror :=
  match results with
  | [] => inl logsByTx
  | r :: rest =>
      let blockNum := lrBlockNum r in
      let k := (blockNum, lrTxIdx r) in
      if (blockNum <? start) || (wrap64 (start + limit) <=? blockNum) then
        inr (ErrLogRange blockNum start limit)
      else
        match logsByTx !! k with
        | Some logs => group_logs start limit rest (<[k := logs ++ [r]]> logsByTx)
        | None => group_logs start limit rest (<[k := [r]]> logsByTx)
        end
  end.

(** Modelled from the spec: [eth.Logs.Add] of package eth, "append each
    log into the tx's log list preserving upstream order". *)
Definition add_logs (logs : list logResult) (tx : eth.Tx) : eth.Tx :=
  eth.mkTx (eth.Idx tx)
    (eth.Write (eth.PrecompHash tx) (default [] (lrTxHash <$> head logs)))
    (eth.Type_ tx) (eth.From_ tx) (eth.To tx) (eth.Status tx)
    (eth.GasUsed tx) (eth.EffectiveGasPrice tx) (eth.ContractAddress tx)
    (eth.Logs tx ++ (lrLog <$> logs)) (eth.TraceActions tx)
    (eth.L1BaseFeeScalar tx) (eth.L1BlobBaseFee tx)
    (eth.L1BlobBaseFeeScalar tx) (eth.L1Fee tx) (eth.L1GasPrice tx)
    (eth.L1GasUsed tx).

Definition write_log_group (k : key) (logs : list logResult) (b : eth.Block)
  : eth.Block :=
  match logs with
  | [] => b
  | l0 :: _ => eth.updTx (eth.withHash (lrBlockHash l0) b) k.2 (add_logs logs)
  end.

(** The second loop of [logs]; [order] is the order in which Go ranges
    over [logsByTx]. *)
Fixpoint write_logs (bm : gmap Z nat) (logsByTx : gmap key (list logResult))
    (order : list key) (bs : list eth.Block)
  : list eth.Block * option goerror :=
  match order with
  | [] => (bs, None)
  | k :: rest =>
      match logsByTx !! k with
      | None => write_logs bm logsByTx rest bs
      | Some logs =>
          match bm !! k.1 with
          | None => (bs, Some ErrBlockNotFound)
          | Some i =>
              write_logs bm logsByTx rest (alter (write_log_group k logs) i bs)
          end
      end
  end.

Definition logs_requests (filter : Filter) (start limit : Z) : list request :=
  let toBlock := wrap64 (start + limit - 1) in
  [mkRequest "eth_getBlockByNumber" [PHex toBlock; PBool false];
   mkRequest "eth_getLogs"
     [PLogFilter start toBlock (Addresses filter) (FilterTopics filter)]].

Definition logs (url : string) (filter : Filter) (bm : gmap Z nat)
    (start limit : Z) (resp : do_result (headerResp * logResp))
    (order : list key) (bs : list eth.Block)
  : list eth.Block * option goerror * list event :=
  let evs := [EvDo url (logs_requests filter start limit)] in
  match resp with
  | DoErr e => (bs, Some (ErrWrap "making logs request" e), evs)
  | DoOk (hresp, lresp) =>
      if Exists (hrError hresp) then
        (bs, Some (ErrRPC "eth_getLogs/eth_getBlockByNumber" (lgError lresp)),
         evs)
      else if Exists (lgError lresp) then
        (bs, Some (ErrRPC "eth_getLogs" (lgError lresp)), evs)
      else
        match hrHeader hresp with
        | None => (bs, Some (ErrMissingLogs (wrap64 (start + limit - 1))), evs)
        | Some _ =>
            match group_logs start limit (lgResult lresp) ∅ with
            | inr e => (bs, Some e, evs)
            | inl logsByTx => (write_logs bm logsByTx order bs, evs)
            end
        end
  end.

Record traceBlockResult := mkTraceBlockResult {
  tBlockHash : eth.Bytes;
  tBlockNum : Z;
  tTxHash : eth.Bytes;
  tTxIdx : Z;
  tAction : eth.TraceAction
}.

Record traceBlockResp := mkTraceBlockResp {
  trError : Error;
  trResult : list traceBlockResult
}.

Fixpoint group_traces (num : Z) (results : list traceBlockResult)
    (tracesByTx : gmap key (list traceBlockResult))
  : gmap key (list traceBlockResult) :=
  match results with
  | [] => tracesByTx
  | r :: rest =>
      let k := (num, tTxIdx r) in
      match tracesByTx !! k with
      | Some ts => group_traces num rest (<[k := ts ++ [r]]> tracesByTx)
      | None => group_traces num rest (<[k := [r]]> tracesByTx)
      end
  end.

Definition set_idx (i : nat) (r : traceBlockResult) : eth.TraceAction :=
  let ta := tAction r in
  eth.mkTraceAction (Z.of_nat i) (eth.CallType ta) (eth.TAFrom ta)
    (eth.TATo ta) (eth.TAValue ta).

Definition set_traces (ts : list traceBlockResult) (tx : eth.Tx) : eth.Tx :=
  eth.mkTx (eth.Idx tx)
    (eth.Write (eth.PrecompHash tx) (default [] (tTxHash <$> head ts)))
    (eth.Type_ tx) (eth.From_ tx) (eth.To tx) (eth.Status tx)
    (eth.GasUsed tx) (eth.EffectiveGasPrice tx) (eth.ContractAddress tx)
    (eth.Logs tx) (imap set_idx ts)
    (eth.L1BaseFeeScalar tx) (eth.L1BlobBaseFee tx)
    (eth.L1BlobBaseFeeScalar tx) (eth.L1Fee tx) (eth.L1GasPrice tx)
    (eth.L1GasUsed tx).

Fixpoint write_traces (tracesByTx : gmap key (list traceBlockResult))
    (order : list key) (b : eth.Block) : eth.Block :=
  match order with
  | [] => b
  | k :: rest =>
      match tracesByTx !! k with
      | None => write_traces tracesByTx rest b
      | Some ts => write_traces tracesByTx rest (eth.updTx b k.2 (set_traces ts))
      end
  end.

Definition trace_block (r0 : traceBlockResult) (results : list traceBlockResult)
    (order : list key) (b : eth.Block) : eth.Block :=
  let b1 := eth.withHash (tBlockHash r0) b in
  write_traces (group_traces (eth.Num b1) results ∅) order b1.

(** [traces] issues one request per block; [resp i] is what the request
    for block [start + i] decodes, [order i] the order in which Go
    ranges over that block's groups. *)
Fixpoint traces_loop (url : string) (bm : gmap Z nat) (start : Z)
    (resp : nat -> do_result traceBlockResp) (order : nat -> list key)
    (idxs : list nat) (bs : list eth.Block)
  : list eth.Block * option goerror * list event :=
  match idxs with
  | [] => (bs, None, [])
  | i :: rest =>
      let ev :=
        EvDo url [mkRequest "trace_block" [PHex (wrap64 (start + Z.of_nat i))]] in
      match resp i with
      | DoErr e => (bs, Some (ErrWrap "requesting traces" e), [ev])
      | DoOk res =>
          if Exists (trError res) then
            (bs, Some (ErrRPC "trace_block" (trError res)), [ev])
          else
            match trResult res with
            | [] => (bs, Some ErrEmptyTrace, [ev])
            | r0 :: _ =>
                match bm !! tBlockNum r0 with
                | None => (bs, Some ErrTraceMissingBlock, [ev])
                | Some j =>
                    let '(bs', e, evs) :=
                      traces_loop url bm start resp order rest
                        (alter (trace_block r0 (trResult res) (order i)) j bs) in
                    (bs', e, ev :: evs)
                end
            end
      end
  end.

Definition traces (url : string) (bm : gmap Z nat) (start limit : Z)
    (resp : nat -> do_result traceBlockResp) (order : nat -> list key)
    (bs : list eth.Block)
  : list eth.Block * option goerror * list event :=
  traces_loop url bm start resp order (seq 0 (Z.to_nat limit)) bs.

(** ** The assembler *)

(** What the outside world answers during one [Get], and the orders in
    which Go happens to range over its maps. *)
Record env := mkEnv {
  e_blocks : do_result (list blockResp);
  e_headers : do_result (list headerResp);
  e_receipts : do_result (list receiptResp);
  e_logs : do_result (headerResp * logResp);
  e_traces : nat -> do_result traceBlockResp;
  e_sorted : list key;
  e_logorder : list key;
  e_traceorder : nat -> list key
}.

(** The default branch of [Get]: blocks that carry a number only. *)
Definition synthetic (start limit : Z) : list eth.Block :=
  (λ i, eth.mkBlock (eth.mkHeader [] (wrap64 (start + Z.of_nat i)) []) [])
    <$> seq 0 (Z.to_nat limit).

(** The slice [Get] enriches is the slice the segment holds: the
    enrichment shows in the table. *)
Definition share (k : key) (bs : list eth.Block) (c : cache.t) : cache.t :=
  cache.mk (cache.maxreads c)
    (alter (λ s, cache.mkSegment (cache.nreads s) (cache.done s) bs) k
       (cache.segments c)).

(** The second switch of [Get]. *)
Definition enrich (url : string) (filter : Filter) (start limit : Z)
    (e : env) (bs : list eth.Block)
  : list eth.Block * option goerror * list event :=
  let bm := mkBlockmap bs in
  if UseReceipts filter then
    let '(bs', err, evs) := receipts url bm start limit (e_receipts e) bs in
    (bs', ErrWrap "getting receipts" <$> err, evs)
  else if UseLogs filter then
    let '(bs', err, evs) :=
      logs url filter bm start limit (e_logs e) (e_logorder e) bs in
    (bs', ErrWrap "getting logs" <$> err, evs)
  else if UseTraces filter then
    let '(bs', err, evs) :=
      traces url bm start limit (e_traces e) (e_traceorder e) bs in
    (bs', ErrWrap "getting traces" <$> err, evs)
  else (bs, None, []).

(** The value [Get] returns once the enrichment is over. *)
Definition finish (r : list eth.Block * option goerror * list event)
    (before : list event) : list eth.Block * option goerror * list event :=
  let '(bs, err, evs) := r in
  match err with
  | Some e => ([], Some e, before ++ evs)
  | None => (bs, None, before ++ evs)
  end.

Definition Get (c : Client) (url : string) (filter : Filter) (start limit : Z)
    (e : env) : Client * (list eth.Block * option goerror * list event) :=
  let k := (start, limit) in
  if UseBlocks filter then
    let '(bc, r) :=
      cache.get (bcache c) (nocache c) url start limit (blocks (e_blocks e))
        (e_sorted e) in
    match f_err r with
    | Some err =>
        (set_bcache c bc, ([], Some (ErrWrap "getting blocks" err), f_events r))
    | None =>
        let res := enrich url filter start limit e (f_blocks r) in
        (set_bcache c (if nocache c then bc else share k res.1.1 bc),
         finish res (f_events r))
    end
  else if UseHeaders filter then
    let '(hc, r) :=
      cache.get (hcache c) (nocache c) url start limit (headers (e_headers e))
        (e_sorted e) in
    match f_err r with
    | Some err =>
        (set_hcache c hc, ([], Some (ErrWrap "getting headers" err), f_events r))
    | None =>
        let res := enrich url filter start limit e (f_blocks r) in
        (set_hcache c (if nocache c then hc else share k res.1.1 hc),
         finish res (f_events r))
    end
  else
    (c, finish (enrich url filter start limit e (synthetic start limit)) []).

(** ** Histories of the tip cache *)

(** The three methods through which the tip cache is written: the
    refreshers call [update] and [error], [Latest] calls [get] and
    [update]. *)
Inductive tip_op : Type :=
  | OpError (e : goerror)
  | OpUpdate (n : Z) (h : eth.Bytes)
  | OpGet (n : Z).

Definition tip_step (nh : NumHash.t) (o : tip_op) : NumHash.t :=
  match o with
  | OpError e => NumHash.error nh e
  | OpUpdate n h => NumHash.update nh n h
  | OpGet n => (NumHash.get nh n).1
  end.

Definition updates (nh : NumHash.t) (us : list (Z * eth.Bytes)) : NumHash.t :=
  foldl (λ s u, NumHash.update s u.1 u.2) nh us.

(** The branch of [get] that expires the cached tip. *)
Definition expires (nh : NumHash.t) (n : Z) : Prop :=
  NumHash.err nh = None ∧ n ≠ 0 ∧ n <= NumHash.Num nh ∧
  NumHash.maxreads nh <= NumHash.nreads nh.

(** The condition under which [NumHash.get] answers from the cache. *)
Definition hits (nh : NumHash.t) (n : Z) : Prop :=
  NumHash.err nh = None ∧ 0 < n ∧ n <= NumHash.Num nh ∧
  NumHash.nreads nh < NumHash.maxreads nh.

(** ** Runs of the endpoint rotor *)

(** [n] calls of [NextURL] in a row: the client afterwards and what each
    call returned. *)
Fixpoint rotate (n : nat) (c : Client) : Client * list (outcome URL) :=
  match n with
  | O => (c, [])
  | S n' =>
      let '(c1, u) := NextURL c in
      let '(c2, us) := rotate n' c1 in
      (c2, u :: us)
  end.

(** The positions in [urls] those [n] calls select. *)
Fixpoint indices (n : nat) (c : Client) : list Z :=
  match n with
  | O => []
  | S n' => next_index c :: indices n' (NextURL c).1
  end.

(** [n] consecutive counter values after [a], reduced modulo [m]. *)
Definition window (m a : Z) (n : nat) : list Z :=
  (λ j, (a + Z.of_nat j) mod m) <$> seq 0 n.

(** ** Validated segments *)

(** Chain continuity: every block names the hash of the block before it
    as its parent. *)
Definition linked (bs : list eth.Block) : Prop :=
  forall (i : nat) prev curr,
    bs !! i = Some prev -> bs !! S i = Some curr ->
    eth.Parent (eth.header curr) = eth.BlockHash prev.

(** What [validate] lets through for the range [start, start+limit). *)
Definition segment_ok (start limit : Z) (bs : list eth.Block) : Prop :=
  length bs = Z.to_nat limit ∧
  bs ≠ [] ∧
  eth.Num <$> bs !! 0%nat = Some start ∧
  eth.Num <$> bs !! (Z.to_nat limit - 1)%nat = Some (wrap64 (start + limit - 1)) ∧
  linked bs.

(** Every finished segment of a table is a validated one. *)
Definition table_ok (segs : gmap key cache.segment) : Prop :=
  forall (k : key) seg,
    segs !! k = Some seg -> cache.done seg = true ->
    segment_ok k.1 k.2 (cache.d seg).

(** ** Runs of the range cache *)

(** A run of [cache.get] for one key through the table, each call with
    the fetcher it is handed and the order its [pruneSegments] sorts the
    keys into. *)
Fixpoint gets (c : cache.t) (url : string) (start limit : Z)
    (calls : list (getter * list key)) : cache.t * list fetched :=
  match calls with
  | [] => (c, [])
  | (f, order) :: rest =>
      let '(c1, r) := cache.get c false url start limit f order in
      let '(c2, rs) := gets c1 url start limit rest in
      (c2, r :: rs)
  end.

(** What a call that runs the fetcher [f] returns. *)
Definition fetch_through (f : getter) (url : string) (start limit : Z)
  : fetched :=
  let r := f url start limit in
  match f_err r with
  | Some e => mkFetched [] (Some (ErrWrap "cache get" e)) (f_events r)
  | None => mkFetched (f_blocks r) None (f_events r)
  end.

Global Instance sorted_keys_dec segs order :
  Decision (cache.sorted_keys segs order).
Proof. unfold cache.sorted_keys. apply _. Defined.

(** A table in which every segment is live and at most four of them
    compete with the key for room. *)
Record settled (mr : Z) (k : key) (Q : gmap key cache.segment) : Prop := {
  settled_free : Q !! k = None;
  settled_room : (size Q <= 4)%nat;
  settled_live : cache.pruneMaxRead mr Q = Q
}.

(** ** Range checks of the enrichments *)

(** The bound of [receipts]: the upper end [start + limit] is let in. *)
Definition receipt_out (start limit n : Z) : Prop :=
  n < start ∨ wrap64 (start + limit) < n.

(** The bound of [logs]: the upper end [start + limit] is kept out. *)
Definition log_out (start limit n : Z) : Prop :=
  n < start ∨ wrap64 (start + limit) <= n.

(** A response the second loop of [receipts] gets past: it is empty, or
    its first receipt is within the bound and names a block of the
    blockmap. *)
Definition passes (bm : gmap Z nat) (start limit : Z) (r : receiptResp) : Prop :=
  match rrResult r with
  | [] => True
  | r0 :: _ =>
      ¬ receipt_out start limit (rBlockNum r0) ∧ is_Some (bm !! rBlockNum r0)
  end.

(** ** Attribution of receipts *)

(** A receipt with its block number replaced. *)
Definition retag (g : receiptResult -> Z) (r : receiptResult) : receiptResult :=
  mkReceiptResult (rBlockHash r) (g r) (rTxHash r) (rTxIdx r) (rTxType r)
    (rTxFrom r) (rTxTo r) (rStatus r) (rGasUsed r) (rEffectiveGasPrice r)
    (rLogs r) (rContractAddress r) (rL1BaseFeeScalar r) (rL1BlobBaseFee r)
    (rL1BlobBaseFeeScalar r) (rL1Fee r) (rL1GasPrice r) (rL1GasUsed r).

(** A response in which every receipt after the first reports some
    other block number. *)
Definition retag_tail (g : receiptResult -> Z) (resp : receiptResp)
  : receiptResp :=
  mkReceiptResp (rrError resp)
    match rrResult resp with
    | [] => []
    | r0 :: more => r0 :: (retag g <$> more)
    end.

(** The transaction holds what the receipt reports. *)
Definition carries (r : receiptResult) (tx : eth.Tx) : Prop :=
  eth.Idx tx = rTxIdx r ∧
  eth.PrecompHash tx = rTxHash r ∧ eth.Type_ tx = rTxType r ∧
  eth.From_ tx = rTxFrom r ∧ eth.To tx = rTxTo r ∧
  eth.Status tx = rStatus r ∧ eth.GasUsed tx = rGasUsed r ∧
  eth.EffectiveGasPrice tx = rEffectiveGasPrice r ∧
  eth.ContractAddress tx = rContractAddress r ∧ eth.Logs tx = rLogs r ∧
  eth.L1BaseFeeScalar tx = rL1BaseFeeScalar r ∧
  eth.L1BlobBaseFee tx = rL1BlobBaseFee r ∧
  eth.L1BlobBaseFeeScalar tx = rL1BlobBaseFeeScalar r ∧
  eth.L1Fee tx = rL1Fee r ∧ eth.L1GasPrice tx = rL1GasPrice r ∧
  eth.L1GasUsed tx = rL1GasUsed r.

(** The block has the receipt in the transaction slot of the receipt's
    own index. *)
Definition holds (b : eth.Block) (r : receiptResult) : Prop :=
  exists j tx,
    eth.findTx (rTxIdx r) (eth.Txs b) = Some j ∧
    eth.Txs b !! j = Some tx ∧ carries r tx.

(** ** Sample data *)

Definition urlA : URL := mkURL "http://a" "http://a".
Definition urlB : URL := mkURL "http://b" "http://b".
Definition urlC : URL := mkURL "http://c" "http://c".

Definition three : Client :=
  mkClient false false [urlA; urlB; urlC] "" 0 second
    (NumHash.mk None false 20 0 0 []) (cache.mk 20 ∅) (cache.mk 20 ∅).

(** The same client two calls before its counter wraps. *)
Definition near_wrap : Client := set_reqCounter three (2 ^ 64 - 2).

Definition hashA : eth.Bytes := replicate 32 "a"%byte.
Definition hashB : eth.Bytes := replicate 32 "b"%byte.
Definition hashC : eth.Bytes := replicate 32 "c"%byte.

Definition blk (n : Z) (h p : eth.Bytes) : eth.Block :=
  eth.mkBlock (eth.mkHeader h n p) [].

(** A fetcher whose batch answers with one well-formed block. *)
Definition one_block (n : Z) (h : eth.Bytes) : getter :=
  blocks (DoOk [mkBlockResp noError (Some (blk n h hashC))]).

Definition filled (n : Z) : cache.segment :=
  cache.mkSegment 1 true [blk n hashA hashC].

(** Five finished segments, for the starts 200 to 204. *)
Definition five : cache.t :=
  cache.mk 20
    (list_to_map [((200, 1), filled 200); ((201, 1), filled 201);
                  ((202, 1), filled 202); ((203, 1), filled 203);
                  ((204, 1), filled 204)]).

Definition sorted_with_low (start : Z) : list key :=
  [(204, 1); (203, 1); (202, 1); (201, 1); (200, 1); (start, 1)].

Definition sorted_with_high (start : Z) : list key :=
  [(start, 1); (204, 1); (203, 1); (202, 1); (201, 1); (200, 1)].

(** The five segments under a read limit of three. *)
Definition five_three : cache.t := cache.mk 3 (cache.segments five).

(** Block 100 and 101, numbered only. *)
Definition two_blocks : list eth.Block := synthetic 100 2.

Definition receipt_for (n idx : Z) (h : eth.Bytes) : receiptResult :=
  mkReceiptResult h n hashC idx x02 [] [] x01 21000 7 [] []
    None None None None None None.

Definition log_for (n idx : Z) (h : eth.Bytes) : logResult :=
  mkLogResult (eth.mkLog 0 [] [] []) h n hashC idx false.

Definition present : headerResp :=
  mkHeaderResp noError (Some (eth.mkHeader hashA 101 hashB)).

Definition noFilter : Filter := mkFilter false false false true false [] [].

(** A response for block 100 whose second receipt claims block 101. *)
Definition mixed : receiptResp :=
  mkReceiptResp noError [receipt_for 100 0 hashA; receipt_for 101 1 hashB].

(** Blocks 100, 101, 102, correctly linked. *)
Definition chain3 : list blockResp :=
  [mkBlockResp noError (Some (blk 100 hashA hashC));
   mkBlockResp noError (Some (blk 101 hashB hashA));
   mkBlockResp noError (Some (blk 102 hashC hashB))].

(** The same, with the parent of block 102 not the hash of block 101. *)
Definition broken3 : list blockResp :=
  [mkBlockResp noError (Some (blk 100 hashA hashC));
   mkBlockResp noError (Some (blk 101 hashB hashA));
   mkBlockResp noError (Some (blk 102 hashC hashA))].

(** Two blocks with a broken link, the first with the wrong number. *)
Definition misnumbered2 : list blockResp :=
  [mkBlockResp noError (Some (blk 7 hashA hashC));
   mkBlockResp noError (Some (blk 101 hashB hashC))].

(** Blocks 100 and 101, correctly linked. *)
Definition chain2 : list blockResp :=
  [mkBlockResp noError (Some (blk 100 hashA hashC));
   mkBlockResp noError (Some (blk 101 hashB hashA))].

Definition unused {A} : do_result A := DoErr (ErrTransport "unused").

(** An outside world that answers the block batch with [resps] and the
    receipts batch with [rs]. *)
Definition world (resps : list blockResp) (rs : list receiptResp) : env :=
  mkEnv (DoOk resps) unused (DoOk rs) unused (λ _, unused) [] [] (λ _, []).

Definition onlyBlocks : Filter := mkFilter true false false false false [] [].

Definition blocksAndReceipts : Filter :=
  mkFilter true false true false false [] [].

(** Receipts for block 100 that report [hashC] as its hash, and none for
    block 101. *)
Definition rehashed : list receiptResp :=
  [mkReceiptResp noError [receipt_for 100 0 hashC]; mkReceiptResp noError []].

Definition flagged : string := "https://a.example/rpc?nocache&debug".
Definition plain : string := "https://b.example/rpc".

(** A tip cache that holds block 100, and a client around it. *)
Definition warm : NumHash.t := NumHash.mk None true 20 0 100 hashA.

Definition warm_client : Client :=
  mkClient false false [mkURL "http://a" "http://a"] "" 0 second warm
    (cache.mk 20 ∅) (cache.mk 20 ∅).

(** A fetcher whose request fails in transport. *)
Definition failing : getter := blocks (DoErr (ErrTransport "timeout")).

(** The table a failed first fetch for (100, 1) leaves, under a read
    limit of three. *)
Definition after_failure : cache.t :=
  cache.mk 3 {[ (100, 1) := cache.mkSegment 1 false [] ]}.

(** ** The tip refreshers *)

(** How far a refresher got: still running after the inputs it was
    given, stopped after recording an error, or crashed. *)
Inductive refresher_end : Type :=
  | Running
  | Stopped
  | Crashed.

Definition poll_tag : string := "eth_getBlockByNumber/latest".

(** [httpPoll] over the ticks the ticker delivers; a tick carries what
    [do] leaves in [hresp] (the variable is declared once, outside the
    loop).  A response without error and without header makes
    [hresp.Number] a nil dereference. *)
Fixpoint httpPoll (c : Client) (url : string)
    (ticks : list (do_result headerResp))
  : Client * refresher_end * list event :=
  match ticks with
  | [] => (c, Running, [])
  | tick :: rest =>
      let ev := EvDo url [latest_request] in
      match tick with
      | DoErr e => (set_lcache c (NumHash.error (lcache c) e), Stopped, [ev])
      | DoOk hresp =>
          if Exists (hrError hresp) then
            (set_lcache c
               (NumHash.error (lcache c) (ErrRPC poll_tag (hrError hresp))),
             Stopped, [ev])
          else
            match hrHeader hresp with
            | None => (c, Crashed, [ev])
            | Some hd =>
                let '(c', r, evs) :=
                  httpPoll
                    (set_lcache c
                       (NumHash.update (lcache c) (eth.Number hd) (eth.Hash hd)))
                    url rest in
                (c', r, ev :: evs)
            end
      end
  end.

(** What a read of the websocket leaves in [res]: the error object,
    which the listener never looks at, and the head. *)
Record wsMessage := mkWsMessage {
  wsError : Error;
  wsNum : Z;
  wsHash : eth.Bytes
}.

(** The read loop of [wsListen]. *)
Fixpoint wsReads (c : Client) (reads : list (do_result wsMessage))
  : Client * refresher_end :=
  match reads with
  | [] => (c, Running)
  | DoErr e :: _ =>
      (set_lcache c
         (NumHash.error (lcache c) (ErrWrap ("ws read " +:+ wsurl c) e)),
       Stopped)
  | DoOk m :: rest =>
      wsReads (set_lcache c (NumHash.update (lcache c) (wsNum m) (wsHash m)))
        rest
  end.

(** [wsListen]; [dial] and [write] are the errors of [websocket.Dial]
    and of the write of the subscription, if any. *)
Definition wsListen (c : Client) (dial write : option goerror)
    (reads : list (do_result wsMessage)) : Client * refresher_end :=
  match dial with
  | Some e =>
      (set_lcache c
         (NumHash.error (lcache c) (ErrWrap ("ws dial " +:+ wsurl c) e)),
       Stopped)
  | None =>
      match write with
      | Some e =>
          (set_lcache c
             (NumHash.error (lcache c) (ErrWrap ("ws write " +:+ wsurl c) e)),
           Stopped)
      | None => wsReads c reads
      end
  end.

(** [Client.Hash]. *)
Definition Hash (c : Client) (url : string) (n : Z)
    (resp : do_result headerResp)
  : outcome (eth.Bytes * option goerror) * list event :=
  let evs := [EvDo url [mkRequest "eth_getBlockByNumber" [PHex n; PBool true]]] in
  match resp with
  | DoErr e => (Returned ([], Some (ErrWrap "unable request hash" e)), evs)
  | DoOk hresp =>
      if Exists (hrError hresp) then
        (Returned ([], Some (ErrRPC "eth_getBlockByNumber/hash" (hrError hresp))),
         evs)
      else
        match hrHeader hresp with
        | None => (Panicked, evs)
        | Some hd => (Returned (eth.Hash hd, None), evs)
        end
  end.

(** The heads a run of successful ticks or reads carries. *)
Definition heads_of_ticks (ticks : list headerResp) : list (Z * eth.Bytes) :=
  omap (λ r, (λ hd, (eth.Number hd, eth.Hash hd)) <$> hrHeader r) ticks.

(** [k] calls of [NumHash.get] for the same [n] in a row. *)
Definition tip_gets (k : nat) (nh : NumHash.t) (n : Z) : NumHash.t :=
  Nat.iter k (λ s, (NumHash.get s n).1) nh.

(** The read counter of the tip cache stays between zero and the read
    limit. *)
Definition tip_bounded (nh : NumHash.t) : Prop :=
  0 <= NumHash.nreads nh <= Z.max 0 (NumHash.maxreads nh).

(** The error a tick of [httpPoll] stops the poller with, if any. *)
Definition tick_failure (tick : do_result headerResp) : option goerror :=
  match tick with
  | DoErr e => Some e
  | DoOk hresp =>
      if Exists (hrError hresp) then Some (ErrRPC poll_tag (hrError hresp))
      else None
  end.

(** A tick that carries a head. *)
Definition good_tick (r : headerResp) : Prop :=
  Exists (hrError r) = false ∧ is_Some (hrHeader r).

(** ** What the enrichments leave alone *)

(** The number and the parent hash of a block: the part of the header
    no enrichment writes. *)
Definition frame (b : eth.Block) : Z * eth.Bytes :=
  (eth.Number (eth.header b), eth.Parent (eth.header b)).

(** The part of [validate] that reads block numbers only: as many
    blocks as asked for, the first numbered [start], the last
    [start + limit - 1]. *)
Definition numbered (start limit : Z) (bs : list eth.Block) : Prop :=
  length bs = Z.to_nat limit ∧
  (forall b, head bs = Some b -> eth.Num b = start) ∧
  (forall b, last bs = Some b -> eth.Num b = wrap64 (start + limit - 1)).

(** Every finished segment of a table is numbered after its key. *)
Definition table_numbered (segs : gmap key cache.segment) : Prop :=
  forall (k : key) seg,
    segs !! k = Some seg -> cache.done seg = true ->
    numbered k.1 k.2 (cache.d seg) ∧ cache.d seg ≠ [].

(** The group of [logsByTx] a log falls into. *)
Definition log_key (r : logResult) : key := (lrBlockNum r, lrTxIdx r).

(** What a list holds under a key of [logsByTx]: nothing when no log
    fell into the group. *)
Definition group_of {A} (l : list A) : option (list A) :=
  match l with
  | [] => None
  | _ => Some l
  end.

(** ** The requests of [traces] *)

(** The request [traces] sends for the block at offset [i]. *)
Definition trace_request (url : string) (start : Z) (i : nat) : event :=
  EvDo url [mkRequest "trace_block" [PHex (wrap64 (start + Z.of_nat i))]].

(** The error with which one iteration of the loop of [traces] returns,
    if it does: it depends on the response and the blockmap only. *)
Definition trace_failure (bm : gmap Z nat) (r : do_result traceBlockResp)
  : option goerror :=
  match r with
  | DoErr e => Some (ErrWrap "requesting traces" e)
  | DoOk res =>
      if Exists (trError res) then Some (ErrRPC "trace_block" (trError res))
      else
        match trResult res with
        | [] => Some ErrEmptyTrace
        | r0 :: _ =>
            match bm !! tBlockNum r0 with
            | None => Some ErrTraceMissingBlock
            | Some _ => None
            end
        end
  end.

(** ** What [traces] writes *)

(** The transaction [Block.Tx] finds for an index. *)
Definition slot (b : eth.Block) (idx : Z) (tx : eth.Tx) : Prop :=
  exists j, eth.findTx idx (eth.Txs b) = Some j ∧ eth.Txs b !! j = Some tx.

Definition trace_for (n idx : Z) (h : eth.Bytes) (call : string)
  : traceBlockResult :=
  mkTraceBlockResult h n hashB idx (eth.mkTraceAction 9 call [] [] 0).

(** A response for block 100 whose second trace reports block 8. *)
Definition three_traces : list traceBlockResult :=
  [trace_for 100 0 hashA "call"; trace_for 8 1 hashC "call";
   trace_for 100 0 hashA "create"].

(** ** Runs of [Latest] *)

(** [Latest] called again and again by one caller, with no refresher
    in between; a call that panics ends the run. *)
Fixpoint Latests (c : Client)
    (calls : list (string * Z * do_result headerResp))
  : Client * list event :=
  match calls with
  | [] => (c, [])
  | (url, n, resp) :: rest =>
      let '(c1, out, evs) := Latest c url n resp in
      match out with
      | Panicked => (c1, evs)
      | Returned _ =>
          let '(c2, evs') := Latests c1 rest in (c2, evs ++ evs')
      end
  end.

Definition is_launch (ev : event) : bool :=
  match ev with
  | EvDo _ _ => false
  | EvLaunchWS | EvLaunchPoll _ => true
  end.

(** * Properties *)

(** *** Machine integers *)

Lemma wrap64_small x : is_uint64 x -> wrap64 x = x.
Proof. unfold is_uint64, wrap64. intros H. by apply Z.mod_small. Qed.

Lemma wrap64_range x : is_uint64 (wrap64 x).
Proof. unfold is_uint64, wrap64. apply Z.mod_pos_bound. lia. Qed.

(** *** The tip cache *)

Section tip_cache.
Import NumHash.

Lemma update_stale nh n h : n <= Num nh -> update nh n h = nh.
Proof. intros H. unfold update. by rewrite (proj2 (Z.leb_le _ _) H). Qed.

Lemma update_fresh nh n h :
  Num nh < n ->
  update nh n h = mk (err nh) (once nh) (maxreads nh) 0 n h.
Proof.
  intros H. unfold update, eth.Write.
  by rewrite (proj2 (Z.leb_gt _ _) H).
Qed.

Lemma update_Num_le nh n h : Num nh <= Num (update nh n h).
Proof.
  destruct (Z.le_gt_cases n (Num nh)) as [H|H].
  - rewrite update_stale; [lia | done].
  - rewrite update_fresh; [simpl; lia | done].
Qed.

Lemma updates_Num_le us : forall nh, Num nh <= Num (updates nh us).
Proof.
  induction us as [|u us IH]; intros nh; simpl; [lia|].
  etransitivity; [apply (update_Num_le nh u.1 u.2) | apply IH].
Qed.

Lemma get_expires nh n :
  expires nh n ->
  get nh n = (mk None (once nh) (maxreads nh) 0 0 [], (0, [], false)).
Proof.
  intros (He & Hn & Hle & Hmax). unfold get. rewrite He.
  rewrite (proj2 (Z.eqb_neq _ _) Hn), (proj2 (Z.ltb_ge _ _) Hle).
  by rewrite (proj2 (Z.leb_le _ _) Hmax).
Qed.

Lemma get_lowers_only_on_expiry nh n :
  Num (get nh n).1 < Num nh -> expires nh n.
Proof.
  unfold get, expires. destruct (err nh) as [e|] eqn:He; simpl; [lia|].
  destruct (Z.eqb_spec n 0) as [->|Hn]; simpl; [lia|].
  destruct (Z.ltb_spec (Num nh) n) as [Hlt|Hge]; simpl; [lia|].
  destruct (Z.leb_spec (maxreads nh) (nreads nh)) as [Hmax|Hmax]; simpl;
    [done | lia].
Qed.

End tip_cache.

(** C6.  [update n h] leaves number, hash and read counter alone when
    [n <= num]; when [n > num] the number becomes [n], the hash [h] and
    the counter [0].  Hence the number never decreases along a sequence
    of updates, and a step of the tip cache that lowers the number is
    the expiry branch of [get], which leaves number [0], an empty hash
    and counter [0]. *)
Theorem update_monotone_reset_only_in_get :
  (forall nh n h, n <= NumHash.Num nh -> NumHash.update nh n h = nh) /\
  (forall nh n h, NumHash.Num nh < n ->
     NumHash.Num (NumHash.update nh n h) = n /\
     NumHash.Hash (NumHash.update nh n h) = h /\
     NumHash.nreads (NumHash.update nh n h) = 0) /\
  (forall nh us, NumHash.Num nh <= NumHash.Num (updates nh us)) /\
  (forall nh o, NumHash.Num (tip_step nh o) < NumHash.Num nh ->
     exists n, o = OpGet n /\ expires nh n) /\
  (forall nh n, expires nh n ->
     NumHash.Num (tip_step nh (OpGet n)) = 0 /\
     NumHash.Hash (tip_step nh (OpGet n)) = [] /\
     NumHash.nreads (tip_step nh (OpGet n)) = 0).
Proof.
  split; [exact update_stale|].
  split; [intros nh n h H; by rewrite update_fresh|].
  split; [intros nh us; apply updates_Num_le|].
  split.
  - intros nh [e|n h|n] H; simpl in H.
    + lia.
    + pose proof (update_Num_le nh n h). lia.
    + exists n. split; [done|]. by apply get_lowers_only_on_expiry.
  - intros nh n H. simpl. by rewrite get_expires.
Qed.

(** Events (99, A), (100, B), (100, C), (101, A) leave (101, A): the
    second event for 100 is ignored. *)
Example updates_newHeads :
  let nh := updates (NumHash.mk None true 20 0 0 [])
              [(99, hashA); (100, hashB); (100, hashC); (101, hashA)] in
  (NumHash.Num nh, NumHash.Hash nh) = (101, hashA) /\
  NumHash.Hash (updates (NumHash.mk None true 20 0 0 [])
                  [(99, hashA); (100, hashB); (100, hashC)]) = hashB.
Proof. by vm_compute. Qed.

Lemma update_monotone_reset_only_in_get_witness :
  NumHash.update (NumHash.mk None true 20 3 100 hashA) 100 hashB
    = NumHash.mk None true 20 3 100 hashA /\
  NumHash.Num (NumHash.update (NumHash.mk None true 20 3 100 hashA) 101 hashB)
    = 101 /\
  (exists n, OpGet 50 = OpGet n /\
             expires (NumHash.mk None true 20 20 100 hashA) n) /\
  NumHash.Hash (tip_step (NumHash.mk None true 20 20 100 hashA) (OpGet 50)) = [].
Proof.
  destruct update_monotone_reset_only_in_get as (H1 & H2 & _ & H4 & H5).
  split; [apply H1; simpl; lia|].
  split; [apply (H2 _ 101 hashB); simpl; lia|].
  split; [apply H4; vm_compute; reflexivity|].
  apply H5. unfold expires; simpl. repeat split; lia.
Defined.

Section tip_cache_get.
Import NumHash.

Lemma get_hit nh n :
  hits nh n ->
  get nh n =
    (mk None (once nh) (maxreads nh) (nreads nh + 1) (Num nh) (Hash nh),
     (Num nh, copy (replicate 32 x00) (Hash nh), true)).
Proof.
  intros (He & Hn & Hle & Hmax). unfold get. rewrite He.
  rewrite (proj2 (Z.eqb_neq n 0)) by lia.
  rewrite (proj2 (Z.ltb_ge _ _) Hle).
  rewrite (proj2 (Z.leb_gt _ _) Hmax). done.
Qed.

Lemma get_miss nh n :
  0 <= n -> ¬ hits nh n -> (get nh n).2 = (0, [], false).
Proof.
  intros H0 Hno. unfold get, hits in *.
  destruct (err nh) as [e|] eqn:He; [done|].
  destruct (Z.eqb_spec n 0) as [->|Hn]; simpl; [done|].
  destruct (Z.ltb_spec (Num nh) n) as [Hlt|Hge]; simpl; [done|].
  destruct (Z.leb_spec (maxreads nh) (nreads nh)) as [Hmax|Hmax]; simpl;
    [done|].
  exfalso. apply Hno. repeat split; try done; lia.
Qed.

Lemma get_pending_error nh n e :
  err nh = Some e ->
  get nh n =
    (mk None false (maxreads nh) (nreads nh) (Num nh) (Hash nh),
     (0, [], false)).
Proof. intros He. unfold get. by rewrite He. Qed.

Lemma copy_length {A} (dst src : list A) : length (copy dst src) = length dst.
Proof. unfold copy. rewrite length_app, length_take, length_drop. lia. Qed.

Lemma copy_same_length {A} (dst src : list A) :
  length src = length dst -> copy dst src = src.
Proof.
  intros H. unfold copy. rewrite <- H, firstn_all, drop_ge by lia.
  apply app_nil_r.
Qed.

End tip_cache_get.

Lemma get_zero_misses nh : (NumHash.get nh 0).2 = (0, [], false).
Proof. unfold NumHash.get. by destruct (NumHash.err nh). Qed.

Lemma Latest_zero_fetches c url resp :
  exists lc,
    Latest c url 0 resp =
      match resp with
      | DoErr e =>
          (set_lcache c lc,
           Returned (0, [], Some (ErrWrap "unable request latest" e)),
           (if NumHash.once (lcache c) then []
            else if decide (wsurl c = "") then [EvLaunchPoll url]
                 else [EvLaunchWS]) ++ [EvDo url [latest_request]])
      | DoOk hresp =>
          if Exists (hrError hresp) then
            (set_lcache c lc,
             Returned (0, [], Some (ErrRPC "eth_getBlockByNumber/latest"
                                      (hrError hresp))),
             (if NumHash.once (lcache c) then []
              else if decide (wsurl c = "") then [EvLaunchPoll url]
                   else [EvLaunchWS]) ++ [EvDo url [latest_request]])
          else
            match hrHeader hresp with
            | None =>
                (set_lcache c lc, Panicked,
                 (if NumHash.once (lcache c) then []
                  else if decide (wsurl c = "") then [EvLaunchPoll url]
                       else [EvLaunchWS]) ++ [EvDo url [latest_request]])
            | Some hd =>
                (set_lcache c (NumHash.update lc (eth.Number hd) (eth.Hash hd)),
                 Returned (eth.Number hd, eth.Hash hd, None),
                 (if NumHash.once (lcache c) then []
                  else if decide (wsurl c = "") then [EvLaunchPoll url]
                       else [EvLaunchWS]) ++ [EvDo url [latest_request]])
            end
      end.
Proof.
  unfold Latest.
  set (lc1 := NumHash.mk _ true _ _ _ _).
  pose proof (get_zero_misses lc1) as Hz.
  destruct (NumHash.get lc1 0) as [lc2 [[num h] ok]]. simpl in Hz.
  injection Hz as -> -> ->. exists lc2.
  destruct resp as [e|hresp]; [done|].
  destruct (Exists (hrError hresp)); [done|].
  by destruct (hrHeader hresp).
Qed.

(** C3.  For a 64-bit [n], [get n] answers from the cache exactly when
    no error is pending, [n > 0], the cached number is at least [n] and
    fewer than [maxreads] reads were served; a hit increments the read
    counter and returns the cached number with a 32-byte copy of the
    hash (the hash itself when it has 32 bytes).  A pending error is a
    miss that clears the error and re-arms the once flag.  [Latest] with
    [n = 0] always issues the request for the latest block, and returns
    the number and hash of the answer whatever the cache holds. *)
Theorem get_hit_iff_Latest_zero_fetches :
  (forall nh n, 0 <= n -> (NumHash.get nh n).2.2 = true <-> hits nh n) /\
  (forall nh n, hits nh n ->
     NumHash.nreads (NumHash.get nh n).1 = NumHash.nreads nh + 1 /\
     (NumHash.get nh n).2 =
       (NumHash.Num nh, copy (replicate 32 x00) (NumHash.Hash nh), true) /\
     length (NumHash.get nh n).2.1.2 = 32%nat /\
     (length (NumHash.Hash nh) = 32%nat ->
      (NumHash.get nh n).2.1.2 = NumHash.Hash nh)) /\
  (forall nh n e, NumHash.err nh = Some e ->
     (NumHash.get nh n).2 = (0, [], false) /\
     NumHash.err (NumHash.get nh n).1 = None /\
     NumHash.once (NumHash.get nh n).1 = false) /\
  (forall c url resp, EvDo url [latest_request] ∈ (Latest c url 0 resp).2) /\
  (forall c url e hd, Exists e = false ->
     (Latest c url 0 (DoOk (mkHeaderResp e (Some hd)))).1.2 =
       Returned (eth.Number hd, eth.Hash hd, None)).
Proof.
  split; [|split; [|split; [|split]]].
  - intros nh n Hn. split.
    + intros Hok. destruct (decide (hits nh n)) as [H|H]; [done|].
      rewrite (get_miss nh n Hn H) in Hok. done.
    + intros H. by rewrite get_hit.
  - intros nh n H. rewrite get_hit by done. cbn [fst snd NumHash.nreads].
    split; [done|]. split; [done|]. split.
    + by rewrite copy_length, length_replicate.
    + intros Hlen. apply copy_same_length. by rewrite length_replicate.
  - intros nh n e He. by rewrite (get_pending_error nh n e He).
  - intros c url resp. destruct (Latest_zero_fetches c url resp) as [lc ->].
    destruct resp as [e|hresp]; simpl.
    + set_solver.
    + destruct (Exists (hrError hresp)); [simpl; set_solver|].
      destruct (hrHeader hresp); simpl; set_solver.
  - intros c url e hd He.
    destruct (Latest_zero_fetches c url (DoOk (mkHeaderResp e (Some hd))))
      as [lc ->].
    simpl. by rewrite He.
Qed.

(** A warm cache answers [Latest 50] without a request; the answer of a
    request is irrelevant. *)
Example Latest_warm_hit resp :
  (Latest warm_client "http://a" 50 resp).1.2 = Returned (100, hashA, None) /\
  (Latest warm_client "http://a" 50 resp).2 = [].
Proof. by vm_compute. Qed.

(** After twenty hits the next [get] expires the tip. *)
Example get_twenty_hits :
  let step nh := (NumHash.get nh 50).1 in
  let nh20 := Nat.iter 20 step warm in
  NumHash.nreads nh20 = 20 /\
  (NumHash.get (Nat.iter 19 step warm) 50).2 = (100, hashA, true) /\
  NumHash.get nh20 50 = (NumHash.mk None true 20 0 0 [], (0, [], false)).
Proof. by vm_compute. Qed.

Lemma get_hit_iff_Latest_zero_fetches_witness :
  ((NumHash.get warm 50).2.2 = true <-> hits warm 50) /\
  (NumHash.get warm 50).2 = (100, hashA, true) /\
  NumHash.once (NumHash.get (NumHash.error warm (ErrTransport "ws read")) 50).1
    = false /\
  (Latest warm_client "http://a" 0
     (DoOk (mkHeaderResp noError (Some (eth.mkHeader hashB 7 hashC))))).1.2
    = Returned (7, hashB, None).
Proof.
  destruct get_hit_iff_Latest_zero_fetches as (H1 & H2 & H3 & _ & H5).
  assert (Hh : hits warm 50) by (unfold hits; simpl; repeat split; lia).
  split; [apply H1; lia|].
  split; [destruct (H2 warm 50 Hh) as (_ & -> & _); reflexivity|].
  split; [eapply H3; reflexivity|].
  apply H5. reflexivity.
Defined.

(** *** The endpoint rotor *)

Lemma window_app m a n1 n2 :
  window m a (n1 + n2) = window m a n1 ++ window m (a + Z.of_nat n1) n2.
Proof.
  unfold window. rewrite seq_app, fmap_app. f_equal.
  replace (0 + n1)%nat with (n1 + 0)%nat by lia.
  rewrite <- (fmap_add_seq n1 0), <- list_fmap_compose.
  apply list_fmap_ext. intros _ j _. simpl. f_equal. lia.
Qed.

Lemma window_NoDup m a : 0 < m -> NoDup (window m a (Z.to_nat m)).
Proof.
  intros Hm. unfold window. apply NoDup_fmap_2_strong; [|apply NoDup_seq].
  intros j1 j2 H1 H2 Heq.
  apply elem_of_seq in H1, H2.
  assert (Hd : (Z.of_nat j1 - Z.of_nat j2) mod m = 0).
  { rewrite Zminus_mod.
    replace (Z.of_nat j1) with ((a + Z.of_nat j1) - a) at 1 by lia.
    replace (Z.of_nat j2) with ((a + Z.of_nat j2) - a) at 1 by lia.
    rewrite (Zminus_mod (a + Z.of_nat j1)), (Zminus_mod (a + Z.of_nat j2)).
    rewrite Heq. rewrite Z.sub_diag. apply Z.mod_0_l. lia. }
  apply Z.mod_divide in Hd; [|lia]. destruct Hd as [q Hq].
  assert (q = 0) by nia. lia.
Qed.

Lemma window_elem m a i :
  0 <= i < m -> i ∈ window m a (Z.to_nat m).
Proof.
  intros Hi. unfold window. apply list_elem_of_fmap.
  exists (Z.to_nat ((i - a) mod m)).
  pose proof (Z.mod_pos_bound (i - a) m ltac:(lia)) as Hb.
  split.
  - rewrite Z2Nat.id by lia. rewrite Zplus_mod_idemp_r.
    replace (a + (i - a)) with i by lia. symmetry. apply Z.mod_small. lia.
  - apply elem_of_seq. lia.
Qed.

Lemma window_count_one m a i :
  0 <= i < m -> count_occ Z.eq_dec (window m a (Z.to_nat m)) i = 1%nat.
Proof.
  intros Hi.
  apply NoDup_count_occ'.
  - apply NoDup_ListNoDup, window_NoDup. lia.
  - apply list_elem_of_In, window_elem. done.
Qed.

Lemma window_count m a i (k : nat) :
  0 <= i < m ->
  count_occ Z.eq_dec (window m a (k * Z.to_nat m)) i = k.
Proof.
  intros Hi. revert a. induction k as [|k IH]; intros a; [done|].
  simpl. rewrite window_app, count_occ_app, window_count_one, IH by done.
  done.
Qed.

Lemma NextURL_client c :
  (NextURL c).1 = set_reqCounter c (wrap64 (reqCounter c + 1)).
Proof.
  unfold NextURL. destruct (decide _); [done|].
  by destruct (urls c !! _).
Qed.

Lemma next_index_range c :
  urls c ≠ [] -> 0 <= next_index c < Z.of_nat (length (urls c)).
Proof.
  intros H. unfold next_index. apply Z.mod_pos_bound.
  destruct (urls c); [done | simpl; lia].
Qed.

Lemma NextURL_returns c :
  urls c ≠ [] ->
  exists u, urls c !! Z.to_nat (next_index c) = Some u /\
            (NextURL c).2 = Returned u.
Proof.
  intros H. pose proof (next_index_range c H) as Hr.
  unfold NextURL. destruct (decide _) as [Hz|Hz].
  { destruct (urls c); [done | discriminate]. }
  destruct (urls c !! Z.to_nat (next_index c)) as [u|] eqn:Hu; [by exists u|].
  apply lookup_ge_None in Hu. lia.
Qed.

Lemma window_cons m a n : window m a (S n) = a mod m :: window m (a + 1) n.
Proof.
  change (S n) with (1 + n)%nat. rewrite window_app. simpl.
  unfold window at 1. simpl. by rewrite Z.add_0_r.
Qed.

Lemma indices_window n : forall c,
  0 <= reqCounter c -> reqCounter c + Z.of_nat n < 2 ^ 64 ->
  indices n c = window (Z.of_nat (length (urls c))) (reqCounter c + 1) n.
Proof.
  induction n as [|n IH]; intros c H0 Hn; [done|].
  assert (Hw : wrap64 (reqCounter c + 1) = reqCounter c + 1).
  { apply wrap64_small. unfold is_uint64. lia. }
  simpl. rewrite window_cons. f_equal.
  - unfold next_index. by rewrite Hw.
  - rewrite NextURL_client, IH; simpl; rewrite Hw; [done | lia | lia].
Qed.

Lemma rotate_indices n : forall c,
  urls c ≠ [] ->
  Forall2 (λ o i, exists u, urls c !! Z.to_nat i = Some u /\ o = Returned u)
    (rotate n c).2 (indices n c) /\
  reqCounter (rotate n c).1 = Nat.iter n (λ x, wrap64 (x + 1)) (reqCounter c).
Proof.
  induction n as [|n IH]; intros c H; [by split; [constructor|]|].
  simpl. destruct (NextURL_returns c H) as (u & Hu & Hret).
  pose proof (NextURL_client c) as Hc.
  destruct (NextURL c) as [c1 o]. simpl in Hret, Hc. subst o c1.
  specialize (IH (set_reqCounter c (wrap64 (reqCounter c + 1))) H).
  destruct (rotate n _) as [c2 us]. simpl in *. destruct IH as [IH1 IH2].
  split.
  - constructor; [by exists u | done].
  - rewrite IH2. symmetry.
    apply (Nat.iter_succ_r n (λ x, wrap64 (x + 1)) (reqCounter c)).
Qed.

(** C8 (as amended).  With [N >= 1] endpoints, [k * N] consecutive calls
    of [NextURL] select every position of [urls] exactly [k] times, as
    long as the 64-bit counter does not wrap during those calls; each
    call returns the endpoint at its position, the positions are the
    successive counter values modulo [N] (the counter is incremented
    before it is read), and the counter has advanced by one per call. *)
Theorem round_robin_without_wrap (c : Client) (k : nat) :
  urls c ≠ [] ->
  0 <= reqCounter c ->
  reqCounter c + Z.of_nat (k * length (urls c)) < 2 ^ 64 ->
  (forall i, 0 <= i < Z.of_nat (length (urls c)) ->
     count_occ Z.eq_dec (indices (k * length (urls c)) c) i = k) /\
  Forall2 (λ o i, exists u, urls c !! Z.to_nat i = Some u /\ o = Returned u)
    (rotate (k * length (urls c)) c).2 (indices (k * length (urls c)) c) /\
  indices (k * length (urls c)) c =
    window (Z.of_nat (length (urls c))) (reqCounter c + 1)
      (k * length (urls c)) /\
  reqCounter (rotate (k * length (urls c)) c).1 =
    reqCounter c + Z.of_nat (k * length (urls c)).
Proof.
  intros Hne H0 Hk.
  pose proof (indices_window _ c H0 Hk) as Hi.
  destruct (rotate_indices (k * length (urls c)) c Hne) as [Hf Hc].
  split; [|split; [done|split; [done|]]].
  - intros i Hr. rewrite Hi.
    rewrite <- (Nat2Z.id (length (urls c))) at 2.
    by apply window_count.
  - rewrite Hc. clear -H0 Hk. revert Hk.
    generalize (k * length (urls c))%nat as n.
    induction n as [|n IH]; intros Hk; [simpl; lia|].
    rewrite Nat.iter_succ, IH by lia.
    rewrite wrap64_small; [lia | unfold is_uint64; lia].
Qed.

Example rotate_three :
  (rotate 6 three).2 =
    [Returned urlB; Returned urlC; Returned urlA;
     Returned urlB; Returned urlC; Returned urlA].
Proof. by vm_compute. Qed.

Lemma round_robin_without_wrap_witness :
  urls three ≠ [] /\ 0 <= reqCounter three /\
  count_occ Z.eq_dec (indices (2 * length (urls three)) three) 1 = 2%nat.
Proof.
  split; [discriminate|]. split; [simpl; lia|].
  apply (round_robin_without_wrap three 2).
  - discriminate.
  - simpl. lia.
  - vm_compute. reflexivity.
  - simpl. lia.
Defined.

(** C8 as stated fails when the counter wraps: with three endpoints and
    the counter at [2^64 - 2], the next three calls return the first
    endpoint twice and the third not at all. *)
Lemma round_robin_wrap_counterexample :
  urls near_wrap = [urlA; urlB; urlC] /\
  is_uint64 (reqCounter near_wrap) /\
  (rotate (1 * 3) near_wrap).2 = [Returned urlA; Returned urlA; Returned urlB] /\
  ¬ (forall i, 0 <= i < 3 ->
       count_occ Z.eq_dec (indices (1 * 3) near_wrap) i = 1%nat).
Proof.
  split; [reflexivity|]. split; [by vm_compute|]. split; [by vm_compute|].
  intros H. specialize (H 2 ltac:(lia)). vm_compute in H. discriminate.
Qed.

(** *** Validation *)

Lemma Equal_eq a b : eth.Equal a b = true <-> a = b.
Proof.
  revert b. induction a as [|x a IH]; intros [|y b]; simpl; try done.
  rewrite andb_true_iff, IH. split.
  - intros [H ->]. by rewrite (Byte.byte_dec_bl _ _ H).
  - intros [= -> ->]. split; [by apply Byte.byte_dec_lb | done].
Qed.

Lemma linked_cons b bs :
  linked (b :: bs) <->
  (forall curr, bs !! 0%nat = Some curr ->
     eth.Parent (eth.header curr) = eth.BlockHash b) /\ linked bs.
Proof.
  unfold linked. split.
  - intros H. split.
    + intros curr Hc. by apply (H 0%nat b curr).
    + intros i prev curr Hp Hc. by apply (H (S i) prev curr).
  - intros [H0 H] [|i] prev curr Hp Hc; simpl in *.
    + injection Hp as <-. by apply H0.
    + by apply (H i).
Qed.

Lemma links_None caller bs : links caller bs = None <-> linked bs.
Proof.
  induction bs as [|prev [|curr rest] IH].
  - split; [|done]. intros _ i ? ? H. by destruct i.
  - split; [|done]. intros _ [|i] ? ? Hp Hc; simpl in *; [done|by destruct i].
  - rewrite linked_cons. cbn [links].
    destruct (eth.Equal _ _) eqn:He.
    + apply Equal_eq in He. rewrite IH. split; [|tauto].
      intros H. split; [|done]. intros c [= <-]. done.
    + split; [done|]. intros [H _]. specialize (H curr eq_refl).
      apply Equal_eq in H. congruence.
Qed.

Lemma links_Some caller bs e : links caller bs = Some e -> e = ErrCorrupt caller.
Proof.
  induction bs as [|prev [|curr rest] IH]; try done.
  cbn [links]. destruct (eth.Equal _ _); [done | congruence].
Qed.

Lemma List_last_lookup {A} (x : A) l d :
  (x :: l) !! length l = Some (List.last (x :: l) d).
Proof.
  revert x. induction l as [|y l IH]; intros x; [done|].
  change (List.last (x :: y :: l) d) with (List.last (y :: l) d).
  apply (IH y).
Qed.

Lemma validate_None caller start limit bs :
  validate caller start limit bs = None <->
  bs ≠ [] /\
  eth.Num <$> bs !! 0%nat = Some start /\
  eth.Num <$> bs !! (length bs - 1)%nat = Some (wrap64 (start + limit - 1)) /\
  linked bs.
Proof.
  destruct bs as [|b0 rest]; [split; [done | by intros [H _]]|].
  unfold validate.
  replace (length (b0 :: rest) - 1)%nat with (length rest) by (simpl; lia).
  rewrite (List_last_lookup b0 rest b0).
  cbn [lookup list_lookup fmap option_fmap option_map].
  destruct (Z.eqb_spec (eth.Num b0) start) as [H1|H1]; cbn [negb].
  2:{ split; [done|]. intros (_ & [= ?] & _). done. }
  destruct (Z.eqb_spec (eth.Num (List.last (b0 :: rest) b0))
              (wrap64 (start + limit - 1))) as [H2|H2]; cbn [negb].
  2:{ split; [done|]. intros (_ & _ & [= ?] & _). done. }
  rewrite links_None, H1, H2.
  split; [intros H; by repeat split | by intros (_ & _ & _ & H)].
Qed.

(** The checks run in the order the source writes them: a broken link
    is only reported once the first and the last number are right. *)
Lemma validate_corrupt caller start limit bs :
  eth.Num <$> bs !! 0%nat = Some start ->
  eth.Num <$> bs !! (length bs - 1)%nat = Some (wrap64 (start + limit - 1)) ->
  ¬ linked bs ->
  validate caller start limit bs = Some (ErrCorrupt caller).
Proof.
  intros H1 H2 Hl.
  destruct (validate caller start limit bs) as [e|] eqn:Hv.
  2:{ apply validate_None in Hv. by destruct Hv as (_ & _ & _ & ?). }
  destruct bs as [|b0 rest]; [done|].
  unfold validate in Hv.
  replace (length (b0 :: rest) - 1)%nat with (length rest) in H2
    by (simpl; lia).
  rewrite (List_last_lookup b0 rest b0) in H2.
  cbn [lookup list_lookup fmap option_fmap option_map] in H1, H2.
  destruct (Z.eqb_spec (eth.Num b0) start) as [E1|E1]; [|congruence].
  destruct (Z.eqb_spec (eth.Num (List.last (b0 :: rest) b0))
              (wrap64 (start + limit - 1))) as [E2|E2]; [|congruence].
  cbn [negb] in Hv. f_equal. by apply (links_Some caller (b0 :: rest)).
Qed.

Lemma slots_length {A B} (zero : B) (pick : A -> option B) limit resps :
  length (slots zero pick limit resps) = Z.to_nat limit.
Proof. unfold slots. by rewrite length_fmap, length_seq. Qed.

Lemma validated_segment_ok caller start limit bs :
  length bs = Z.to_nat limit ->
  validate caller start limit bs = None ->
  segment_ok start limit bs.
Proof.
  intros Hlen Hv. apply validate_None in Hv.
  destruct Hv as (Hne & H1 & H2 & Hl). rewrite Hlen in H2.
  by repeat split.
Qed.

Lemma blocks_ok resp url start limit :
  f_err (blocks resp url start limit) = None ->
  segment_ok start limit (f_blocks (blocks resp url start limit)).
Proof.
  unfold blocks. destruct resp as [e|resps]; [done|].
  destruct (first_error _); [done|]. cbn [f_err f_blocks].
  apply validated_segment_ok, slots_length.
Qed.

Lemma headers_ok resp url start limit :
  f_err (headers resp url start limit) = None ->
  segment_ok start limit (f_blocks (headers resp url start limit)).
Proof.
  unfold headers. destruct resp as [e|resps]; [done|].
  destruct (first_error _); [done|]. cbn [f_err f_blocks].
  apply validated_segment_ok, slots_length.
Qed.

Lemma segment_ok_positive start limit bs : segment_ok start limit bs -> 0 < limit.
Proof.
  intros (Hlen & Hne & _). destruct bs; [done|]. simpl in Hlen. lia.
Qed.

(** *** The segment table *)

Section segment_table.
Import cache.

Lemma lookup_foldr_delete (l : list key) (segs : gmap key segment) k :
  foldr delete segs l !! k = if decide (k ∈ l) then None else segs !! k.
Proof.
  induction l as [|x l IH]; simpl; [done|].
  destruct (decide (x = k)) as [->|Hne].
  - rewrite lookup_delete_eq. rewrite decide_True; [done | left].
  - rewrite lookup_delete_ne by done. rewrite IH.
    destruct (decide (k ∈ l)) as [Hin|Hin].
    + rewrite decide_True; [done | by right].
    + rewrite decide_False; [done|]. intros [?|?]%elem_of_cons; by subst.
Qed.

Lemma pruneSegments_small order segs :
  (size segs <= size_cap)%nat -> pruneSegments order segs = segs.
Proof. intros H. unfold pruneSegments. by rewrite decide_True. Qed.

Lemma pruneSegments_lookup order segs k seg :
  pruneSegments order segs !! k = Some seg -> segs !! k = Some seg.
Proof.
  unfold pruneSegments. destruct (decide _); [done|].
  rewrite lookup_foldr_delete. by destruct (decide _).
Qed.

Lemma pruneMaxRead_lookup maxreads segs k seg :
  pruneMaxRead maxreads segs !! k = Some seg <->
  segs !! k = Some seg /\ nreads seg < maxreads.
Proof. unfold pruneMaxRead. by rewrite map_lookup_filter_Some. Qed.

Lemma pruneMaxRead_idemp maxreads segs :
  pruneMaxRead maxreads (pruneMaxRead maxreads segs)
  = pruneMaxRead maxreads segs.
Proof.
  apply map_eq. intros k. apply option_eq. intros seg.
  rewrite !pruneMaxRead_lookup. tauto.
Qed.

Lemma inserted_lookup_key c start limit :
  is_Some (inserted c start limit !! (start, limit)).
Proof.
  unfold inserted.
  destruct (pruneMaxRead _ _ !! (start, limit)) as [seg|] eqn:H.
  - by rewrite H.
  - rewrite lookup_insert_eq. by eexists.
Qed.

Lemma inserted_lookup c start limit k seg :
  inserted c start limit !! k = Some seg ->
  (segments c !! k = Some seg /\ nreads seg < maxreads c) \/
  (k = (start, limit) /\ seg = newSegment).
Proof.
  unfold inserted.
  destruct (pruneMaxRead _ _ !! (start, limit)) as [s0|] eqn:H.
  - intros Hk. left. by apply pruneMaxRead_lookup.
  - destruct (decide (k = (start, limit))) as [->|Hne].
    + rewrite lookup_insert_eq. intros [= <-]. by right.
    + rewrite lookup_insert_ne by done. intros Hk. left.
      by apply pruneMaxRead_lookup.
Qed.

Lemma store_lookup k seg segs k' :
  store k seg segs !! k' =
    if decide (k = k') then (λ _, seg) <$> segs !! k else segs !! k'.
Proof.
  unfold store. destruct (segs !! k) as [s0|] eqn:H.
  - destruct (decide (k = k')) as [->|Hne].
    + by rewrite lookup_insert_eq.
    + by rewrite lookup_insert_ne.
  - destruct (decide (k = k')) as [->|Hne]; [by rewrite H | done].
Qed.

Lemma store_dom k seg segs : dom (store k seg segs) = dom segs.
Proof.
  apply set_eq. intros k'. rewrite !elem_of_dom, store_lookup.
  destruct (decide (k = k')) as [->|]; [|done].
  by rewrite fmap_is_Some.
Qed.

Lemma store_is_Some k seg segs k' :
  is_Some (store k seg segs !! k') <-> is_Some (segs !! k').
Proof. by rewrite <- !elem_of_dom, store_dom. Qed.

Lemma store_None k seg segs k' :
  store k seg segs !! k' = None <-> segs !! k' = None.
Proof. by rewrite !eq_None_not_Some, store_is_Some. Qed.

Lemma store_size k seg segs : size (store k seg segs) = size segs.
Proof. by rewrite <- !size_dom, store_dom. Qed.

End segment_table.

Section pruning.
Import cache.

Lemma sorted_keys_elem segs order k :
  sorted_keys segs order -> k ∈ order <-> is_Some (segs !! k).
Proof.
  intros [Hp _]. rewrite Hp, list_elem_of_fmap. split.
  - intros ([k' v] & -> & Hin). apply elem_of_map_to_list in Hin. by eexists.
  - intros [v Hv]. exists (k, v). split; [done|]. by apply elem_of_map_to_list.
Qed.

Lemma sorted_keys_NoDup segs order : sorted_keys segs order -> NoDup order.
Proof. intros [Hp _]. rewrite Hp. apply NoDup_fst_map_to_list. Qed.

Lemma sorted_keys_length segs order :
  sorted_keys segs order -> length order = size segs.
Proof. intros [Hp _]. by rewrite Hp, length_fmap, length_map_to_list. Qed.

(** Past the cap, the table keeps the first five keys of the sorted
    order and nothing else. *)
Lemma pruneSegments_lookup_sorted order segs k :
  sorted_keys segs order -> (size_cap < size segs)%nat ->
  pruneSegments order segs !! k =
    if decide (k ∈ take size_cap order) then segs !! k else None.
Proof.
  intros Hs Hsz. unfold pruneSegments. rewrite decide_False by lia.
  rewrite lookup_foldr_delete.
  pose proof (sorted_keys_NoDup _ _ Hs) as Hnd.
  rewrite <- (take_drop size_cap order) in Hnd.
  apply NoDup_app in Hnd as (_ & Hdisj & _).
  destruct (decide (k ∈ drop size_cap order)) as [Hd|Hd].
  - rewrite decide_False; [done|]. intros Ht. by apply (Hdisj k).
  - destruct (decide (k ∈ take size_cap order)) as [Ht|Ht]; [done|].
    destruct (segs !! k) as [v|] eqn:Hk; [|done].
    exfalso. assert (Hin : k ∈ order) by (eapply sorted_keys_elem; eauto).
    rewrite <- (take_drop size_cap order) in Hin.
    apply elem_of_app in Hin as [?|?]; done.
Qed.

Lemma pruneSegments_dom_sorted order segs :
  sorted_keys segs order -> (size_cap < size segs)%nat ->
  dom (pruneSegments order segs) = list_to_set (take size_cap order).
Proof.
  intros Hs Hsz. apply set_eq. intros k.
  rewrite elem_of_dom, elem_of_list_to_set, pruneSegments_lookup_sorted by done.
  destruct (decide _) as [Ht|Ht]; [|split; [by intros [? ?] | done]].
  split; [done|]. intros _. eapply sorted_keys_elem; [done|].
  by apply (subseteq_take size_cap order).
Qed.

Lemma pruneSegments_size_sorted order segs :
  sorted_keys segs order -> (size_cap < size segs)%nat ->
  size (pruneSegments order segs) = size_cap.
Proof.
  intros Hs Hsz. rewrite <- size_dom, pruneSegments_dom_sorted by done.
  rewrite size_list_to_set.
  - rewrite length_take, (sorted_keys_length _ _ Hs). lia.
  - pose proof (sorted_keys_NoDup _ _ Hs) as Hnd.
    rewrite <- (take_drop size_cap order) in Hnd.
    by apply NoDup_app in Hnd as (? & _ & _).
Qed.

Lemma pruneSegments_size order segs :
  sorted_keys segs order -> (size (pruneSegments order segs) <= size_cap)%nat.
Proof.
  intros Hs. destruct (decide (size segs <= size_cap)%nat) as [H|H].
  - by rewrite pruneSegments_small.
  - rewrite pruneSegments_size_sorted; [done | done | lia].
Qed.

(** Whatever is evicted starts no higher than anything that stays. *)
Lemma pruneSegments_prefers_high order segs r e :
  sorted_keys segs order -> (size_cap < size segs)%nat ->
  is_Some (pruneSegments order segs !! r) ->
  is_Some (segs !! e) -> pruneSegments order segs !! e = None ->
  e.1 <= r.1.
Proof.
  intros Hs Hsz Hr He Hgone.
  rewrite pruneSegments_lookup_sorted in Hr, Hgone by done.
  destruct (decide (r ∈ take size_cap order)) as [Hrt|]; [|by destruct Hr].
  destruct (decide (e ∈ take size_cap order)) as [|Het].
  { rewrite Hgone in He. by destruct He. }
  assert (Hed : e ∈ drop size_cap order).
  { apply (sorted_keys_elem _ _ e Hs) in He.
    rewrite <- (take_drop size_cap order) in He.
    apply elem_of_app in He as [?|?]; done. }
  destruct Hs as [_ Hsorted].
  rewrite <- (take_drop size_cap order) in Hsorted.
  by apply (StronglySorted_app_1_elem_of _ _ _ r e Hsorted).
Qed.

Lemma get_table c url start limit f order :
  exists seg,
    (get c false url start limit f order).1 =
      mk (maxreads c)
         (store (start, limit) seg
            (pruneSegments order (inserted c start limit))).
Proof.
  unfold get. destruct (done (bump _)); [by eexists|].
  destruct (f_err _); by eexists.
Qed.

End pruning.

(** C5.  After a [get] that goes through the cache the table holds at
    most five segments.  When the table with the requested key in it
    has more than five, exactly five stay, all of them from that table,
    and none of those evicted starts higher than one that stays (ties
    on the start are broken by the sort). *)
Theorem get_keeps_five_highest (c : cache.t) (url : string) (start limit : Z)
    (f : getter) (order : list key) :
  cache.sorted_keys (cache.inserted c start limit) order ->
  let segs := cache.segments (cache.get c false url start limit f order).1 in
  (size segs <= 5)%nat /\
  ((5 < size (cache.inserted c start limit))%nat ->
     size segs = 5%nat /\
     (forall k, is_Some (segs !! k) ->
        is_Some (cache.inserted c start limit !! k)) /\
     (forall r e, is_Some (segs !! r) ->
        is_Some (cache.inserted c start limit !! e) -> segs !! e = None ->
        e.1 <= r.1)).
Proof.
  intros Hs. destruct (get_table c url start limit f order) as [seg ->].
  cbn [cache.segments]. split.
  - rewrite store_size. by apply pruneSegments_size.
  - intros Hbig. split; [|split].
    + rewrite store_size. by apply pruneSegments_size_sorted.
    + intros k. rewrite store_is_Some.
      intros [v Hv]. exists v. by eapply pruneSegments_lookup.
    + intros r e. rewrite store_is_Some, store_None.
      by apply pruneSegments_prefers_high.
Qed.

(** Five gets from an empty table produce [five]. *)
Example five_reached :
  (cache.get
     (cache.get
        (cache.get
           (cache.get
              (cache.get (cache.mk 20 ∅) false "u" 200 1
                 (one_block 200 hashA) []).1
              false "u" 201 1 (one_block 201 hashA) []).1
           false "u" 202 1 (one_block 202 hashA) []).1
        false "u" 203 1 (one_block 203 hashA) []).1
     false "u" 204 1 (one_block 204 hashA) []).1 = five.
Proof. by vm_compute. Qed.

(** A sixth key with a higher start evicts the lowest start. *)
Example get_evicts_lowest :
  let c := (cache.get five false "u" 300 1 (one_block 300 hashB)
              (sorted_with_high 300)).1 in
  cache.segments c !! (200, 1) = None /\
  cache.segments c !! (300, 1) =
    Some (cache.mkSegment 1 true [blk 300 hashB hashC]) /\
  cache.segments c !! (201, 1) = Some (filled 201).
Proof. by vm_compute. Qed.

Lemma get_keeps_five_highest_witness :
  cache.sorted_keys (cache.inserted five 300 1) (sorted_with_high 300) /\
  size (cache.segments
          (cache.get five false "u" 300 1 (one_block 300 hashB)
             (sorted_with_high 300)).1) = 5%nat.
Proof.
  assert (H : cache.sorted_keys (cache.inserted five 300 1) (sorted_with_high 300)).
  { apply (bool_decide_unpack _). vm_compute. exact I. }
  split; [exact H|].
  apply (get_keeps_five_highest five "u" 300 1 (one_block 300 hashB)
           (sorted_with_high 300) H).
  vm_compute. lia.
Defined.

(** *** Bounded reuse *)

Section reuse.
Import cache.

Lemma pruneMaxRead_insert_live mr k seg Q :
  nreads seg < mr -> pruneMaxRead mr Q = Q ->
  pruneMaxRead mr (<[k := seg]> Q) = <[k := seg]> Q.
Proof.
  intros Hl HQ. unfold pruneMaxRead in *.
  rewrite map_filter_insert_True by done. by rewrite HQ.
Qed.

Lemma pruneMaxRead_insert_expired mr k seg Q :
  mr <= nreads seg -> Q !! k = None -> pruneMaxRead mr Q = Q ->
  pruneMaxRead mr (<[k := seg]> Q) = Q.
Proof.
  intros Hl Hk HQ. unfold pruneMaxRead in *.
  rewrite map_filter_insert_False by (unfold live; simpl; lia).
  by rewrite delete_id.
Qed.

Lemma size_insert_settled mr k seg Q :
  settled mr k Q -> (size (<[k := seg]> Q) <= size_cap)%nat.
Proof.
  intros [Hf Hr _]. rewrite map_size_insert_None by done.
  unfold size_cap. lia.
Qed.

(** A call that finds the finished segment with reads to spare. *)
Lemma get_reuses mr k Q j bs url f order :
  settled mr k Q -> j < mr ->
  get (mk mr (<[k := mkSegment j true bs]> Q)) false url k.1 k.2 f order
  = (mk mr (<[k := mkSegment (j + 1) true bs]> Q), mkFetched bs None []).
Proof.
  intros HQ Hj. destruct k as [start limit]. unfold get. cbn [fst snd].
  assert (Hi : inserted (mk mr (<[(start, limit) := mkSegment j true bs]> Q))
                 start limit = <[(start, limit) := mkSegment j true bs]> Q).
  { unfold inserted. cbn [maxreads segments].
    rewrite pruneMaxRead_insert_live by (done || by destruct HQ).
    by rewrite lookup_insert_eq. }
  rewrite Hi, lookup_insert_eq.
  cbv [default from_option id bump done nreads d maxreads].
  rewrite pruneSegments_small by (by eapply size_insert_settled).
  unfold store. rewrite lookup_insert_eq. by rewrite insert_insert_eq.
Qed.

(** A call that finds no live segment for the key and room for one. *)
Lemma get_fetches mr k Q segs url f order :
  settled mr k Q -> pruneMaxRead mr segs = Q ->
  get (mk mr segs) false url k.1 k.2 f order
  = (mk mr
       (<[k := match f_err (f url k.1 k.2) with
               | None => mkSegment 1 true (f_blocks (f url k.1 k.2))
               | Some _ => mkSegment 1 false []
               end]> Q),
     fetch_through f url k.1 k.2).
Proof.
  intros HQ HP. destruct k as [start limit]. unfold get, fetch_through.
  cbn [fst snd].
  assert (Hi : inserted (mk mr segs) start limit
               = <[(start, limit) := newSegment]> Q).
  { unfold inserted. cbn [maxreads segments]. rewrite HP.
    by rewrite (settled_free _ _ _ HQ). }
  rewrite Hi, lookup_insert_eq.
  cbv [default from_option id bump done nreads d newSegment maxreads].
  rewrite pruneSegments_small by (by eapply size_insert_settled).
  unfold store. rewrite lookup_insert_eq.
  destruct (f_err _); by rewrite insert_insert_eq.
Qed.

Lemma gets_app c url start limit l1 l2 :
  gets c url start limit (l1 ++ l2) =
    let '(c1, r1) := gets c url start limit l1 in
    let '(c2, r2) := gets c1 url start limit l2 in
    (c2, r1 ++ r2).
Proof.
  revert c. induction l1 as [|[f o] l1 IH]; intros c; cbn [app gets].
  - by destruct (gets c url start limit l2).
  - destruct (get c false url start limit f o) as [c1 r]. rewrite IH.
    destruct (gets c1 url start limit l1) as [c2 rs].
    by destruct (gets c2 url start limit l2).
Qed.

(** As long as reads are left, every call is answered from the segment,
    whatever fetcher it is handed. *)
Lemma gets_reuses mr k Q bs url hits : forall j,
  settled mr k Q -> j + Z.of_nat (length hits) <= mr ->
  gets (mk mr (<[k := mkSegment j true bs]> Q)) url k.1 k.2 hits
  = (mk mr (<[k := mkSegment (j + Z.of_nat (length hits)) true bs]> Q),
     (λ _, mkFetched bs None []) <$> hits).
Proof.
  induction hits as [|[f o] hits IH]; intros j HQ Hj.
  - simpl. by rewrite Z.add_0_r.
  - rewrite length_cons, Nat2Z.inj_succ in Hj.
    cbn [gets]. rewrite get_reuses; [|done|lia].
    rewrite IH; [|done|lia]. rewrite fmap_cons.
    rewrite length_cons, Nat2Z.inj_succ.
    by replace (j + 1 + Z.of_nat (length hits))
      with (j + Z.succ (Z.of_nat (length hits))) by lia.
Qed.

(** The first call for a key without a live segment, when the cap lets
    the new segment stay. *)
Lemma get_first c k url f order :
  pruneMaxRead (maxreads c) (segments c) !! k = None ->
  sorted_keys (inserted c k.1 k.2) order ->
  is_Some (pruneSegments order (inserted c k.1 k.2) !! k) ->
  settled (maxreads c) k (delete k (pruneSegments order (inserted c k.1 k.2))) /\
  get c false url k.1 k.2 f order
  = (mk (maxreads c)
       (<[k := match f_err (f url k.1 k.2) with
               | None => mkSegment 1 true (f_blocks (f url k.1 k.2))
               | Some _ => mkSegment 1 false []
               end]> (delete k (pruneSegments order (inserted c k.1 k.2)))),
     fetch_through f url k.1 k.2).
Proof.
  intros Hfree Hs Hstay. destruct k as [start limit]. cbn [fst snd] in *.
  assert (Hi : inserted c start limit
               = <[(start, limit) := newSegment]>
                   (pruneMaxRead (maxreads c) (segments c))).
  { unfold inserted. by rewrite Hfree. }
  destruct Hstay as [s0 Hs0].
  assert (s0 = newSegment) as ->.
  { apply pruneSegments_lookup in Hs0. rewrite Hi, lookup_insert_eq in Hs0.
    congruence. }
  split.
  - split.
    + apply lookup_delete_eq.
    + pose proof (pruneSegments_size _ _ Hs) as Hsz.
      rewrite map_size_delete_Some by done. unfold size_cap in Hsz. lia.
    + apply map_filter_id. intros k' seg Hk'.
      apply lookup_delete_Some in Hk' as [Hne Hk'].
      apply pruneSegments_lookup in Hk'. rewrite Hi in Hk'.
      rewrite lookup_insert_ne in Hk' by done.
      by apply pruneMaxRead_lookup in Hk' as [_ ?].
  - unfold get, fetch_through.
    assert (Hl : inserted c start limit !! (start, limit) = Some newSegment).
    { by rewrite Hi, lookup_insert_eq. }
    rewrite Hl.
    cbv [default from_option id bump done nreads d newSegment].
    unfold store. rewrite Hs0.
    destruct (f_err _); by rewrite insert_delete_eq.
Qed.
End reuse.

(** C2 (as amended).  Take a key without a live segment and a first call
    whose new segment the cap of five does not evict and whose fetcher
    succeeds.  Then calls 2 to
    [maxreads] return the blocks of the first call without running
    their fetcher, whatever it is; before call [maxreads + 1] the
    segment has [maxreads] reads, that call prunes it and returns what
    its own fetcher returns. *)
Theorem bounded_reuse (c : cache.t) (url : string) (start limit : Z)
    (f1 : getter) (o1 : list key) (hits : list (getter * list key))
    (fl : getter) (ol : list key) :
  cache.pruneMaxRead (cache.maxreads c) (cache.segments c) !! (start, limit)
    = None ->
  cache.sorted_keys (cache.inserted c start limit) o1 ->
  is_Some (cache.pruneSegments o1 (cache.inserted c start limit)
             !! (start, limit)) ->
  f_err (f1 url start limit) = None ->
  Z.of_nat (length hits) = cache.maxreads c - 1 ->
  let bs := f_blocks (f1 url start limit) in
  let before := (gets c url start limit ((f1, o1) :: hits)).1 in
  (gets c url start limit ((f1, o1) :: hits ++ [(fl, ol)])).2 =
    mkFetched bs None (f_events (f1 url start limit))
    :: ((λ _, mkFetched bs None []) <$> hits)
    ++ [fetch_through fl url start limit] /\
  cache.nreads <$> cache.segments before !! (start, limit)
    = Some (cache.maxreads c) /\
  cache.pruneMaxRead (cache.maxreads before) (cache.segments before)
    !! (start, limit) = None.
Proof.
  intros Hfree Hs Hstay Hok Hlen bs before.
  destruct (get_first c (start, limit) url f1 o1 Hfree Hs Hstay) as [HQ Hg].
  cbn [fst snd] in Hg. set (Q := delete _ _) in *.
  rewrite Hok in Hg. unfold fetch_through in Hg. rewrite Hok in Hg.
  fold bs in Hg.
  assert (Hrun : gets c url start limit ((f1, o1) :: hits) =
    (cache.mk (cache.maxreads c)
       (<[(start, limit) := cache.mkSegment (cache.maxreads c) true bs]> Q),
     mkFetched bs None (f_events (f1 url start limit))
     :: ((λ _, mkFetched bs None []) <$> hits))).
  { cbn [gets]. rewrite Hg.
    pose proof (gets_reuses (cache.maxreads c) (start, limit) Q bs url hits 1
                  HQ ltac:(lia)) as Hr.
    cbn [fst snd] in Hr. rewrite Hr.
    by replace (1 + Z.of_nat (length hits)) with (cache.maxreads c) by lia. }
  assert (Hexp : cache.pruneMaxRead (cache.maxreads c)
            (<[(start, limit) := cache.mkSegment (cache.maxreads c) true bs]> Q)
          = Q).
  { destruct HQ. apply pruneMaxRead_insert_expired; simpl; (lia || done). }
  split; [|split].
  - rewrite app_comm_cons, gets_app, Hrun. cbn [gets].
    pose proof (get_fetches (cache.maxreads c) (start, limit) Q _ url fl ol
                  HQ Hexp) as Hl.
    cbn [fst snd] in Hl. by rewrite Hl.
  - subst before. rewrite Hrun. cbn [fst cache.segments].
    by rewrite lookup_insert_eq.
  - subst before. rewrite Hrun. cbn [fst cache.segments cache.maxreads].
    rewrite Hexp. by destruct HQ.
Qed.

Lemma bounded_reuse_witness :
  f_err (one_block 300 hashA "u" 300 1) = None /\
  (gets five_three "u" 300 1
     ((one_block 300 hashA, sorted_with_high 300)
      :: [(one_block 300 hashB, []); (one_block 300 hashC, [])]
      ++ [(one_block 300 hashB, [])])).2 =
    mkFetched [blk 300 hashA hashC] None
      (f_events (one_block 300 hashA "u" 300 1))
    :: ((λ _, mkFetched [blk 300 hashA hashC] None [])
          <$> [(one_block 300 hashB, @nil key); (one_block 300 hashC, [])])
    ++ [fetch_through (one_block 300 hashB) "u" 300 1].
Proof.
  split; [reflexivity|].
  apply (bounded_reuse five_three "u" 300 1 (one_block 300 hashA)
           (sorted_with_high 300)
           [(one_block 300 hashB, []); (one_block 300 hashC, [])]
           (one_block 300 hashB) []).
  - vm_compute. reflexivity.
  - apply (bool_decide_unpack _). vm_compute. exact I.
  - apply (bool_decide_unpack _). vm_compute. exact I.
  - reflexivity.
  - reflexivity.
Defined.

(** C2 as stated fails in two situations.  When the table already holds
    five segments with higher starts, the cap evicts the new segment in
    the call that creates it, and the second call for the key runs its
    fetcher.  And when an earlier fetch for the key failed, the segment
    it left has a read counted already: under a read limit of three the
    call whose fetcher succeeds is followed by one call served from the
    segment, and the next one (the third, not the fourth) fetches
    again. *)
Lemma bounded_reuse_counterexample :
  (cache.maxreads five = 20 /\
   cache.sorted_keys (cache.inserted five 100 1) (sorted_with_low 100) /\
   f_err (one_block 100 hashA "u" 100 1) = None /\
   (gets five "u" 100 1
      [(one_block 100 hashA, sorted_with_low 100);
       (one_block 100 hashB, sorted_with_low 100)]).2 =
     [mkFetched [blk 100 hashA hashC] None
        [EvDo "u" [mkRequest "eth_getBlockByNumber" [PHex 100; PBool true]]];
      mkFetched [blk 100 hashB hashC] None
        [EvDo "u" [mkRequest "eth_getBlockByNumber" [PHex 100; PBool true]]]] /\
   (cache.get five false "u" 100 1 (one_block 100 hashA)
      (sorted_with_low 100)).1 = five) /\
  ((cache.get (cache.mk 3 ∅) false "u" 100 1 failing []).1 = after_failure /\
   (gets after_failure "u" 100 1
      [(one_block 100 hashA, []); (one_block 100 hashB, []);
       (one_block 100 hashC, [])]).2 =
     [mkFetched [blk 100 hashA hashC] None
        [EvDo "u" [mkRequest "eth_getBlockByNumber" [PHex 100; PBool true]]];
      mkFetched [blk 100 hashA hashC] None [];
      mkFetched [blk 100 hashC hashC] None
        [EvDo "u" [mkRequest "eth_getBlockByNumber" [PHex 100; PBool true]]]]).
Proof.
  split.
  - split; [reflexivity|].
    split; [apply (bool_decide_unpack _); vm_compute; exact I|].
    split; [reflexivity|]. split; by vm_compute.
  - split; by vm_compute.
Qed.

(** *** Range checks *)

Lemma receipt_out_test start limit n :
  (n <? start) || (wrap64 (start + limit) <? n) = true <->
  receipt_out start limit n.
Proof. unfold receipt_out. rewrite orb_true_iff, !Z.ltb_lt. done. Qed.

Lemma log_out_test start limit n :
  (n <? start) || (wrap64 (start + limit) <=? n) = true <->
  log_out start limit n.
Proof. unfold log_out. rewrite orb_true_iff, Z.ltb_lt, Z.leb_le. done. Qed.

Lemma receipts_loop_range bm start limit resps : forall bs n s l,
  (receipts_loop bm start limit resps bs).2 = Some (ErrReceiptRange n s l) <->
  s = start /\ l = limit /\
  exists pre r r0 post,
    resps = pre ++ r :: post /\ Forall (passes bm start limit) pre /\
    head (rrResult r) = Some r0 /\ rBlockNum r0 = n /\
    receipt_out start limit n.
Proof.
  induction resps as [|r resps IH]; intros bs n s l.
  - simpl. split; [done|]. intros (_ & _ & pre & ? & ? & ? & H & _).
    by destruct pre.
  - cbn [receipts_loop]. destruct (rrResult r) as [|r0 more] eqn:Hr.
    + rewrite IH. split; intros (-> & -> & pre & r' & r0' & post & H);
        (split; [done|]; split; [done|]).
      * destruct H as (-> & Hp & Hrest). exists (r :: pre), r', r0', post.
        split; [done|]. split; [|done]. constructor; [|done].
        unfold passes. by rewrite Hr.
      * destruct H as (Heq & Hp & Hh & Hrest). destruct pre as [|p pre].
        { injection Heq as <- <-. rewrite Hr in Hh. done. }
        injection Heq as <- ->. exists pre, r', r0', post.
        split; [done|]. split; [|done]. by inversion Hp.
    + destruct ((rBlockNum r0 <? start) || _) eqn:Hout.
      * apply receipt_out_test in Hout. cbn [snd]. split.
        -- intros [= <- <- <-]. split; [done|]. split; [done|].
           exists [], r, r0, resps. rewrite Hr. by repeat split.
        -- intros (-> & -> & pre & r' & r0' & post & Heq & Hp & Hh & Hn & Ho).
           destruct pre as [|p pre].
           ++ injection Heq as <- <-. rewrite Hr in Hh. injection Hh as <-.
              by rewrite Hn.
           ++ injection Heq as <- ->. inversion Hp as [|? ? Hp1 _]; subst.
              unfold passes in Hp1. rewrite Hr in Hp1. by destruct Hp1.
      * assert (Hin : ¬ receipt_out start limit (rBlockNum r0)).
        { rewrite <- receipt_out_test. by rewrite Hout. }
        destruct (bm !! rBlockNum r0) as [i|] eqn:Hbm.
        -- rewrite IH. split; intros (-> & -> & pre & r' & r0' & post & H);
             (split; [done|]; split; [done|]).
           ++ destruct H as (-> & Hp & Hrest). exists (r :: pre), r', r0', post.
              split; [done|]. split; [|done]. constructor; [|done].
              unfold passes. rewrite Hr. split; [done|]. by rewrite Hbm.
           ++ destruct H as (Heq & Hp & Hh & Hn & Ho). destruct pre as [|p pre].
              { injection Heq as <- <-. rewrite Hr in Hh. injection Hh as <-.
                by rewrite Hn in Hin. }
              injection Heq as <- ->. exists pre, r', r0', post.
              split; [done|]. split; [|done]. by inversion Hp.
        -- cbn [snd]. split; [done|].
           intros (-> & -> & pre & r' & r0' & post & Heq & Hp & Hh & Hn & Ho).
           destruct pre as [|p pre].
           ++ injection Heq as <- <-. rewrite Hr in Hh. injection Hh as <-.
              by rewrite Hn in Hin.
           ++ injection Heq as <- ->. inversion Hp as [|? ? Hp1 _]; subst.
              unfold passes in Hp1. rewrite Hr, Hbm in Hp1.
              destruct Hp1 as [_ [? ?]]. done.
Qed.

Lemma group_logs_range start limit results : forall acc e,
  group_logs start limit results acc = inr e <->
  exists pre r post,
    results = pre ++ r :: post /\
    Forall (λ x, ¬ log_out start limit (lrBlockNum x)) pre /\
    log_out start limit (lrBlockNum r) /\
    e = ErrLogRange (lrBlockNum r) start limit.
Proof.
  induction results as [|x results IH]; intros acc e.
  - simpl. split; [done|]. intros (pre & ? & ? & H & _). by destruct pre.
  - cbn [group_logs]. destruct ((lrBlockNum x <? start) || _) eqn:Hout.
    + apply log_out_test in Hout. split.
      * intros [= <-]. exists [], x, results. by repeat split.
      * intros (pre & r & post & Heq & Hp & Ho & ->). destruct pre as [|p pre].
        -- by injection Heq as <- <-.
        -- injection Heq as <- ->. inversion Hp; subst. done.
    + assert (Hin : ¬ log_out start limit (lrBlockNum x)).
      { rewrite <- log_out_test. by rewrite Hout. }
      assert (Hstep : forall acc',
        group_logs start limit results acc' = inr e <->
        exists pre r post,
          x :: results = pre ++ r :: post /\
          Forall (λ x, ¬ log_out start limit (lrBlockNum x)) pre /\
          log_out start limit (lrBlockNum r) /\
          e = ErrLogRange (lrBlockNum r) start limit).
      { intros acc'. rewrite IH. split.
        - intros (pre & r & post & -> & Hp & Ho & ->).
          exists (x :: pre), r, post. split; [done|].
          split; [by constructor | done].
        - intros (pre & r & post & Heq & Hp & Ho & ->). destruct pre as [|p pre].
          + injection Heq as <- <-. done.
          + injection Heq as <- ->. exists pre, r, post.
            split; [done|]. split; [by inversion Hp | done]. }
      destruct (acc !! _); apply Hstep.
Qed.

Lemma first_log_out start limit results :
  (exists r, r ∈ results /\ log_out start limit (lrBlockNum r)) ->
  exists pre r post,
    results = pre ++ r :: post /\
    Forall (λ x, ¬ log_out start limit (lrBlockNum x)) pre /\
    log_out start limit (lrBlockNum r).
Proof.
  induction results as [|x results IH]; intros (r & Hin & Ho).
  - by apply elem_of_nil in Hin.
  - destruct (decide (log_out start limit (lrBlockNum x))) as [Hx|Hx].
    + exists [], x, results. by repeat split.
    + apply elem_of_cons in Hin as [->|Hin]; [done|].
      destruct IH as (pre & r' & post & -> & Hp & Ho'); [by exists r|].
      exists (x :: pre), r', post. split; [done|]. split; [by constructor|done].
Qed.

Lemma logs_range url filter bm start limit hresp lresp order bs :
  Exists (hrError hresp) = false -> Exists (lgError lresp) = false ->
  is_Some (hrHeader hresp) ->
  (exists n,
     (logs url filter bm start limit (DoOk (hresp, lresp)) order bs).1.2
     = Some (ErrLogRange n start limit)) <->
  (exists r, r ∈ lgResult lresp /\ log_out start limit (lrBlockNum r)).
Proof.
  intros Hh Hl [hd Hhd]. unfold logs. rewrite Hh, Hl, Hhd.
  destruct (group_logs start limit (lgResult lresp) ∅) as [g|e] eqn:Hg.
  - split.
    + intros [n Hn]. exfalso. revert Hn. cbn [fst snd].
      generalize bs. induction order as [|k order IHo]; intros bs0; [done|].
      cbn [write_logs]. destruct (g !! k); [|apply IHo].
      destruct (bm !! k.1); [apply IHo | done].
    + intros Hex. apply first_log_out in Hex as (pre & r & post & Heq & Hp & Ho).
      assert (group_logs start limit (lgResult lresp) ∅
              = inr (ErrLogRange (lrBlockNum r) start limit)) as Hbad.
      { apply group_logs_range. by exists pre, r, post. }
      congruence.
  - apply group_logs_range in Hg as (pre & r & post & Heq & Hp & Ho & ->).
    cbn [fst snd]. split.
    + intros _. exists r. split; [|done]. rewrite Heq. set_solver.
    + intros _. by exists (lrBlockNum r).
Qed.

Lemma logs_range_sound url filter bm start limit resp order bs n s l :
  (logs url filter bm start limit resp order bs).1.2 = Some (ErrLogRange n s l) ->
  exists hresp lresp r,
    resp = DoOk (hresp, lresp) /\ r ∈ lgResult lresp /\
    lrBlockNum r = n /\ log_out start limit n.
Proof.
  unfold logs. destruct resp as [e|[hresp lresp]]; [done|].
  destruct (Exists (hrError hresp)); [done|].
  destruct (Exists (lgError lresp)); [done|].
  destruct (hrHeader hresp); [|done].
  destruct (group_logs start limit (lgResult lresp) ∅) as [g|e] eqn:Hg.
  - cbn [fst snd]. generalize bs.
    induction order as [|k order IHo]; intros bs0; [done|].
    cbn [write_logs]. destruct (g !! k); [|apply IHo].
    destruct (bm !! k.1); [apply IHo | done].
  - apply group_logs_range in Hg as (pre & r & post & Heq & Hp & Ho & ->).
    cbn [fst snd]. intros [= <- <- <-]. exists hresp, lresp, r.
    split; [done|]. split; [|done]. rewrite Heq. set_solver.
Qed.

(** C7 (as amended).  [receipts] returns its out-of-range error exactly
    when the batch decoded without transport or RPC error and, in batch
    order, the first response that does not pass is one whose first
    receipt reports a number below [start] or above [start + limit]
    (the upper end is let in; a response passes when it is empty, or
    within that bound and found in the blockmap).  Once the two
    responses of [logs] decoded without RPC error and with a header,
    [logs] returns its out-of-range error exactly when some log reports
    a number below [start] or at least [start + limit] (the upper end
    is kept out).  Neither check rejects a number inside its bound.
    The sums are 64-bit sums. *)
Theorem range_checks :
  (forall url bm start limit resp bs n s l,
     (receipts url bm start limit resp bs).1.2 = Some (ErrReceiptRange n s l)
     <->
     exists resps,
       resp = DoOk resps /\ first_error (rrError <$> resps) = None /\
       s = start /\ l = limit /\
       exists pre r r0 post,
         resps = pre ++ r :: post /\ Forall (passes bm start limit) pre /\
         head (rrResult r) = Some r0 /\ rBlockNum r0 = n /\
         receipt_out start limit n) /\
  (forall url filter bm start limit hresp lresp order bs,
     Exists (hrError hresp) = false -> Exists (lgError lresp) = false ->
     is_Some (hrHeader hresp) ->
     (exists n,
        (logs url filter bm start limit (DoOk (hresp, lresp)) order bs).1.2
        = Some (ErrLogRange n start limit)) <->
     (exists r, r ∈ lgResult lresp /\ log_out start limit (lrBlockNum r))) /\
  (forall url filter bm start limit resp order bs n s l,
     (logs url filter bm start limit resp order bs).1.2
     = Some (ErrLogRange n s l) ->
     exists hresp lresp r,
       resp = DoOk (hresp, lresp) /\ r ∈ lgResult lresp /\
       lrBlockNum r = n /\ log_out start limit n).
Proof.
  split; [|split].
  - intros url bm start limit resp bs n s l. unfold receipts.
    destruct resp as [e|resps].
    { split; [done|]. by intros (? & ? & _). }
    destruct (first_error (rrError <$> resps)) as [e|] eqn:He.
    { split; [done|]. intros (? & [= <-] & ? & _). congruence. }
    cbn [fst snd]. rewrite receipts_loop_range. split.
    + intros (-> & -> & H). by exists resps.
    + by intros (? & [= <-] & _ & -> & -> & H).
  - apply logs_range.
  - apply logs_range_sound.
Qed.

(** The upper end [start + limit] passes the bound of [receipts] (and
    then finds no block), and fails the bound of [logs]. *)
Example upper_end_asymmetry :
  (receipts "u" (mkBlockmap two_blocks) 100 2
     (DoOk [mkReceiptResp noError [receipt_for 102 0 hashA]]) two_blocks).1.2
    = Some ErrBlockNotFound /\
  (receipts "u" (mkBlockmap two_blocks) 100 2
     (DoOk [mkReceiptResp noError [receipt_for 103 0 hashA]]) two_blocks).1.2
    = Some (ErrReceiptRange 103 100 2) /\
  (logs "u" noFilter (mkBlockmap two_blocks) 100 2
     (DoOk (present, mkLogResp noError [log_for 102 0 hashA])) [] two_blocks).1.2
    = Some (ErrLogRange 102 100 2) /\
  (logs "u" noFilter (mkBlockmap two_blocks) 100 2
     (DoOk (present, mkLogResp noError [log_for 101 0 hashA])) [(101, 0)]
     two_blocks).1.2 = None.
Proof. by vm_compute. Qed.

Lemma range_checks_witness :
  (receipts "u" (mkBlockmap two_blocks) 100 2
     (DoOk [mkReceiptResp noError [receipt_for 101 0 hashA];
            mkReceiptResp noError [receipt_for 103 0 hashA]]) two_blocks).1.2
    = Some (ErrReceiptRange 103 100 2) /\
  (exists n,
     (logs "u" noFilter (mkBlockmap two_blocks) 100 2
        (DoOk (present, mkLogResp noError [log_for 102 0 hashA])) []
        two_blocks).1.2 = Some (ErrLogRange n 100 2)).
Proof.
  destruct range_checks as (H1 & H2 & _). split.
  - apply H1. eexists. split; [reflexivity|]. split; [reflexivity|].
    split; [reflexivity|]. split; [reflexivity|].
    exists [mkReceiptResp noError [receipt_for 101 0 hashA]],
      (mkReceiptResp noError [receipt_for 103 0 hashA]),
      (receipt_for 103 0 hashA), [].
    split; [reflexivity|]. split.
    + constructor; [|constructor]. split.
      * unfold receipt_out; vm_compute. intros [H|H]; discriminate H.
      * vm_compute. eexists. reflexivity.
    + split; [reflexivity|]. split; [reflexivity|].
      right. vm_compute. reflexivity.
  - apply H2.
    + reflexivity.
    + reflexivity.
    + eexists. reflexivity.
    + exists (log_for 102 0 hashA). split; [left|].
      right. vm_compute. discriminate.
Defined.

(** C7 as stated fails for both enrichments.  In [receipts] the second
    response reports block 500, far above [start + limit], yet the call
    returns "block not found", because the first response reports block
    102, which the bound lets in and the blockmap does not hold.  In
    [logs] a log for block 500 goes unreported when the header half of
    the batch came back without a header. *)
Lemma range_checks_counterexample :
  (receipt_out 100 2 500 /\
   mkBlockmap two_blocks = {[ 100 := 0%nat; 101 := 1%nat ]} /\
   (receipts "u" (mkBlockmap two_blocks) 100 2
      (DoOk [mkReceiptResp noError [receipt_for 102 0 hashA];
             mkReceiptResp noError [receipt_for 500 0 hashA]]) two_blocks).1.2
     = Some ErrBlockNotFound) /\
  (log_out 100 2 500 /\
   (logs "u" noFilter (mkBlockmap two_blocks) 100 2
      (DoOk (mkHeaderResp noError None,
             mkLogResp noError [log_for 500 0 hashA])) [] two_blocks).1.2
     = Some (ErrMissingLogs 101)).
Proof.
  split; (split; [right; by vm_compute|]); [split|]; by vm_compute.
Qed.

(** C10.  When the header half of the batch of [logs] carries a JSON-RPC
    error, the error handed to the caller wraps the error field of the
    [eth_getLogs] half; it is the header's error only if the two are
    equal. *)
Theorem logs_header_error_wraps_logs_error url filter bm start limit
    hresp lresp order bs :
  Exists (hrError hresp) = true ->
  logs url filter bm start limit (DoOk (hresp, lresp)) order bs =
    (bs, Some (ErrRPC "eth_getLogs/eth_getBlockByNumber" (lgError lresp)),
     [EvDo url (logs_requests filter start limit)]) /\
  (lgError lresp ≠ hrError hresp ->
   (logs url filter bm start limit (DoOk (hresp, lresp)) order bs).1.2 ≠
     Some (ErrRPC "eth_getLogs/eth_getBlockByNumber" (hrError hresp))).
Proof.
  intros He. unfold logs. rewrite He. split; [done|].
  cbn [fst snd]. intros Hne [= H]. done.
Qed.

Lemma logs_header_error_wraps_logs_error_witness :
  Exists (mkError (-32000) "header not found") = true /\
  (logs "u" noFilter (mkBlockmap two_blocks) 100 2
     (DoOk (mkHeaderResp (mkError (-32000) "header not found") None,
            mkLogResp noError [])) [] two_blocks).1.2 =
    Some (ErrRPC "eth_getLogs/eth_getBlockByNumber" noError).
Proof.
  split; [reflexivity|].
  destruct (logs_header_error_wraps_logs_error "u" noFilter
              (mkBlockmap two_blocks) 100 2
              (mkHeaderResp (mkError (-32000) "header not found") None)
              (mkLogResp noError []) [] two_blocks) as [H _].
  - reflexivity.
  - rewrite H. reflexivity.
Defined.

(** *** Attribution of receipts *)

Lemma findTx_Some idx txs j :
  eth.findTx idx txs = Some j ->
  exists t, txs !! j = Some t /\ eth.Idx t = idx.
Proof.
  revert j. induction txs as [|t txs IH]; intros j; [done|]. simpl.
  destruct (Z.eqb_spec (eth.Idx t) idx) as [He|He].
  - intros [= <-]. by exists t.
  - destruct (eth.findTx idx txs) as [j'|]; [|done].
    intros [= <-]. by apply IH.
Qed.

Lemma findTx_app_Some idx txs l j :
  eth.findTx idx txs = Some j -> eth.findTx idx (txs ++ l) = Some j.
Proof.
  revert j. induction txs as [|t txs IH]; intros j; [done|]. simpl.
  destruct (eth.Idx t =? idx); [done|].
  destruct (eth.findTx idx txs) as [j'|]; [|done].
  intros [= <-]. by rewrite (IH j').
Qed.

Lemma findTx_app_None idx txs t :
  eth.findTx idx txs = None ->
  eth.findTx idx (txs ++ [t]) =
    if eth.Idx t =? idx then Some (length txs) else None.
Proof.
  induction txs as [|x txs IH]; simpl.
  - intros _. by destruct (eth.Idx t =? idx).
  - destruct (eth.Idx x =? idx); [done|].
    destruct (eth.findTx idx txs); [done|]. intros _. rewrite IH by done.
    by destruct (eth.Idx t =? idx).
Qed.

Lemma findTx_alter (f : eth.Tx -> eth.Tx) idx j txs :
  (forall t, eth.Idx (f t) = eth.Idx t) ->
  eth.findTx idx (alter f j txs) = eth.findTx idx txs.
Proof.
  intros Hf. revert j. induction txs as [|t txs IH]; intros [|j]; try done.
  - cbn [alter list_alter eth.findTx]. by rewrite Hf.
  - cbn [alter list_alter eth.findTx]. specialize (IH j).
    cbn [alter] in IH. by rewrite IH.
Qed.

Lemma fill_tx_Idx r t : eth.Idx (fill_tx r t) = eth.Idx t.
Proof. done. Qed.

Lemma fill_tx_carries r t : eth.Idx t = rTxIdx r -> carries r (fill_tx r t).
Proof.
  intros Hi. unfold carries, fill_tx, eth.Write. simpl.
  rewrite copy_same_length by (by rewrite length_replicate).
  by repeat split.
Qed.

Lemma write_receipt_holds b r : holds (write_receipt b r) r.
Proof.
  unfold holds, write_receipt, eth.updTx, eth.TxAt.
  destruct (eth.findTx (rTxIdx r) (eth.Txs b)) as [j|] eqn:Hf; simpl.
  - destruct (findTx_Some _ _ _ Hf) as (t & Ht & Hi).
    exists j, (fill_tx r t). rewrite findTx_alter by apply fill_tx_Idx.
    split; [done|]. split; [|by apply fill_tx_carries].
    by rewrite list_lookup_alter_eq, Ht.
  - exists (length (eth.Txs b)), (fill_tx r (eth.emptyTx (rTxIdx r))).
    rewrite findTx_alter by apply fill_tx_Idx.
    rewrite findTx_app_None by done. simpl. rewrite Z.eqb_refl.
    split; [done|]. split; [|by apply fill_tx_carries].
    rewrite list_lookup_alter_eq, lookup_app_r by lia.
    by rewrite Nat.sub_diag.
Qed.

Lemma write_receipt_keeps b r r' :
  rTxIdx r ≠ rTxIdx r' -> holds b r' -> holds (write_receipt b r) r'.
Proof.
  intros Hne (j & tx & Hf & Ht & Hc).
  unfold holds, write_receipt, eth.updTx, eth.TxAt.
  destruct (eth.findTx (rTxIdx r) (eth.Txs b)) as [i|] eqn:Hi; simpl;
    exists j, tx; rewrite findTx_alter by apply fill_tx_Idx.
  - split; [done|]. split; [|done].
    rewrite list_lookup_alter_ne; [done|]. intros ->.
    destruct (findTx_Some _ _ _ Hi) as (t & Ht' & Hidx).
    rewrite Ht in Ht'. injection Ht' as <-. destruct Hc as [Hc _]. congruence.
  - split; [by apply findTx_app_Some|]. split; [|done].
    pose proof (lookup_lt_Some _ _ _ Ht) as Hlt.
    rewrite list_lookup_alter_ne by lia. by rewrite lookup_app_l.
Qed.

Lemma write_receipts_keep rs : forall b r',
  (forall r, r ∈ rs -> rTxIdx r ≠ rTxIdx r') ->
  holds b r' -> holds (foldl write_receipt b rs) r'.
Proof.
  induction rs as [|x rs IH]; intros b r' Hne Hh; [done|]. simpl.
  apply IH.
  - intros r Hr. apply Hne. by right.
  - apply write_receipt_keeps; [|done]. apply Hne. by left.
Qed.

Lemma write_receipts_hold rs : forall b r,
  NoDup (rTxIdx <$> rs) -> r ∈ rs -> holds (foldl write_receipt b rs) r.
Proof.
  induction rs as [|x rs IH]; intros b r Hnd Hin; [by apply elem_of_nil in Hin|].
  rewrite fmap_cons in Hnd. apply NoDup_cons in Hnd as [Hx Hnd]. simpl.
  apply elem_of_cons in Hin as [->|Hin].
  - apply write_receipts_keep; [|apply write_receipt_holds].
    intros r Hr Heq. apply Hx. rewrite <- Heq. by apply list_elem_of_fmap_2.
  - by apply IH.
Qed.

(** Whatever the indices, the slot of a receipt's index ends up holding
    a receipt of the response with that index (the last one). *)
Lemma write_receipts_slot rs : forall b r,
  r ∈ rs ->
  exists r', r' ∈ rs /\ rTxIdx r' = rTxIdx r /\
             holds (foldl write_receipt b rs) r'.
Proof.
  induction rs as [|x rs IH]; intros b r Hin; [by apply elem_of_nil in Hin|].
  cbn [foldl].
  assert (Hlater : forall y, y ∈ rs ->
            exists r', r' ∈ x :: rs /\ rTxIdx r' = rTxIdx y /\
                       holds (foldl write_receipt (write_receipt b x) rs) r').
  { intros y Hy. destruct (IH (write_receipt b x) y Hy) as (r' & Hr' & He & Hh).
    exists r'. split; [by right | done]. }
  apply elem_of_cons in Hin as [->|Hin]; [|by apply Hlater].
  destruct (decide (List.Exists (λ y, rTxIdx y = rTxIdx x) rs)) as [Hex|Hno].
  - apply Exists_exists in Hex as (y & Hy & Heq).
    destruct (Hlater y Hy) as (r' & Hr' & He & Hh).
    exists r'. split; [done|]. split; [congruence | done].
  - exists x. split; [by left|]. split; [done|].
    apply write_receipts_keep; [|apply write_receipt_holds].
    intros y Hy Heq. apply Hno, Exists_exists. by exists y.
Qed.

Lemma foldl_write_receipt_header rs : forall b,
  eth.header (foldl write_receipt b rs) = eth.header b.
Proof.
  induction rs as [|x rs IH]; intros b; [done|]. simpl.
  rewrite IH. unfold write_receipt, eth.updTx, eth.TxAt.
  by destruct (eth.findTx _ _).
Qed.

Lemma write_receipt_retag g b r : write_receipt b (retag g r) = write_receipt b r.
Proof. done. Qed.

Lemma foldl_write_receipt_retag g rs : forall b,
  foldl write_receipt b (retag g <$> rs) = foldl write_receipt b rs.
Proof.
  induction rs as [|r rs IH]; intros b; [done|].
  rewrite fmap_cons. cbn [foldl]. by rewrite write_receipt_retag, IH.
Qed.

Lemma write_receipts_retag g r0 more b :
  write_receipts r0 (r0 :: (retag g <$> more)) b
  = write_receipts r0 (r0 :: more) b.
Proof. unfold write_receipts. cbn [foldl]. apply foldl_write_receipt_retag. Qed.

Lemma receipts_loop_retag g bm start limit resps : forall bs,
  receipts_loop bm start limit (retag_tail g <$> resps) bs
  = receipts_loop bm start limit resps bs.
Proof.
  induction resps as [|[e [|r0 more]] resps IH]; intros bs; [done|..];
    rewrite fmap_cons.
  { change (retag_tail g (mkReceiptResp e [])) with (mkReceiptResp e []).
    cbn [receipts_loop rrResult]. apply IH. }
  change (retag_tail g (mkReceiptResp e (r0 :: more)))
    with (mkReceiptResp e (r0 :: (retag g <$> more))).
  cbn [receipts_loop rrResult].
  destruct (_ || _); [done|]. destruct (bm !! rBlockNum r0) as [i|]; [|done].
  rewrite IH. f_equal.
  apply list_alter_ext; [|done]. intros b _. apply write_receipts_retag.
Qed.

Lemma first_error_retag g resps :
  first_error (rrError <$> (retag_tail g <$> resps))
  = first_error (rrError <$> resps).
Proof. by rewrite <- list_fmap_compose. Qed.

(** C9.  A non-empty response of the receipts batch is attributed by the
    block number of its first receipt alone: that number decides the
    bound check and the blockmap lookup, only the block found for it is
    changed, the block numbers of the later receipts have no effect on
    the result of the call, and every receipt of the response is
    written to that block's transaction slot of the receipt's own
    index: in the end the slot holds the last receipt of the response
    with that index, which is the receipt itself when the indices
    within the response are distinct. *)
Theorem receipts_attributed_by_first :
  (forall g url bm start limit resps bs,
     receipts url bm start limit (DoOk (retag_tail g <$> resps)) bs
     = receipts url bm start limit (DoOk resps) bs) /\
  (forall bm start limit e r0 more rest bs,
     receipts_loop bm start limit (mkReceiptResp e (r0 :: more) :: rest) bs =
       if decide (receipt_out start limit (rBlockNum r0)) then
         (bs, Some (ErrReceiptRange (rBlockNum r0) start limit))
       else
         match bm !! rBlockNum r0 with
         | None => (bs, Some ErrBlockNotFound)
         | Some i =>
             receipts_loop bm start limit rest
               (alter (write_receipts r0 (r0 :: more)) i bs)
         end) /\
  (forall r0 more (i : nat) (bs : list eth.Block) (j : nat),
     i ≠ j -> alter (write_receipts r0 (r0 :: more)) i bs !! j = bs !! j) /\
  (forall r0 more b r,
     r ∈ r0 :: more ->
     (exists r', r' ∈ r0 :: more /\ rTxIdx r' = rTxIdx r /\
                 holds (write_receipts r0 (r0 :: more) b) r') /\
     (NoDup (rTxIdx <$> r0 :: more) ->
      holds (write_receipts r0 (r0 :: more) b) r) /\
     eth.BlockHash (write_receipts r0 (r0 :: more) b) = rBlockHash r0 /\
     eth.Num (write_receipts r0 (r0 :: more) b) = eth.Num b).
Proof.
  split; [|split; [|split]].
  - intros g url bm start limit resps bs. unfold receipts.
    by rewrite first_error_retag, receipts_loop_retag.
  - intros bm start limit e r0 more rest bs. cbn [receipts_loop rrResult].
    destruct (_ || _) eqn:Hout.
    + apply receipt_out_test in Hout. by rewrite decide_True.
    + rewrite decide_False; [done|]. rewrite <- receipt_out_test.
      by rewrite Hout.
  - intros r0 more i bs j Hne. by apply list_lookup_alter_ne.
  - intros r0 more b r Hin. unfold write_receipts.
    split; [|split; [|split]].
    + by apply write_receipts_slot.
    + intros Hnd. by apply write_receipts_hold.
    + unfold eth.BlockHash. by rewrite foldl_write_receipt_header.
    + unfold eth.Num. by rewrite foldl_write_receipt_header.
Qed.

(** Both receipts of [mixed] land in block 100, the second one in the
    slot of index 1; block 101 is left as it was. *)
Example mixed_lands_in_first_block :
  let bs' := (receipts "u" (mkBlockmap two_blocks) 100 2 (DoOk [mixed])
                two_blocks).1.1 in
  fmap eth.Idx <$> (eth.Txs <$> bs' !! 0%nat) = Some [0; 1] /\
  eth.BlockHash <$> bs' !! 0%nat = Some hashA /\
  bs' !! 1%nat = two_blocks !! 1%nat.
Proof. by vm_compute. Qed.

Lemma receipts_attributed_by_first_witness :
  NoDup (rTxIdx <$> rrResult mixed) /\
  holds (write_receipts (receipt_for 100 0 hashA) (rrResult mixed)
           (eth.mkBlock (eth.mkHeader [] 100 []) []))
        (receipt_for 101 1 hashB).
Proof.
  assert (Hnd : NoDup (rTxIdx <$> rrResult mixed)).
  { apply (bool_decide_unpack _). vm_compute. exact I. }
  split; [exact Hnd|].
  destruct receipts_attributed_by_first as (_ & _ & _ & H).
  destruct (H (receipt_for 100 0 hashA) [receipt_for 101 1 hashB]
              (eth.mkBlock (eth.mkHeader [] 100 []) [])
              (receipt_for 101 1 hashB)) as (_ & Hh & _).
  - right. left.
  - exact (Hh Hnd).
Defined.

(** *** Validated segments through the cache and [Get] *)

Section validated_tables.
Import cache.

Lemma table_ok_inserted c start limit :
  table_ok (segments c) -> table_ok (inserted c start limit).
Proof.
  intros Hok k seg Hk Hd.
  apply inserted_lookup in Hk as [[Hk _]|[-> ->]]; [by apply (Hok k)|done].
Qed.

Lemma table_ok_pruneSegments order segs :
  table_ok segs -> table_ok (pruneSegments order segs).
Proof.
  intros Hok k seg Hk Hd. apply pruneSegments_lookup in Hk. by apply (Hok k).
Qed.

Lemma table_ok_store k seg segs :
  table_ok segs -> (done seg = true -> segment_ok k.1 k.2 (d seg)) ->
  table_ok (store k seg segs).
Proof.
  intros Hok Hseg k' seg' Hk Hd. rewrite store_lookup in Hk.
  destruct (decide (k = k')) as [<-|Hne]; [|by apply (Hok k')].
  destruct (segs !! k); [|done]. injection Hk as <-. by apply Hseg.
Qed.

(** [get] keeps the table validated and returns a validated segment,
    for a fetcher whose successes are validated. *)
Lemma get_table_ok c nocache url start limit f order :
  table_ok (segments c) ->
  (f_err (f url start limit) = None ->
   segment_ok start limit (f_blocks (f url start limit))) ->
  table_ok (segments (get c nocache url start limit f order).1) /\
  (f_err (get c nocache url start limit f order).2 = None ->
   segment_ok start limit (f_blocks (get c nocache url start limit f order).2)).
Proof.
  intros Hok Hf. unfold get. destruct nocache; [done|].
  pose proof (table_ok_inserted c start limit Hok) as Hok2.
  pose proof (table_ok_pruneSegments order _ Hok2) as Hok3.
  destruct (inserted_lookup_key c start limit) as [seg Hseg].
  rewrite Hseg. cbv [default from_option id].
  assert (Hd : done seg = true -> segment_ok start limit (d seg)).
  { intros Hd. by apply (Hok2 (start, limit) seg). }
  change (done (bump seg)) with (done seg).
  destruct (done seg) eqn:Hdone.
  - cbn [fst snd f_err f_blocks segments]. split; [|by intros; apply Hd].
    apply table_ok_store; [done|]. intros _. by apply Hd.
  - destruct (f_err (f url start limit)) as [e|] eqn:He;
      cbn [fst snd f_err f_blocks segments].
    + split; [|done]. apply table_ok_store; [done|]. simpl. by rewrite Hdone.
    + split; [|by intros; apply Hf].
      apply table_ok_store; [done|]. intros _. by apply Hf.
Qed.

Lemma table_ok_share k bs c :
  table_ok (segments c) -> segment_ok k.1 k.2 bs ->
  table_ok (segments (share k bs c)).
Proof.
  intros Hok Hbs k' seg' Hk Hd. unfold share in Hk. cbn [segments] in Hk.
  destruct (decide (k = k')) as [<-|Hne].
  - rewrite lookup_alter_eq in Hk. destruct (segments c !! k); [|done].
    by injection Hk as <-.
  - rewrite lookup_alter_ne in Hk by done. by apply (Hok k').
Qed.

End validated_tables.

Lemma enrich_nothing url filter start limit e bs :
  UseReceipts filter = false -> UseLogs filter = false ->
  UseTraces filter = false ->
  enrich url filter start limit e bs = (bs, None, []).
Proof. intros H1 H2 H3. unfold enrich. by rewrite H1, H2, H3. Qed.

(** Without enrichment, [Get] hands back validated segments and leaves
    both tables validated. *)
Lemma Get_plain_ok c url filter start limit e :
  UseReceipts filter = false -> UseLogs filter = false ->
  UseTraces filter = false ->
  UseBlocks filter = true \/ UseHeaders filter = true ->
  table_ok (cache.segments (bcache c)) ->
  table_ok (cache.segments (hcache c)) ->
  ((Get c url filter start limit e).2.1.2 = None ->
   segment_ok start limit (Get c url filter start limit e).2.1.1) /\
  table_ok (cache.segments (bcache (Get c url filter start limit e).1)) /\
  table_ok (cache.segments (hcache (Get c url filter start limit e).1)).
Proof.
  intros H1 H2 H3 Hprim Hb Hh. unfold Get.
  unfold finish.
  destruct (UseBlocks filter).
  - pose proof (get_table_ok (bcache c) (nocache c) url start limit
                  (blocks (e_blocks e)) (e_sorted e) Hb
                  (blocks_ok _ _ _ _)) as [Ht Hr].
    destruct (cache.get (bcache c) _ _ _ _ _ _) as [bc r]. cbn [fst snd] in *.
    destruct (f_err r) as [err|] eqn:He; cbn [fst snd].
    + split; [done|]. by split.
    + specialize (Hr eq_refl). rewrite !enrich_nothing by done.
      cbn [fst snd]. split; [done|]. split; [|done].
      cbn [bcache set_bcache]. destruct (nocache c); [done|].
      by apply table_ok_share.
  - destruct Hprim as [?|Hu]; [done|]. rewrite Hu.
    pose proof (get_table_ok (hcache c) (nocache c) url start limit
                  (headers (e_headers e)) (e_sorted e) Hh
                  (headers_ok _ _ _ _)) as [Ht Hr].
    destruct (cache.get (hcache c) _ _ _ _ _ _) as [hc r]. cbn [fst snd] in *.
    destruct (f_err r) as [err|] eqn:He; cbn [fst snd].
    + split; [done|]. by split.
    + specialize (Hr eq_refl). rewrite !enrich_nothing by done.
      cbn [fst snd]. split; [done|]. split; [done|].
      cbn [hcache set_hcache]. destruct (nocache c); [done|].
      by apply table_ok_share.
Qed.

Lemma blocks_corrupt resps url start limit :
  first_error (brError <$> resps) = None ->
  let bs := slots eth.zeroBlock brBlock limit resps in
  eth.Num <$> bs !! 0%nat = Some start ->
  eth.Num <$> bs !! (length bs - 1)%nat = Some (wrap64 (start + limit - 1)) ->
  ¬ linked bs ->
  f_err (blocks (DoOk resps) url start limit) = Some (ErrCorrupt "blocks").
Proof.
  intros He bs H1 H2 Hl. unfold blocks. rewrite He. cbn [f_err].
  by apply validate_corrupt.
Qed.

Lemma headers_corrupt resps url start limit :
  first_error (hrError <$> resps) = None ->
  let bs := slots eth.zeroBlock (λ r, (λ h, eth.mkBlock h []) <$> hrHeader r)
              limit resps in
  eth.Num <$> bs !! 0%nat = Some start ->
  eth.Num <$> bs !! (length bs - 1)%nat = Some (wrap64 (start + limit - 1)) ->
  ¬ linked bs ->
  f_err (headers (DoOk resps) url start limit) = Some (ErrCorrupt "headers").
Proof.
  intros He bs H1 H2 Hl. unfold headers. rewrite He. cbn [f_err].
  by apply validate_corrupt.
Qed.

Lemma Get_error_no_blocks c url filter start limit e :
  (Get c url filter start limit e).2.1.2 ≠ None ->
  (Get c url filter start limit e).2.1.1 = [].
Proof.
  unfold Get, finish.
  destruct (UseBlocks filter); [|destruct (UseHeaders filter)].
  - destruct (cache.get (bcache c) _ _ _ _ _ _) as [bc r].
    destruct (f_err r); [done|].
    by destruct (enrich _ _ _ _ _ _) as [[bs [err|]] evs].
  - destruct (cache.get (hcache c) _ _ _ _ _ _) as [hc r].
    destruct (f_err r); [done|].
    by destruct (enrich _ _ _ _ _ _) as [[bs [err|]] evs].
  - by destruct (enrich _ _ _ _ _ _) as [[bs [err|]] evs].
Qed.

(** C1 (as amended).  A successful call of [blocks] or [headers] over
    [start, start+limit) returns [limit >= 1] blocks, the first numbered
    [start], the last numbered [start + limit - 1] (a 64-bit sum), each
    naming the hash of its predecessor as parent; a slice with a broken
    link is never returned without an error.  When the batch decoded
    without RPC error, the first and the last number are right and some
    link is broken, the error is the corrupt-segment error.  [Get]
    returns no blocks with an error, and when the filter asks for no
    enrichment and both tables hold validated segments, the segment
    [Get] returns through [blocks] or [headers] is validated and the
    tables stay validated. *)
Theorem fetchers_return_validated_segments :
  (forall resp url start limit,
     f_err (blocks resp url start limit) = None ->
     segment_ok start limit (f_blocks (blocks resp url start limit))) /\
  (forall resp url start limit,
     f_err (headers resp url start limit) = None ->
     segment_ok start limit (f_blocks (headers resp url start limit))) /\
  (forall resps url start limit,
     first_error (brError <$> resps) = None ->
     let bs := slots eth.zeroBlock brBlock limit resps in
     eth.Num <$> bs !! 0%nat = Some start ->
     eth.Num <$> bs !! (length bs - 1)%nat = Some (wrap64 (start + limit - 1)) ->
     ¬ linked bs ->
     f_err (blocks (DoOk resps) url start limit) = Some (ErrCorrupt "blocks")) /\
  (forall resps url start limit,
     first_error (hrError <$> resps) = None ->
     let bs := slots eth.zeroBlock (λ r, (λ h, eth.mkBlock h []) <$> hrHeader r)
                 limit resps in
     eth.Num <$> bs !! 0%nat = Some start ->
     eth.Num <$> bs !! (length bs - 1)%nat = Some (wrap64 (start + limit - 1)) ->
     ¬ linked bs ->
     f_err (headers (DoOk resps) url start limit)
     = Some (ErrCorrupt "headers")) /\
  (forall c url filter start limit e,
     (Get c url filter start limit e).2.1.2 ≠ None ->
     (Get c url filter start limit e).2.1.1 = []) /\
  (forall c url filter start limit e,
     UseReceipts filter = false -> UseLogs filter = false ->
     UseTraces filter = false ->
     UseBlocks filter = true \/ UseHeaders filter = true ->
     table_ok (cache.segments (bcache c)) ->
     table_ok (cache.segments (hcache c)) ->
     ((Get c url filter start limit e).2.1.2 = None ->
      segment_ok start limit (Get c url filter start limit e).2.1.1) /\
     table_ok (cache.segments (bcache (Get c url filter start limit e).1)) /\
     table_ok (cache.segments (hcache (Get c url filter start limit e).1))).
Proof.
  split; [exact blocks_ok|]. split; [exact headers_ok|].
  split; [exact blocks_corrupt|]. split; [exact headers_corrupt|].
  split; [exact Get_error_no_blocks | exact Get_plain_ok].
Qed.

(** Three linked blocks come back, and the same [Get] again is answered
    from the segment without a request. *)
Example Get_linked_then_cached :
  let first := Get three "u" onlyBlocks 100 3 (world chain3 []) in
  let again := Get first.1 "u" onlyBlocks 100 3 (world broken3 []) in
  first.2.1 = ([blk 100 hashA hashC; blk 101 hashB hashA; blk 102 hashC hashB],
               None) /\
  again.2 = (first.2.1.1, None, []).
Proof. by vm_compute. Qed.

(** A broken link between the second and the third block. *)
Example Get_broken_link :
  (Get three "u" onlyBlocks 100 3 (world broken3 [])).2.1 =
    ([], Some (ErrWrap "getting blocks"
                 (ErrWrap "cache get" (ErrCorrupt "blocks")))).
Proof. by vm_compute. Qed.

Lemma table_ok_empty : table_ok ∅.
Proof. intros k seg Hk. by rewrite lookup_empty in Hk. Qed.

Lemma broken3_not_linked :
  ¬ linked (slots eth.zeroBlock brBlock 3 broken3).
Proof.
  intros H.
  specialize (H 1%nat (blk 101 hashB hashA) (blk 102 hashC hashA)
                eq_refl eq_refl).
  vm_compute in H. discriminate H.
Qed.

Lemma fetchers_return_validated_segments_witness :
  segment_ok 100 3 (f_blocks (blocks (DoOk chain3) "u" 100 3)) /\
  f_err (blocks (DoOk broken3) "u" 100 3) = Some (ErrCorrupt "blocks") /\
  ((Get three "u" onlyBlocks 100 3 (world chain3 [])).2.1.2 = None ->
   segment_ok 100 3 (Get three "u" onlyBlocks 100 3 (world chain3 [])).2.1.1).
Proof.
  destruct fetchers_return_validated_segments
    as (H1 & _ & H3 & _ & _ & H6).
  split; [apply H1; reflexivity|]. split.
  - apply H3.
    + reflexivity.
    + reflexivity.
    + reflexivity.
    + exact broken3_not_linked.
  - apply (H6 three "u" onlyBlocks 100 3 (world chain3 [])).
    + reflexivity.
    + reflexivity.
    + reflexivity.
    + left. reflexivity.
    + exact table_ok_empty.
    + exact table_ok_empty.
Defined.

(** C1 as stated fails in two places.  A slice with a broken link and a
    wrong first number is answered with the error for the first number,
    not with the corrupt-segment error.  And [Get] with receipts returns
    a segment through [blocks] whose link is broken: the batch of blocks
    was linked, and the receipts of block 100 report another hash for
    it, which the enrichment writes into the header; the slice is the
    one the cache holds, so a later [Get] without enrichment is served
    the same broken segment. *)
Lemma validated_segment_counterexample :
  (¬ linked (slots eth.zeroBlock brBlock 2 misnumbered2) /\
   f_err (blocks (DoOk misnumbered2) "u" 100 2)
   = Some (ErrFirst "blocks" 100 7)) /\
  (f_err (blocks (DoOk chain2) "u" 100 2) = None /\
   (Get three "u" blocksAndReceipts 100 2 (world chain2 rehashed)).2.1.2
   = None /\
   ¬ linked (Get three "u" blocksAndReceipts 100 2
               (world chain2 rehashed)).2.1.1 /\
   let enriched :=
     Get three "u" blocksAndReceipts 100 2 (world chain2 rehashed) in
   let later := Get enriched.1 "u" onlyBlocks 100 2 (world chain2 []) in
   later.2.1.2 = None /\ later.2.2 = [] /\ ¬ linked later.2.1.1).
Proof.
  split; [split|split; [|split; [|split; [|split; [|split]]]]].
  - intros H.
    specialize (H 0%nat (blk 7 hashA hashC) (blk 101 hashB hashC)
                  eq_refl eq_refl).
    vm_compute in H. discriminate H.
  - by vm_compute.
  - by vm_compute.
  - by vm_compute.
  - intros H.
    specialize (H 0%nat _ _ eq_refl eq_refl).
    vm_compute in H. discriminate H.
  - by vm_compute.
  - by vm_compute.
  - intros H.
    specialize (H 0%nat _ _ eq_refl eq_refl).
    vm_compute in H. discriminate H.
Qed.

(** *** Endpoint flags *)

Lemma prefix_spec s1 s2 :
  String.prefix s1 s2 = true <-> exists post, s2 = (s1 +:+ post)%string.
Proof.
  revert s2. induction s1 as [|a s1 IH]; intros s2.
  - split; [intros _; by exists s2 | by destruct s2].
  - destruct s2 as [|b s2]; simpl; [split; [done | by intros [? ?]]|].
    destruct (Ascii.ascii_dec a b) as [->|Hne].
    + rewrite IH. split; intros [post H]; exists post.
      * simpl. by rewrite H.
      * simpl in H. by injection H.
    + split; [done|]. intros [post [= ? ?]]. done.
Qed.

(** [Contains] finds exactly the strings with [substr] somewhere inside. *)
Lemma Contains_spec s substr :
  Contains s substr = true <->
  exists pre post, s = (pre +:+ substr +:+ post)%string.
Proof.
  induction s as [|a s IH]; cbn [Contains]; rewrite orb_true_iff, prefix_spec.
  - split.
    + intros [[post H]|?]; [|done]. by exists ""%string, post.
    + intros (pre & post & H). left. destruct pre; [by exists post|done].
  - rewrite IH. split.
    + intros [[post H]|(pre & post & H)].
      * by exists ""%string, post.
      * exists (String a pre), post. simpl. by rewrite H.
    + intros (pre & post & H). destruct pre as [|b pre].
      * left. by exists post.
      * right. injection H as -> H. by exists pre, post.
Qed.

Lemma New_loop_flags parse l : forall acc r,
  New_loop parse l acc = Some r ->
  r.1.2 = match l with [] => acc.1.2 | _ => Contains (List.last l "") "debug" end /\
  r.2 = match l with [] => acc.2 | _ => Contains (List.last l "") "nocache" end.
Proof.
  induction l as [|p l IH]; intros [[us dbg] nc] r.
  - by intros [= <-].
  - cbn [New_loop]. destruct (MustURL parse p) as [u|]; [|done].
    intros H. apply IH in H. destruct l as [|q l]; [done|].
    exact H.
Qed.

(** What [New] does: both flags are those of the last string. *)
Lemma New_flags parse l c :
  New parse l = Some c ->
  d c = Contains (List.last l "") "debug" /\
  nocache c = Contains (List.last l "") "nocache".
Proof.
  unfold New. destruct (New_loop parse l ([], false, false)) as [[[us dbg] nc]|] eqn:H;
    [|done].
  intros [= <-]. apply New_loop_flags in H. cbn [d nocache fst snd] in *.
  destruct l; [|done]. by destruct H as [-> ->].
Qed.

Example Contains_flags :
  Contains flagged "nocache" = true /\ Contains flagged "debug" = true /\
  Contains plain "nocache" = false /\ Contains plain "debug" = false.
Proof. by vm_compute. Qed.

(** With the flagged endpoint last both flags are set for the whole
    client: a [Get] through the plain endpoint bypasses the cache too. *)
Example New_flagged_last :
  exists c,
    New Some [plain; flagged] = Some c /\ nocache c = true /\ d c = true /\
    (Get c plain onlyBlocks 100 3 (world chain3 [])).1 = c /\
    (Get c plain onlyBlocks 100 3 (world chain3 [])).2.2 =
      [EvDo plain (number_requests "eth_getBlockByNumber" [PBool true] 100 3)].
Proof. eexists. split; [reflexivity|]. by vm_compute. Qed.

(** C4, at the input where the code departs from it.  The first of two
    endpoint strings contains both "nocache" and "debug", the second
    neither: [New] keeps the tests of the second string only, so both
    flags are off, [Get] stores the segment in the range cache, and the
    same [Get] again is answered from it without a request. *)
Theorem New_keeps_flags_of_last_string_only :
  Contains flagged "nocache" = true /\ Contains flagged "debug" = true /\
  exists c,
    New Some [flagged; plain] = Some c /\
    nocache c = false /\ d c = false /\
    let first := Get c flagged onlyBlocks 100 3 (world chain3 []) in
    is_Some (cache.segments (bcache first.1) !! (100, 3)) /\
    (Get first.1 flagged onlyBlocks 100 3 (world chain3 [])).2 =
      (first.2.1.1, None, []).
Proof.
  split; [by vm_compute|]. split; [by vm_compute|].
  eexists. split; [reflexivity|]. split; [reflexivity|].
  split; [reflexivity|]. split; [|by vm_compute].
  apply (bool_decide_unpack _). by vm_compute.
Qed.

(** *** More on the tip cache *)

Lemma hits_once nh b n :
  hits (NumHash.mk (NumHash.err nh) b (NumHash.maxreads nh)
          (NumHash.nreads nh) (NumHash.Num nh) (NumHash.Hash nh)) n
  <-> hits nh n.
Proof. done. Qed.

(** X1.  For a 64-bit [n], [Latest] hands the request for the latest
    block to the transport exactly when the tip cache does not answer;
    when it answers, the number returned is the cached one, it is at
    least [n], and the hash is the 32-byte copy. *)
Theorem Latest_requests_iff_miss (c : Client) (url : string) (n : Z)
    (resp : do_result headerResp) :
  0 <= n ->
  (EvDo url [latest_request] ∈ (Latest c url n resp).2 <->
   ¬ hits (lcache c) n) /\
  (hits (lcache c) n ->
   (Latest c url n resp).1.2 =
     Returned (NumHash.Num (lcache c),
               copy (replicate 32 x00) (NumHash.Hash (lcache c)), None) /\
   n <= NumHash.Num (lcache c)).
Proof.
  intros Hn. unfold Latest.
  set (lc1 := NumHash.mk _ true _ _ _ _).
  set (launch := if NumHash.once (lcache c) then [] else _).
  assert (Hl : EvDo url [latest_request] ∉ launch).
  { subst launch. intros Hin.
    destruct (NumHash.once (lcache c)); [by apply elem_of_nil in Hin|].
    destruct (decide _);
      (apply elem_of_cons in Hin as [Hin|Hin];
       [discriminate | by apply elem_of_nil in Hin]). }
  destruct (decide (hits (lcache c) n)) as [Hh|Hh].
  - pose proof (proj2 (hits_once (lcache c) true n) Hh) as Hh1.
    fold lc1 in Hh1. rewrite (get_hit lc1 n Hh1). cbn [fst snd].
    split; [split; [done | by intros []]|]. intros _.
    split; [done | by destruct Hh as (_ & _ & ? & _)].
  - assert (Hm : ¬ hits lc1 n) by (intros H; apply Hh; exact H).
    pose proof (get_miss lc1 n Hn Hm) as Hg.
    destruct (NumHash.get lc1 n) as [lc2 [[num h] ok]]. cbn [snd] in Hg.
    injection Hg as -> -> ->. split; [|done]. split; [done|]. intros _.
    assert (Hin : EvDo url [latest_request] ∈ launch ++ [EvDo url [latest_request]]).
    { apply elem_of_app. right. left. }
    destruct resp as [e|hresp]; cbn [snd]; [done|].
    destruct (Exists (hrError hresp)); cbn [snd]; [done|].
    by destruct (hrHeader hresp).
Qed.

Lemma Latest_requests_iff_miss_witness :
  0 <= 50 /\
  (EvDo "http://a" [latest_request]
     ∈ (Latest warm_client "http://a" 50 (DoErr (ErrTransport "down"))).2 <->
   ¬ hits (lcache warm_client) 50).
Proof.
  split; [lia|].
  apply (Latest_requests_iff_miss warm_client "http://a" 50
           (DoErr (ErrTransport "down"))).
  lia.
Defined.

(** X2.  When an error of the refresher is pending, the [Latest] that
    meets it goes to the endpoint itself, launches nothing if the
    refresher had been launched before, and leaves the error cleared;
    the refresher is launched again by the [Latest] after that one. *)
Theorem Latest_relaunches_one_call_later (c : Client) (url : string) (n : Z)
    (resp : do_result headerResp) (url' : string) (n' : Z)
    (resp' : do_result headerResp) (e : goerror) :
  NumHash.err (lcache c) = Some e ->
  EvDo url [latest_request] ∈ (Latest c url n resp).2 /\
  (NumHash.once (lcache c) = true ->
   (Latest c url n resp).2 = [EvDo url [latest_request]]) /\
  NumHash.err (lcache (Latest c url n resp).1.1) = None /\
  (if decide (wsurl c = "") then EvLaunchPoll url' else EvLaunchWS)
    ∈ (Latest (Latest c url n resp).1.1 url' n' resp').2.
Proof.
  intros He.
  assert (Hc : exists lc,
    NumHash.err lc = None /\ NumHash.once lc = false /\
    (Latest c url n resp).1.1 = set_lcache c lc /\
    (Latest c url n resp).2 =
      (if NumHash.once (lcache c) then []
       else if decide (wsurl c = "") then [EvLaunchPoll url] else [EvLaunchWS])
      ++ [EvDo url [latest_request]]).
  { unfold Latest.
    set (lc1 := NumHash.mk _ true _ _ _ _).
    rewrite (get_pending_error lc1 n e He).
    set (lc2 := NumHash.mk None false _ _ _ _).
    destruct resp as [e0|hresp]; [by exists lc2|].
    destruct (Exists (hrError hresp)); [by exists lc2|].
    destruct (hrHeader hresp) as [hd|]; [|by exists lc2].
    exists (NumHash.update lc2 (eth.Number hd) (eth.Hash hd)).
    unfold NumHash.update. by destruct (_ <=? _). }
  destruct Hc as (lc & Herr & Honce & -> & ->).
  split; [apply elem_of_app; right; left|].
  split; [by intros ->|]. split; [done|].
  unfold Latest. cbn [lcache set_lcache wsurl]. rewrite Honce.
  set (launch := if decide (wsurl c = "") then [EvLaunchPoll url'] else _).
  assert (Hin : forall rest,
    (if decide (wsurl c = "") then EvLaunchPoll url' else EvLaunchWS)
      ∈ launch ++ rest).
  { intros rest. apply elem_of_app. left. subst launch.
    destruct (decide _); left. }
  destruct (NumHash.get _ n') as [lc2 [[num h] ok]].
  destruct ok; cbn [snd].
  - rewrite <- (app_nil_r launch). apply Hin.
  - destruct resp' as [e0|hresp]; cbn [snd]; [apply Hin|].
    destruct (Exists (hrError hresp)); cbn [snd]; [apply Hin|].
    destruct (hrHeader hresp); cbn [snd]; apply Hin.
Qed.

Lemma Latest_relaunches_one_call_later_witness :
  NumHash.err (lcache (set_lcache warm_client
                         (NumHash.error warm (ErrTransport "ws read"))))
    = Some (ErrTransport "ws read") /\
  EvLaunchPoll "http://b"
    ∈ (Latest
         (Latest (set_lcache warm_client
                    (NumHash.error warm (ErrTransport "ws read")))
            "http://a" 50 (DoErr (ErrTransport "down"))).1.1
         "http://b" 50 (DoErr (ErrTransport "down"))).2.
Proof.
  split; [reflexivity|].
  apply (Latest_relaunches_one_call_later
           (set_lcache warm_client (NumHash.error warm (ErrTransport "ws read")))
           "http://a" 50 (DoErr (ErrTransport "down")) "http://b" 50
           (DoErr (ErrTransport "down")) (ErrTransport "ws read")).
  reflexivity.
Defined.

Lemma updates_app nh us vs : updates nh (us ++ vs) = updates (updates nh us) vs.
Proof. unfold updates. apply foldl_app. Qed.

Lemma updates_cons nh u us :
  updates nh (u :: us) = updates (NumHash.update nh u.1 u.2) us.
Proof. done. Qed.

Lemma update_Num_max nh n h :
  NumHash.Num (NumHash.update nh n h) = Z.max (NumHash.Num nh) n.
Proof.
  unfold NumHash.update. destruct (Z.leb_spec n (NumHash.Num nh)); simpl; lia.
Qed.

Lemma update_keeps nh n h :
  NumHash.err (NumHash.update nh n h) = NumHash.err nh /\
  NumHash.once (NumHash.update nh n h) = NumHash.once nh /\
  NumHash.maxreads (NumHash.update nh n h) = NumHash.maxreads nh.
Proof. unfold NumHash.update. by destruct (_ <=? _). Qed.

Lemma updates_keeps us : forall nh,
  NumHash.err (updates nh us) = NumHash.err nh /\
  NumHash.once (updates nh us) = NumHash.once nh /\
  NumHash.maxreads (updates nh us) = NumHash.maxreads nh.
Proof.
  induction us as [|u us IH]; intros nh; [done|]. rewrite updates_cons.
  destruct (IH (NumHash.update nh u.1 u.2)) as (-> & -> & ->).
  apply update_keeps.
Qed.

(** X3.  After any run of updates the cached number is the largest of
    the number held before and the numbers received; number and hash
    are the pair held before or one of the pairs received, and the
    pair held before is kept, read counter included, unless a larger
    number came. *)
Theorem updates_keep_maximum (nh : NumHash.t) (us : list (Z * eth.Bytes)) :
  NumHash.Num (updates nh us) = foldl Z.max (NumHash.Num nh) us.*1 /\
  ((NumHash.Num (updates nh us), NumHash.Hash (updates nh us))
     ∈ (NumHash.Num nh, NumHash.Hash nh) :: us) /\
  (NumHash.Num (updates nh us) = NumHash.Num nh -> updates nh us = nh) /\
  (NumHash.Num nh < NumHash.Num (updates nh us) ->
   NumHash.nreads (updates nh us) = 0).
Proof.
  revert nh. induction us as [|[n h] us IH]; intros nh.
  - cbn. split; [done|]. split; [left|]. split; [done | lia].
  - rewrite updates_cons, fmap_cons. cbn [foldl fst snd].
    destruct (IH (NumHash.update nh n h)) as (H1 & H2 & H3 & H4).
    pose proof (updates_Num_le us (NumHash.update nh n h)) as Hle.
    destruct (Z.le_gt_cases n (NumHash.Num nh)) as [Hs|Hf].
    + rewrite (update_stale nh n h Hs) in *.
      rewrite Z.max_l by lia. split; [done|]. split; [|done].
      apply elem_of_cons in H2 as [H2|H2]; [rewrite H2; left|].
      right. by right.
    + rewrite (update_fresh nh n h Hf) in *.
      cbn [NumHash.Num NumHash.Hash] in *.
      rewrite Z.max_r by lia. split; [done|]. split.
      * apply elem_of_cons in H2 as [H2|H2]; [rewrite H2; right; left|].
        right. by right.
      * split; [lia|]. intros _.
        destruct (Z.eq_dec (NumHash.Num (updates
                   (NumHash.mk (NumHash.err nh) (NumHash.once nh)
                      (NumHash.maxreads nh) 0 n h) us)) n) as [Heq|Hne].
        -- rewrite H3; [done | lia].
        -- apply H4. lia.
Qed.

Lemma tip_gets_succ j nh n :
  tip_gets (S j) nh n = (NumHash.get (tip_gets j nh n) n).1.
Proof. reflexivity. Qed.

Lemma tip_gets_hits nh n (j : nat) :
  NumHash.err nh = None -> 0 < n <= NumHash.Num nh ->
  NumHash.nreads nh + Z.of_nat j <= NumHash.maxreads nh ->
  tip_gets j nh n =
    NumHash.mk None (NumHash.once nh) (NumHash.maxreads nh)
      (NumHash.nreads nh + Z.of_nat j) (NumHash.Num nh) (NumHash.Hash nh).
Proof.
  intros He Hn. induction j as [|j IH]; intros Hj.
  - cbn. rewrite Z.add_0_r. destruct nh. by simpl in *; subst.
  - rewrite tip_gets_succ, IH by lia.
    rewrite get_hit; [cbn; f_equal; lia|].
    unfold hits; cbn. repeat split; lia.
Qed.

(** X4.  A tip that is at least [n] serves exactly the reads its limit
    leaves: with no error pending and the counter within the limit, the
    next [maxreads - nreads] calls of [get] return the cached number
    and the copy of the hash; the call after them clears the tip
    (number 0, empty hash, counter 0) and misses, and from then on
    [get] misses without changing anything. *)
Theorem tip_reuse_then_expiry (nh : NumHash.t) (n : Z) :
  NumHash.err nh = None ->
  0 < n <= NumHash.Num nh ->
  0 <= NumHash.nreads nh <= NumHash.maxreads nh ->
  let k := Z.to_nat (NumHash.maxreads nh - NumHash.nreads nh) in
  let cleared := NumHash.mk None (NumHash.once nh) (NumHash.maxreads nh) 0 0 [] in
  (forall j, (j < k)%nat ->
     (NumHash.get (tip_gets j nh n) n).2 =
       (NumHash.Num nh, copy (replicate 32 x00) (NumHash.Hash nh), true)) /\
  NumHash.get (tip_gets k nh n) n = (cleared, (0, [], false)) /\
  NumHash.get cleared n = (cleared, (0, [], false)).
Proof.
  intros He Hn Hr k cleared. split; [|split].
  - intros j Hj. rewrite tip_gets_hits by (done || lia).
    rewrite get_hit; [done|]. unfold hits; cbn. repeat split; lia.
  - rewrite tip_gets_hits by (done || lia).
    rewrite get_expires; [done|]. unfold expires; cbn. repeat split; lia.
  - unfold NumHash.get, cleared. cbn.
    destruct (Z.eqb_spec n 0); [lia|]. cbn.
    by rewrite (proj2 (Z.ltb_lt 0 n)) by lia.
Qed.

Lemma tip_reuse_then_expiry_witness :
  NumHash.get (tip_gets 20 warm 50) 50 =
    (NumHash.mk None true 20 0 0 [], (0, [], false)).
Proof.
  apply (tip_reuse_then_expiry warm 50).
  - reflexivity.
  - simpl. lia.
  - simpl. lia.
Defined.

Lemma tip_step_bounded nh o :
  tip_bounded nh ->
  tip_bounded (tip_step nh o) /\
  NumHash.maxreads (tip_step nh o) = NumHash.maxreads nh.
Proof.
  unfold tip_bounded. intros Hb. destruct o as [e|n h|n]; cbn [tip_step].
  - cbn. lia.
  - unfold NumHash.update. destruct (_ <=? _); cbn; lia.
  - unfold NumHash.get. destruct (NumHash.err nh); cbn; [lia|].
    destruct (_ || _); cbn; [lia|].
    destruct (Z.leb_spec (NumHash.maxreads nh) (NumHash.nreads nh)); cbn; lia.
Qed.

(** X5.  The read counter of the tip cache never leaves the range from
    zero to the read limit, whatever sequence of [error], [update] and
    [get] calls the refreshers and [Latest] make; none of them changes
    the limit.  (This is what keeps the counter of the source within
    [int].) *)
Theorem tip_counter_bounded (nh : NumHash.t) (ops : list tip_op) :
  tip_bounded nh ->
  tip_bounded (foldl tip_step nh ops) /\
  NumHash.maxreads (foldl tip_step nh ops) = NumHash.maxreads nh.
Proof.
  revert nh. induction ops as [|o ops IH]; intros nh Hb; [done|].
  cbn [foldl]. destruct (tip_step_bounded nh o Hb) as [Hb' Hm].
  destruct (IH _ Hb') as [H1 H2]. split; [done | congruence].
Qed.

Lemma tip_counter_bounded_witness :
  tip_bounded warm /\
  tip_bounded (foldl tip_step warm
                 [OpGet 50; OpUpdate 120 hashB; OpError (ErrTransport "x");
                  OpGet 7; OpGet 7]).
Proof.
  assert (H : tip_bounded warm) by (unfold tip_bounded; simpl; lia).
  split; [exact H|]. apply (tip_counter_bounded warm _ H).
Defined.

(** *** The refreshers *)

Lemma set_lcache_id c : set_lcache c (lcache c) = c.
Proof. by destruct c. Qed.

Lemma set_lcache_twice c a b : set_lcache (set_lcache c a) b = set_lcache c b.
Proof. done. Qed.

Lemma httpPoll_good c url good tail :
  Forall good_tick good ->
  httpPoll c url ((DoOk <$> good) ++ tail) =
    let r := httpPoll (set_lcache c (updates (lcache c) (heads_of_ticks good)))
               url tail in
    (r.1, replicate (length good) (EvDo url [latest_request]) ++ r.2).
Proof.
  intros Hg. revert c. induction Hg as [|r good [He [hd Hhd]] _ IH]; intros c.
  - cbn. rewrite set_lcache_id. by destruct (httpPoll c url tail) as [[? ?] ?].
  - assert (Hh : heads_of_ticks (r :: good)
                 = (eth.Number hd, eth.Hash hd) :: heads_of_ticks good).
    { unfold heads_of_ticks. cbn [omap list_omap]. by rewrite Hhd. }
    rewrite Hh, updates_cons, fmap_cons. cbn [app httpPoll fst snd length].
    rewrite He. destruct (hrHeader r) as [hd'|]; [|done].
    injection Hhd as ->. rewrite IH. cbn [lcache set_lcache].
    rewrite set_lcache_twice.
    by destruct (httpPoll _ url tail) as [[? ?] ?].
Qed.

(** X6.  [httpPoll] makes one request per tick and stops at the first
    tick that fails in transport or carries a JSON-RPC error: the heads
    of the ticks before it were applied as updates, the failure is
    recorded with [error], and the ticks after it are never requested.
    As long as every tick carries a head the poller keeps running and
    no error is recorded. *)
Theorem httpPoll_stops_at_first_failure (c : Client) (url : string)
    (good : list headerResp) (tick : do_result headerResp)
    (rest : list (do_result headerResp)) (e : goerror) :
  Forall good_tick good ->
  tick_failure tick = Some e ->
  httpPoll c url ((DoOk <$> good) ++ tick :: rest) =
    (set_lcache c
       (NumHash.error (updates (lcache c) (heads_of_ticks good)) e),
     Stopped,
     replicate (S (length good)) (EvDo url [latest_request])) /\
  httpPoll c url (DoOk <$> good) =
    (set_lcache c (updates (lcache c) (heads_of_ticks good)),
     Running,
     replicate (length good) (EvDo url [latest_request])).
Proof.
  intros Hg Hf. split.
  - rewrite httpPoll_good by done. cbn [httpPoll].
    replace (replicate (S (length good)) (EvDo url [latest_request]))
      with (replicate (length good) (EvDo url [latest_request])
            ++ [EvDo url [latest_request]]).
    2:{ change (S (length good)) with (1 + length good)%nat.
        by rewrite Nat.add_comm, replicate_add. }
    destruct tick as [e0|hresp]; cbn [tick_failure] in Hf.
    + by injection Hf as ->.
    + destruct (Exists (hrError hresp)); [|done]. by injection Hf as <-.
  - rewrite <- (app_nil_r (DoOk <$> good)), httpPoll_good by done.
    cbn. by rewrite app_nil_r.
Qed.

Lemma httpPoll_stops_at_first_failure_witness :
  NumHash.Num
    (lcache
       (httpPoll warm_client "http://a"
          ((DoOk <$> [mkHeaderResp noError (Some (eth.mkHeader hashB 101 hashA))])
           ++ DoErr (ErrTransport "reset")
           :: [DoOk (mkHeaderResp noError
                       (Some (eth.mkHeader hashC 500 hashB)))])).1.1) = 101.
Proof.
  destruct (httpPoll_stops_at_first_failure warm_client "http://a"
              [mkHeaderResp noError (Some (eth.mkHeader hashB 101 hashA))]
              (DoErr (ErrTransport "reset"))
              [DoOk (mkHeaderResp noError (Some (eth.mkHeader hashC 500 hashB)))]
              (ErrTransport "reset")) as [H _].
  - constructor; [|constructor]. split; [reflexivity|]. eexists. reflexivity.
  - reflexivity.
  - rewrite H. reflexivity.
Defined.

(** A tick without error and without header crashes the poller. *)
Example httpPoll_null_result :
  (httpPoll warm_client "http://a" [DoOk (mkHeaderResp noError None)]).1.2
  = Crashed.
Proof. reflexivity. Qed.

Lemma wsReads_good c ms tail :
  wsReads c ((DoOk <$> ms) ++ tail) =
    wsReads
      (set_lcache c
         (updates (lcache c) ((λ m, (wsNum m, wsHash m)) <$> ms)))
      tail.
Proof.
  revert c. induction ms as [|m ms IH]; intros c.
  - cbn. by rewrite set_lcache_id.
  - rewrite !fmap_cons. cbn [app wsReads]. rewrite IH.
    cbn [lcache set_lcache]. by rewrite set_lcache_twice, updates_cons.
Qed.

(** X7.  [wsListen] never stops silently: a failed dial, a failed write
    of the subscription and the first failed read each end it with the
    error recorded (so that the next [Latest] sees it) and the read
    counter at zero.  Until then every message is applied as an update
    with its number and hash; the error object of a message plays no
    part. *)
Theorem wsListen_stops_with_error (c : Client)
    (ms : list wsMessage) (e : goerror) (rest : list (do_result wsMessage)) :
  (forall write reads,
     wsListen c (Some e) write reads =
       (set_lcache c
          (NumHash.error (lcache c) (ErrWrap ("ws dial " +:+ wsurl c) e)),
        Stopped)) /\
  (forall reads,
     wsListen c None (Some e) reads =
       (set_lcache c
          (NumHash.error (lcache c) (ErrWrap ("ws write " +:+ wsurl c) e)),
        Stopped)) /\
  wsListen c None None ((DoOk <$> ms) ++ DoErr e :: rest) =
    (set_lcache c
       (NumHash.error
          (updates (lcache c) ((λ m, (wsNum m, wsHash m)) <$> ms))
          (ErrWrap ("ws read " +:+ wsurl c) e)),
     Stopped) /\
  wsListen c None None (DoOk <$> ms) =
    (set_lcache c (updates (lcache c) ((λ m, (wsNum m, wsHash m)) <$> ms)),
     Running) /\
  (forall dial write reads,
     (wsListen c dial write reads).2 = Stopped ->
     is_Some (NumHash.err (lcache (wsListen c dial write reads).1)) /\
     NumHash.nreads (lcache (wsListen c dial write reads).1) = 0).
Proof.
  split; [done|]. split; [done|]. split; [|split].
  - unfold wsListen. by rewrite wsReads_good.
  - unfold wsListen. rewrite <- (app_nil_r (DoOk <$> ms)), wsReads_good.
    done.
  - intros dial write reads. unfold wsListen.
    destruct dial as [d|]; [cbn; eauto|]. destruct write as [w|]; [cbn; eauto|].
    revert c. induction reads as [|[e0|m] reads IH]; intros c; cbn [wsReads].
    + done.
    + cbn. eauto.
    + apply IH.
Qed.

(** *** Creating the client *)

Lemma New_loop_spec parse l : forall us dbg nc,
  (New_loop parse l (us, dbg, nc) = None <->
   exists s, s ∈ l /\ parse s = None) /\
  (forall r, New_loop parse l (us, dbg, nc) = Some r ->
     provided <$> r.1.1 = (provided <$> us) ++ l /\
     Some <$> (parsed <$> r.1.1) = (Some <$> (parsed <$> us)) ++ (parse <$> l)).
Proof.
  induction l as [|p l IH]; intros us dbg nc.
  - cbn [New_loop]. split.
    + split; [done|]. intros (s & Hs & _). by apply elem_of_nil in Hs.
    + intros r [= <-]. cbn. by rewrite !app_nil_r.
  - cbn [New_loop]. unfold MustURL.
    destruct (parse p) as [u|] eqn:Hp.
    + destruct (IH (us ++ [mkURL u p]) (Contains p "debug")
                  (Contains p "nocache")) as [IH1 IH2].
      split.
      * rewrite IH1. split.
        -- intros (s & Hs & Hn). exists s. split; [by right | done].
        -- intros (s & Hs & Hn). apply elem_of_cons in Hs as [->|Hs];
             [congruence|]. by exists s.
      * intros r Hr. destruct (IH2 r Hr) as [H1 H2].
        rewrite H1, H2, !fmap_app, <- !app_assoc. cbn. by rewrite Hp.
    + split; [|done]. split; [|done]. intros _. exists p. split; [left|done].
Qed.

Lemma New_keeps_endpoints_aux parse l :
  (New parse l = None <-> exists s, s ∈ l /\ parse s = None) /\
  (forall c, New parse l = Some c ->
     provided <$> urls c = l /\
     Some <$> (parsed <$> urls c) = parse <$> l /\
     reqCounter c = 0 /\ wsurl c = "" /\ pollDuration c = 1000000000 /\
     lcache c = NumHash.mk None false 20 0 0 [] /\
     bcache c = cache.mk 20 ∅ /\ hcache c = cache.mk 20 ∅).
Proof.
  destruct (New_loop_spec parse l [] false false) as [H1 H2].
  unfold New. destruct (New_loop parse l ([], false, false))
    as [[[us dbg] nc]|] eqn:Hl.
  - split.
    + split; [done|]. intros Hex. apply H1 in Hex. done.
    + intros c [= <-]. destruct (H2 _ eq_refl) as [Hp Hq].
      cbn in Hp, Hq. cbn. by repeat split.
  - split; [|done]. split; [|done]. intros _. by apply H1.
Qed.

(** X8.  [New] ends the process exactly when one of the strings does
    not parse.  Otherwise the client holds the endpoints in the order
    given, each with its string and its parsed form, the counter at
    zero, no websocket URL, a poll interval of one second, read limits
    of 20 and empty caches. *)
Theorem New_keeps_endpoints (parse : string -> option string) (l : list string) :
  (New parse l = None <-> exists s, s ∈ l /\ parse s = None) /\
  (forall c, New parse l = Some c ->
     provided <$> urls c = l /\
     Some <$> (parsed <$> urls c) = parse <$> l /\
     reqCounter c = 0 /\ wsurl c = "" /\ pollDuration c = 1000000000 /\
     lcache c = NumHash.mk None false 20 0 0 [] /\
     bcache c = cache.mk 20 ∅ /\ hcache c = cache.mk 20 ∅).
Proof. exact (New_keeps_endpoints_aux parse l). Qed.

(** X9.  On a client made by [New], the first [NextURL] panics when no
    endpoint was given, and otherwise returns the endpoint at position
    [1 mod N]: the second of several endpoints, the only one of one. *)
Theorem New_then_NextURL (parse : string -> option string) (l : list string)
    (c : Client) :
  New parse l = Some c ->
  (l = [] -> (NextURL c).2 = Panicked) /\
  (l ≠ [] ->
   exists u, (NextURL c).2 = Returned u /\
             l !! Z.to_nat (1 mod Z.of_nat (length l)) = Some (provided u)) /\
  reqCounter (NextURL c).1 = 1.
Proof.
  intros Hn. destruct (proj2 (New_keeps_endpoints_aux parse l) c Hn)
    as (Hp & _ & Hc & _).
  assert (Hlen : length (urls c) = length l) by (by rewrite <- Hp, length_fmap).
  split; [|split].
  - intros ->. unfold NextURL. destruct (urls c); [|done].
    by rewrite decide_True.
  - intros Hne. assert (Hu : urls c ≠ []).
    { intros H0. rewrite H0 in Hlen. by destruct l. }
    destruct (NextURL_returns c Hu) as (u & Hu1 & Hu2). exists u.
    split; [done|]. rewrite <- Hlen, <- Hp, list_lookup_fmap.
    unfold next_index in Hu1. rewrite Hc in Hu1.
    change (wrap64 (0 + 1)) with 1 in Hu1. by rewrite Hu1.
  - rewrite NextURL_client, Hc. reflexivity.
Qed.

Lemma New_then_NextURL_witness :
  New Some [plain; flagged] = Some
    (mkClient true true [mkURL plain plain; mkURL flagged flagged] "" 0 second
       (NumHash.mk None false 20 0 0 []) (cache.mk 20 ∅) (cache.mk 20 ∅)) /\
  reqCounter
    (NextURL
       (mkClient true true [mkURL plain plain; mkURL flagged flagged] "" 0
          second (NumHash.mk None false 20 0 0 []) (cache.mk 20 ∅)
          (cache.mk 20 ∅))).1 = 1.
Proof.
  split; [reflexivity|].
  apply (New_then_NextURL Some [plain; flagged]). reflexivity.
Defined.

Example first_NextURL_is_second_endpoint :
  (NextURL three).2 = Returned urlB.
Proof. reflexivity. Qed.

(** *** More on the range cache *)

Lemma get_unfinished c url start limit f order seg :
  cache.inserted c start limit !! (start, limit) = Some seg ->
  cache.done seg = false ->
  cache.get c false url start limit f order =
    (cache.mk (cache.maxreads c)
       (cache.store (start, limit)
          (cache.mkSegment (cache.nreads seg + 1)
             (bool_decide (f_err (f url start limit) = None))
             (if bool_decide (f_err (f url start limit) = None)
              then f_blocks (f url start limit) else cache.d seg))
          (cache.pruneSegments order (cache.inserted c start limit))),
     fetch_through f url start limit).
Proof.
  intros Hs Hd. unfold cache.get, fetch_through. rewrite Hs.
  cbv [default from_option id cache.bump cache.done cache.nreads cache.d].
  destruct seg as [nr dn dd]. cbn in Hd. subst dn.
  by destruct (f_err (f url start limit)).
Qed.

(** X10.  After a [get] through the cache no read counter in the table
    exceeds the read limit (or one, when the limit is lower): the
    segment of the requested key has at most that many reads, every
    other segment fewer reads than the limit. *)
Theorem get_counter_bounded (c : cache.t) (url : string) (start limit : Z)
    (f : getter) (order : list key) (k : key) (seg : cache.segment) :
  cache.segments (cache.get c false url start limit f order).1 !! k = Some seg ->
  cache.nreads seg <= Z.max (cache.maxreads c) 1 /\
  (k ≠ (start, limit) -> cache.nreads seg < cache.maxreads c).
Proof.
  intros Hk.
  assert (Hins : forall k' s, cache.inserted c start limit !! k' = Some s ->
            (cache.nreads s < cache.maxreads c) \/
            (k' = (start, limit) /\ s = cache.newSegment)).
  { intros k' s Hs. apply inserted_lookup in Hs as [[_ ?]|?]; [by left|by right]. }
  destruct (inserted_lookup_key c start limit) as [seg0 Hseg0].
  assert (Hb : cache.nreads seg0 + 1 <= Z.max (cache.maxreads c) 1).
  { destruct (Hins _ _ Hseg0) as [?|[_ ->]]; [lia | cbn; lia]. }
  assert (Hcase : exists s1,
    cache.nreads s1 = cache.nreads seg0 + 1 /\
    (cache.get c false url start limit f order).1 =
      cache.mk (cache.maxreads c)
        (cache.store (start, limit) s1
           (cache.pruneSegments order (cache.inserted c start limit)))).
  { unfold cache.get. rewrite Hseg0. cbv [default from_option id].
    destruct (cache.done (cache.bump seg0));
      [refine (ex_intro _ _ (conj _ eq_refl)); reflexivity|].
    destruct (f_err _); refine (ex_intro _ _ (conj _ eq_refl)); reflexivity. }
  destruct Hcase as (s1 & Hn1 & Heq). rewrite Heq in Hk.
  cbn [cache.segments] in Hk. rewrite store_lookup in Hk.
  destruct (decide ((start, limit) = k)) as [<-|Hne].
  - destruct (cache.pruneSegments _ _ !! _); [|done].
    injection Hk as <-. split; [lia | done].
  - apply pruneSegments_lookup in Hk.
    destruct (Hins _ _ Hk) as [Hl|[-> _]]; [|done]. split; [lia | done].
Qed.

Lemma get_counter_bounded_witness :
  cache.segments
    (cache.get five false "u" 300 1 (one_block 300 hashB)
       (sorted_with_high 300)).1 !! (300, 1)
    = Some (cache.mkSegment 1 true [blk 300 hashB hashC]) /\
  cache.nreads (cache.mkSegment 1 true [blk 300 hashB hashC])
    <= Z.max (cache.maxreads five) 1.
Proof.
  assert (H : cache.segments
    (cache.get five false "u" 300 1 (one_block 300 hashB)
       (sorted_with_high 300)).1 !! (300, 1)
    = Some (cache.mkSegment 1 true [blk 300 hashB hashC])).
  { vm_compute. reflexivity. }
  split; [exact H|].
  apply (get_counter_bounded five "u" 300 1 (one_block 300 hashB)
           (sorted_with_high 300) (300, 1) _ H).
Defined.

(** X11.  A failed fetch is never remembered: when the table holds no
    finished segment for the key and every call of a run is handed a
    fetcher that fails, every call runs its fetcher and returns its
    error wrapped in "cache get", with no blocks. *)
Theorem failed_fetch_is_retried (c : cache.t) (url : string) (start limit : Z)
    (calls : list (getter * list key)) :
  (forall seg, cache.segments c !! (start, limit) = Some seg ->
               cache.done seg = false) ->
  Forall (λ fo : getter * list key, f_err (fo.1 url start limit) ≠ None) calls ->
  (gets c url start limit calls).2 =
    (λ fo : getter * list key, fetch_through fo.1 url start limit) <$> calls /\
  Forall (λ r, f_blocks r = [] /\ exists e, f_err r = Some (ErrWrap "cache get" e))
    (gets c url start limit calls).2.
Proof.
  intros Hc Hf. revert c Hc.
  induction Hf as [|[f o] calls Hfail _ IH]; intros c Hc; [by split|].
  cbn [gets]. cbn [fst] in Hfail.
  destruct (inserted_lookup_key c start limit) as [seg Hseg].
  assert (Hd : cache.done seg = false).
  { apply inserted_lookup in Hseg as Hs. destruct Hs as [[Hs _]|[_ ->]];
      [by apply Hc | done]. }
  rewrite (get_unfinished c url start limit f o seg Hseg Hd).
  rewrite bool_decide_false by done.
  set (c1 := cache.mk _ _).
  destruct (IH c1) as [IH1 IH2].
  { intros s Hs. subst c1. cbn [cache.segments] in Hs.
    rewrite store_lookup, decide_True in Hs by done.
    destruct (cache.pruneSegments _ _ !! _); [|done]. by injection Hs as <-. }
  destruct (gets c1 url start limit calls) as [c2 rs]. cbn [snd] in *.
  rewrite fmap_cons, IH1. split; [done|]. constructor; [|by rewrite <- IH1].
  unfold fetch_through. cbn [fst].
  destruct (f_err (f url start limit)) as [e|]; [|done]. cbn. eauto.
Qed.

Lemma failed_fetch_is_retried_witness :
  (gets (cache.mk 20 ∅) "u" 100 1 [(failing, []); (failing, [])]).2 =
    [fetch_through failing "u" 100 1; fetch_through failing "u" 100 1].
Proof.
  apply (failed_fetch_is_retried (cache.mk 20 ∅) "u" 100 1
           [(failing, []); (failing, [])]).
  - intros seg H. vm_compute in H. discriminate H.
  - constructor; [discriminate|]. constructor; [discriminate|constructor].
Defined.

Lemma pruneMaxRead_all_expired (mr : Z) (segs : gmap key cache.segment) :
  mr <= 0 ->
  (forall k seg, segs !! k = Some seg -> 0 <= cache.nreads seg) ->
  cache.pruneMaxRead mr segs = ∅.
Proof.
  intros Hm Hn. apply map_eq. intros k. rewrite lookup_empty.
  apply eq_None_not_Some. intros [seg Hs].
  apply pruneMaxRead_lookup in Hs as [Hs Hl]. specialize (Hn _ _ Hs). lia.
Qed.

Lemma get_without_reads (c : cache.t) (url : string) (start limit : Z)
    (f : getter) (order : list key) :
  cache.maxreads c <= 0 ->
  (forall k seg, cache.segments c !! k = Some seg -> 0 <= cache.nreads seg) ->
  cache.get c false url start limit f order =
    (cache.mk (cache.maxreads c)
       {[ (start, limit) :=
            match f_err (f url start limit) with
            | None => cache.mkSegment 1 true (f_blocks (f url start limit))
            | Some _ => cache.mkSegment 1 false []
            end ]},
     fetch_through f url start limit).
Proof.
  intros Hm Hn.
  pose proof (pruneMaxRead_all_expired _ _ Hm Hn) as Hp.
  assert (Hset : settled (cache.maxreads c) (start, limit) ∅).
  { split; [done | by rewrite map_size_empty; lia | done]. }
  pose proof (get_fetches (cache.maxreads c) (start, limit) ∅
                (cache.segments c) url f order Hset Hp) as Hg.
  cbn [fst snd] in Hg.
  replace (cache.mk (cache.maxreads c) (cache.segments c)) with c in Hg
    by (by destruct c).
  by rewrite Hg, insert_empty.
Qed.

(** X12.  [WithMaxReads] with a limit of zero or less switches reuse
    off in all three caches: with no negative read counter in the
    client, the tip cache answers no question, and every [get] through
    the block cache or the header cache runs its fetcher and returns
    what the fetcher returns (an error wrapped in "cache get"), leaving
    a table that holds the segment of this call only. *)
Theorem WithMaxReads_nonpositive_disables_reuse (c : Client) (n m : Z)
    (url : string) (start limit : Z) (f : getter) (order : list key) :
  n <= 0 ->
  0 <= NumHash.nreads (lcache c) ->
  (forall k seg, cache.segments (bcache c) !! k = Some seg -> 0 <= cache.nreads seg) ->
  (forall k seg, cache.segments (hcache c) !! k = Some seg -> 0 <= cache.nreads seg) ->
  (NumHash.get (lcache (WithMaxReads c n)) m).2 = (0, [], false) /\
  (forall t, t = bcache (WithMaxReads c n) \/ t = hcache (WithMaxReads c n) ->
     (cache.get t false url start limit f order).2
       = fetch_through f url start limit /\
     dom (cache.segments (cache.get t false url start limit f order).1)
       = {[ (start, limit) ]}).
Proof.
  intros Hn Hl Hb Hh. split.
  - unfold NumHash.get, WithMaxReads. cbn [lcache NumHash.err NumHash.maxreads
      NumHash.nreads NumHash.Num NumHash.Hash NumHash.once].
    destruct (NumHash.err (lcache c)); [done|].
    destruct ((m =? 0) || (NumHash.Num (lcache c) <? m)); [done|].
    by rewrite (proj2 (Z.leb_le n (NumHash.nreads (lcache c)))) by lia.
  - intros t Ht.
    assert (Hg : cache.maxreads t <= 0 /\
              forall k seg, cache.segments t !! k = Some seg ->
                            0 <= cache.nreads seg).
    { destruct Ht as [-> | ->]; unfold WithMaxReads; cbn; by split. }
    destruct Hg as [Hm Hc].
    rewrite (get_without_reads t url start limit f order Hm Hc).
    cbn [fst snd cache.segments]. split; [done|].
    by rewrite dom_singleton_L.
Qed.

Lemma WithMaxReads_nonpositive_disables_reuse_witness :
  (NumHash.get (lcache (WithMaxReads warm_client 0)) 50).2 = (0, [], false).
Proof.
  apply (WithMaxReads_nonpositive_disables_reuse warm_client 0 50 "u" 200 1
           (one_block 200 hashB) []).
  - lia.
  - vm_compute. discriminate.
  - intros k seg H. vm_compute in H. discriminate H.
  - intros k seg H. vm_compute in H. discriminate H.
Defined.

(** *** What the enrichments leave alone *)

Lemma updTx_header b idx f : eth.header (eth.updTx b idx f) = eth.header b.
Proof. unfold eth.updTx, eth.TxAt. by destruct (eth.findTx _ _). Qed.

Lemma frame_withHash h b : frame (eth.withHash h b) = frame b.
Proof. done. Qed.

Lemma frame_updTx b idx f : frame (eth.updTx b idx f) = frame b.
Proof. unfold frame. by rewrite updTx_header. Qed.

Lemma alter_frame (f : eth.Block -> eth.Block) (i : nat) (bs : list eth.Block) :
  (forall b, frame (f b) = frame b) ->
  frame <$> alter f i bs = frame <$> bs.
Proof.
  intros Hf. apply list_eq. intros j. rewrite !list_lookup_fmap.
  destruct (decide (i = j)) as [<-|Hne].
  - rewrite list_lookup_alter_eq. destruct (bs !! i); [|done]. simpl.
    by rewrite Hf.
  - by rewrite list_lookup_alter_ne.
Qed.

Lemma frame_write_receipts r0 rs b : frame (write_receipts r0 rs b) = frame b.
Proof.
  unfold write_receipts, frame. by rewrite foldl_write_receipt_header.
Qed.

Lemma receipts_loop_frame bm start limit resps : forall bs,
  frame <$> (receipts_loop bm start limit resps bs).1 = frame <$> bs.
Proof.
  induction resps as [|r resps IH]; intros bs; [done|].
  cbn [receipts_loop]. destruct (rrResult r) as [|r0 more]; [apply IH|].
  destruct (_ || _); [done|]. destruct (bm !! _); [|done].
  rewrite IH. apply alter_frame. intros b. apply frame_write_receipts.
Qed.

Lemma frame_write_log_group k ls b : frame (write_log_group k ls b) = frame b.
Proof. destruct ls; [done|]. unfold write_log_group. by rewrite frame_updTx. Qed.

Lemma write_logs_frame bm m order : forall bs,
  frame <$> (write_logs bm m order bs).1 = frame <$> bs.
Proof.
  induction order as [|k order IH]; intros bs; [done|].
  cbn [write_logs]. destruct (m !! k); [|apply IH].
  destruct (bm !! _); [|done].
  rewrite IH. apply alter_frame. intros b. apply frame_write_log_group.
Qed.

Lemma write_traces_header m order : forall b,
  eth.header (write_traces m order b) = eth.header b.
Proof.
  induction order as [|k order IH]; intros b; [done|].
  cbn [write_traces]. destruct (m !! k); [|apply IH].
  by rewrite IH, updTx_header.
Qed.

Lemma frame_trace_block r0 rs order b : frame (trace_block r0 rs order b) = frame b.
Proof. unfold trace_block, frame. by rewrite write_traces_header. Qed.

Lemma traces_loop_frame url bm start resp order idxs : forall bs,
  frame <$> (traces_loop url bm start resp order idxs bs).1.1 = frame <$> bs.
Proof.
  induction idxs as [|i idxs IH]; intros bs; [done|].
  cbn [traces_loop]. destruct (resp i) as [e|res]; [done|].
  destruct (Exists _); [done|]. destruct (trResult res) as [|r0 more]; [done|].
  destruct (bm !! _) as [j|]; [|done].
  specialize (IH (alter (trace_block r0 (r0 :: more) (order i)) j bs)).
  destruct (traces_loop _ _ _ _ _ _ _) as [[bs' e'] evs]. cbn [fst] in *.
  rewrite IH. apply alter_frame. intros b. apply frame_trace_block.
Qed.

Lemma enrich_frame url filter start limit e bs :
  frame <$> (enrich url filter start limit e bs).1.1 = frame <$> bs.
Proof.
  unfold enrich. destruct (UseReceipts filter).
  - unfold receipts. destruct (e_receipts e) as [err|resps]; [done|].
    destruct (first_error _); [done|].
    pose proof (receipts_loop_frame (mkBlockmap bs) start limit resps bs) as H.
    by destruct (receipts_loop _ _ _ _ _).
  - destruct (UseLogs filter).
    + unfold logs. destruct (e_logs e) as [err|[hresp lresp]]; [done|].
      destruct (Exists (hrError hresp)); [done|].
      destruct (Exists (lgError lresp)); [done|].
      destruct (hrHeader hresp); [|done].
      destruct (group_logs _ _ _ _) as [m|err]; [|done].
      pose proof (write_logs_frame (mkBlockmap bs) m (e_logorder e) bs) as H.
      by destruct (write_logs _ _ _ _).
    + destruct (UseTraces filter); [|done].
      unfold traces.
      pose proof (traces_loop_frame url (mkBlockmap bs) start (e_traces e)
                    (e_traceorder e) (seq 0 (Z.to_nat limit)) bs) as H.
      by destruct (traces_loop _ _ _ _ _ _ _) as [[bs' e'] evs].
Qed.

Lemma Num_frame (bs : list eth.Block) : eth.Num <$> bs = fst <$> (frame <$> bs).
Proof. by rewrite <- list_fmap_compose. Qed.

Lemma foldl_blockmap_ext (g : nat -> nat) (bs1 : list eth.Block) :
  forall bs2 (acc : gmap Z nat),
  eth.Num <$> bs1 = eth.Num <$> bs2 ->
  foldl (λ (m : gmap Z nat) (ib : nat * eth.Block), <[eth.Num ib.2 := ib.1]> m)
        acc (imap (λ i b, (g i, b)) bs1)
  = foldl (λ (m : gmap Z nat) (ib : nat * eth.Block), <[eth.Num ib.2 := ib.1]> m)
        acc (imap (λ i b, (g i, b)) bs2).
Proof.
  revert g. induction bs1 as [|b1 bs1 IH]; intros g [|b2 bs2] acc Heq;
    try done.
  injection Heq as Hn Hrest. cbn [imap foldl snd fst]. rewrite Hn.
  apply (IH (g ∘ S) bs2 _ Hrest).
Qed.

Lemma mkBlockmap_ext bs1 bs2 :
  eth.Num <$> bs1 = eth.Num <$> bs2 -> mkBlockmap bs1 = mkBlockmap bs2.
Proof. apply (foldl_blockmap_ext id). Qed.

Lemma numbered_ext start limit bs1 bs2 :
  eth.Num <$> bs1 = eth.Num <$> bs2 ->
  numbered start limit bs1 -> numbered start limit bs2.
Proof.
  intros Heq (Hl & Hh & Ht).
  assert (Hlen : length bs2 = length bs1).
  { by rewrite <- (length_fmap eth.Num bs2), <- Heq, length_fmap. }
  split; [congruence|]. split.
  - intros b Hb. rewrite head_lookup in Hb.
    assert (H : (eth.Num <$> bs1) !! 0%nat = Some (eth.Num b)).
    { by rewrite Heq, list_lookup_fmap, Hb. }
    rewrite list_lookup_fmap in H.
    destruct (bs1 !! 0%nat) as [b1|] eqn:H1; [|done].
    injection H as <-. apply Hh. by rewrite head_lookup.
  - intros b Hb.
    assert (H : last (eth.Num <$> bs1) = Some (eth.Num b)).
    { by rewrite Heq, fmap_last, Hb. }
    rewrite fmap_last in H. destruct (last bs1) as [b1|]; [|done].
    injection H as <-. by apply Ht.
Qed.

(** X13.  No enrichment changes the number of blocks, a block number or
    a parent hash, with or without an error: the blockmap of the
    enriched blocks is the blockmap [enrich] started from, and what
    [validate] checked of the first and the last number still holds. *)
Theorem enrich_keeps_frame (url : string) (filter : Filter) (start limit : Z)
    (e : env) (bs : list eth.Block) :
  length (enrich url filter start limit e bs).1.1 = length bs /\
  frame <$> (enrich url filter start limit e bs).1.1 = frame <$> bs /\
  mkBlockmap (enrich url filter start limit e bs).1.1 = mkBlockmap bs /\
  (forall s l, numbered s l bs ->
               numbered s l (enrich url filter start limit e bs).1.1).
Proof.
  pose proof (enrich_frame url filter start limit e bs) as Hf.
  assert (Hn : eth.Num <$> bs
               = eth.Num <$> (enrich url filter start limit e bs).1.1).
  { by rewrite !Num_frame, Hf. }
  split; [|split; [done|split]].
  - by rewrite <- (length_fmap frame), Hf, length_fmap.
  - symmetry. by apply mkBlockmap_ext.
  - intros s l. by apply numbered_ext.
Qed.

(** *** The numbering of what [Get] returns *)

Lemma segment_ok_numbered start limit bs :
  segment_ok start limit bs -> numbered start limit bs /\ bs ≠ [].
Proof.
  intros (Hlen & Hne & H0 & Hl & _). split; [|done].
  split; [done|]. split.
  - intros b Hb. rewrite head_lookup in Hb. rewrite Hb in H0. by injection H0.
  - intros b Hb. rewrite last_lookup, Hlen in Hb.
    replace (Init.Nat.pred (Z.to_nat limit)) with (Z.to_nat limit - 1)%nat
      in Hb by lia.
    rewrite Hb in Hl. by injection Hl.
Qed.

Lemma synthetic_numbered start limit :
  is_uint64 start -> numbered start limit (synthetic start limit).
Proof.
  intros Hs. unfold numbered, synthetic.
  split; [by rewrite length_fmap, length_seq|]. split.
  - intros b. rewrite head_lookup, list_lookup_fmap.
    destruct (seq 0 (Z.to_nat limit) !! 0%nat) as [i|] eqn:Hi; [|done].
    apply lookup_seq in Hi as [-> _]. intros [= <-]. cbn.
    rewrite Z.add_0_r. by apply wrap64_small.
  - intros b. rewrite last_lookup, list_lookup_fmap, length_fmap, length_seq.
    destruct (seq 0 (Z.to_nat limit) !! _) as [i|] eqn:Hi; [|done].
    apply lookup_seq in Hi as [-> Hlt]. intros [= <-]. cbn.
    f_equal. lia.
Qed.

Section numbered_tables.
Import cache.

Lemma table_numbered_inserted c start limit :
  table_numbered (segments c) -> table_numbered (inserted c start limit).
Proof.
  intros Hok k seg Hk Hd.
  apply inserted_lookup in Hk as [[Hk _]|[-> ->]]; [by apply (Hok k)|done].
Qed.

Lemma table_numbered_pruneSegments order segs :
  table_numbered segs -> table_numbered (pruneSegments order segs).
Proof.
  intros Hok k seg Hk Hd. apply pruneSegments_lookup in Hk. by apply (Hok k).
Qed.

Lemma table_numbered_store k seg segs :
  table_numbered segs ->
  (done seg = true -> numbered k.1 k.2 (d seg) /\ d seg ≠ []) ->
  table_numbered (store k seg segs).
Proof.
  intros Hok Hseg k' seg' Hk Hd. rewrite store_lookup in Hk.
  destruct (decide (k = k')) as [<-|Hne]; [|by apply (Hok k')].
  destruct (segs !! k); [|done]. injection Hk as <-. by apply Hseg.
Qed.

Lemma get_table_numbered c nocache url start limit f order :
  table_numbered (segments c) ->
  (f_err (f url start limit) = None ->
   numbered start limit (f_blocks (f url start limit)) /\
   f_blocks (f url start limit) ≠ []) ->
  table_numbered (segments (get c nocache url start limit f order).1) /\
  (f_err (get c nocache url start limit f order).2 = None ->
   numbered start limit (f_blocks (get c nocache url start limit f order).2) /\
   f_blocks (get c nocache url start limit f order).2 ≠ []).
Proof.
  intros Hok Hf. unfold get. destruct nocache; [done|].
  pose proof (table_numbered_inserted c start limit Hok) as Hok2.
  pose proof (table_numbered_pruneSegments order _ Hok2) as Hok3.
  destruct (inserted_lookup_key c start limit) as [seg Hseg].
  rewrite Hseg. cbv [default from_option id].
  assert (Hd : done seg = true ->
               numbered start limit (d seg) /\ d seg ≠ []).
  { intros Hd. by apply (Hok2 (start, limit) seg). }
  change (done (bump seg)) with (done seg).
  destruct (done seg) eqn:Hdone.
  - cbn [fst snd f_err f_blocks segments]. split; [|by intros; apply Hd].
    apply table_numbered_store; [done|]. intros _. by apply Hd.
  - destruct (f_err (f url start limit)) as [e|] eqn:He;
      cbn [fst snd f_err f_blocks segments].
    + split; [|done]. apply table_numbered_store; [done|]. simpl.
      by rewrite Hdone.
    + split; [|by intros; apply Hf].
      apply table_numbered_store; [done|]. intros _. by apply Hf.
Qed.

Lemma table_numbered_share k bs c :
  table_numbered (segments c) -> numbered k.1 k.2 bs -> bs ≠ [] ->
  table_numbered (segments (share k bs c)).
Proof.
  intros Hok Hbs Hne k' seg' Hk Hd. unfold share in Hk. cbn [segments] in Hk.
  destruct (decide (k = k')) as [<-|Hne'].
  - rewrite lookup_alter_eq in Hk. destruct (segments c !! k); [|done].
    by injection Hk as <-.
  - rewrite lookup_alter_ne in Hk by done. by apply (Hok k').
Qed.

End numbered_tables.

Lemma enrich_numbered url filter start limit e bs s l :
  numbered s l bs -> bs ≠ [] ->
  numbered s l (enrich url filter start limit e bs).1.1 /\
  (enrich url filter start limit e bs).1.1 ≠ [].
Proof.
  intros Hn Hne.
  pose proof (enrich_frame url filter start limit e bs) as Hf.
  split.
  - apply (numbered_ext s l bs); [|done]. by rewrite !Num_frame, Hf.
  - intros H0. rewrite H0 in Hf. by destruct bs.
Qed.

Lemma primary_keeps_numbering (t : cache.t) (nc : bool) url filter start limit
    (f : getter) (e : env) (order : list key) :
  table_numbered (cache.segments t) ->
  (f_err (f url start limit) = None ->
   segment_ok start limit (f_blocks (f url start limit))) ->
  let g := cache.get t nc url start limit f order in
  let res := enrich url filter start limit e (f_blocks g.2) in
  table_numbered (cache.segments g.1) /\
  (f_err g.2 = None ->
   table_numbered
     (cache.segments (if nc then g.1 else share (start, limit) res.1.1 g.1)) /\
   numbered start limit res.1.1 /\ res.1.1 ≠ []).
Proof.
  intros Ht Hf g res.
  destruct (get_table_numbered t nc url start limit f order Ht) as [Hg1 Hg2].
  { intros He. by apply segment_ok_numbered, Hf. }
  split; [done|]. intros He. destruct (Hg2 He) as [Hn Hne].
  destruct (enrich_numbered url filter start limit e _ start limit Hn Hne)
    as [Hn' Hne'].
  split; [|done]. destruct nc; [done|]. by apply table_numbered_share.
Qed.

(** X14.  The numbering survives everything [Get] does.  Started on
    tables whose finished segments are numbered after their keys (the
    empty tables of [New] are), every [Get] leaves such tables, also
    when it enriches the cached blocks in place or fails half-way; and
    the blocks of a successful [Get] are [limit] many, the first
    numbered [start], the last [start + limit - 1], and not empty when
    blocks or headers were asked for. *)
Theorem Get_keeps_numbering (c : Client) (url : string) (filter : Filter)
    (start limit : Z) (e : env) :
  is_uint64 start ->
  table_numbered (cache.segments (bcache c)) ->
  table_numbered (cache.segments (hcache c)) ->
  table_numbered (cache.segments (bcache (Get c url filter start limit e).1)) /\
  table_numbered (cache.segments (hcache (Get c url filter start limit e).1)) /\
  ((Get c url filter start limit e).2.1.2 = None ->
   numbered start limit (Get c url filter start limit e).2.1.1 /\
   (UseBlocks filter = true \/ UseHeaders filter = true ->
    (Get c url filter start limit e).2.1.1 ≠ [])).
Proof.
  intros Hs Hb Hh. unfold Get.
  destruct (UseBlocks filter) eqn:HB; [|destruct (UseHeaders filter) eqn:HH].
  - pose proof (primary_keeps_numbering (bcache c) (nocache c) url filter
                  start limit (blocks (e_blocks e)) e (e_sorted e) Hb
                  (blocks_ok _ _ _ _)) as Hp.
    cbv zeta in Hp.
    destruct (cache.get (bcache c) _ _ _ _ _ _) as [bc r]. cbn [fst snd] in Hp.
    destruct Hp as [Hp1 Hp2].
    destruct (f_err r) as [err|]; [by destruct c|].
    destruct (Hp2 eq_refl) as (Ht & Hn & Hne).
    split; [by destruct c|]. split; [by destruct c|].
    unfold finish.
    destruct (enrich url filter start limit e (f_blocks r)) as [[bs' [e'|]] evs];
      cbn [fst snd] in *; [done|]. by intros _.
  - pose proof (primary_keeps_numbering (hcache c) (nocache c) url filter
                  start limit (headers (e_headers e)) e (e_sorted e) Hh
                  (headers_ok _ _ _ _)) as Hp.
    cbv zeta in Hp.
    destruct (cache.get (hcache c) _ _ _ _ _ _) as [hc r]. cbn [fst snd] in Hp.
    destruct Hp as [Hp1 Hp2].
    destruct (f_err r) as [err|]; [by destruct c|].
    destruct (Hp2 eq_refl) as (Ht & Hn & Hne).
    split; [by destruct c|]. split; [by destruct c|].
    unfold finish.
    destruct (enrich url filter start limit e (f_blocks r)) as [[bs' [e'|]] evs];
      cbn [fst snd] in *; [done|]. by intros _.
  - cbn [fst snd]. split; [done|]. split; [done|].
    pose proof (enrich_frame url filter start limit e (synthetic start limit))
      as Hf.
    unfold finish.
    destruct (enrich url filter start limit e (synthetic start limit))
      as [[bs' [e'|]] evs]; cbn [fst snd] in *; [done|].
    intros _. split; [|by intros [?|?]].
    apply (numbered_ext start limit (synthetic start limit));
      [by rewrite !Num_frame, Hf | by apply synthetic_numbered].
Qed.

Lemma Get_keeps_numbering_witness :
  table_numbered
    (cache.segments
       (bcache (Get three "u" blocksAndReceipts 100 2 (world chain2 rehashed)).1)).
Proof.
  apply (Get_keeps_numbering three "u" blocksAndReceipts 100 2
           (world chain2 rehashed)).
  - unfold is_uint64. lia.
  - intros k seg H. vm_compute in H. discriminate H.
  - intros k seg H. vm_compute in H. discriminate H.
Defined.

(** *** The blockmap *)

Lemma mkBlockmap_snoc (bs : list eth.Block) (b : eth.Block) :
  mkBlockmap (bs ++ [b]) = <[eth.Num b := length bs]> (mkBlockmap bs).
Proof.
  unfold mkBlockmap. rewrite imap_app, foldl_app. cbn [imap foldl fst snd].
  by rewrite Nat.add_0_r.
Qed.

Lemma mkBlockmap_lookup (bs : list eth.Block) : forall (n : Z) (i : nat),
  mkBlockmap bs !! n = Some i <->
  eth.Num <$> bs !! i = Some n /\
  (forall j, (i < j)%nat -> eth.Num <$> bs !! j ≠ Some n).
Proof.
  induction bs as [|b bs IH] using rev_ind; intros n i.
  - unfold mkBlockmap. cbn. rewrite lookup_empty. split; [done|].
    by intros [H _].
  - rewrite mkBlockmap_snoc.
    destruct (decide (eth.Num b = n)) as [Hn|Hn].
    + rewrite Hn, lookup_insert_eq. split.
      * intros [= <-]. split.
        -- rewrite lookup_app_r by lia. rewrite Nat.sub_diag. cbn. by rewrite Hn.
        -- intros j Hj. rewrite lookup_ge_None_2; [done|].
           rewrite length_app. simpl. lia.
      * intros [Hi Hlast]. f_equal.
        destruct ((bs ++ [b]) !! i) as [x|] eqn:Hx; [|done].
        apply lookup_lt_Some in Hx. rewrite length_app in Hx. simpl in Hx.
        destruct (decide (i = length bs)) as [->|Hne]; [done|].
        exfalso. apply (Hlast (length bs)); [lia|].
        rewrite lookup_app_r by lia. rewrite Nat.sub_diag. cbn. by rewrite Hn.
    + rewrite lookup_insert_ne by done. rewrite IH. split.
      * intros [Hi Hlast].
        assert (Hlt : (i < length bs)%nat).
        { destruct (bs !! i) eqn:Hx; [|done]. by apply lookup_lt_Some in Hx. }
        split; [by rewrite lookup_app_l|].
        intros j Hj. destruct (decide (j < length bs)%nat) as [Hjl|Hjl].
        -- rewrite lookup_app_l by done. by apply Hlast.
        -- destruct (decide (j = length bs)) as [->|Hne].
           ++ rewrite lookup_app_r by lia. rewrite Nat.sub_diag. cbn. congruence.
           ++ rewrite lookup_ge_None_2; [done|]. rewrite length_app. simpl. lia.
      * intros [Hi Hlast].
        assert (Hlt : (i < length bs)%nat).
        { destruct ((bs ++ [b]) !! i) as [x|] eqn:Hx; [|done].
          apply lookup_lt_Some in Hx as Hl. rewrite length_app in Hl.
          simpl in Hl.
          destruct (decide (i = length bs)) as [->|Hne]; [|lia].
          rewrite lookup_app_r in Hx by lia. rewrite Nat.sub_diag in Hx.
          cbn in Hx. injection Hx as <-. cbn in Hi. congruence. }
        rewrite lookup_app_l in Hi by done. split; [done|].
        intros j Hj. specialize (Hlast j Hj).
        destruct (decide (j < length bs)%nat) as [Hjl|Hjl].
        -- by rewrite lookup_app_l in Hlast.
        -- by rewrite lookup_ge_None_2 by lia.
Qed.

Lemma mkBlockmap_None (bs : list eth.Block) (n : Z) :
  mkBlockmap bs !! n = None <-> n ∉ eth.Num <$> bs.
Proof.
  induction bs as [|b bs IH] using rev_ind.
  - unfold mkBlockmap. cbn. rewrite lookup_empty. split; [|done].
    intros _ H. by apply elem_of_nil in H.
  - rewrite mkBlockmap_snoc, fmap_app, not_elem_of_app. cbn.
    destruct (decide (eth.Num b = n)) as [Hn|Hn].
    + rewrite Hn, lookup_insert_eq. split; [done|]. intros [_ H].
      exfalso. apply H. by left.
    + rewrite lookup_insert_ne by done. rewrite IH. split; [|by intros [H _]].
      intros H. split; [done|]. intros Hin.
      apply elem_of_cons in Hin as [Hin|Hin]; [congruence | by apply elem_of_nil in Hin].
Qed.

(** X15.  The blockmap [Get] builds leads from a number to the last
    block of the slice that carries it: a number no block carries is
    not in the map, and when two blocks carry the same number the
    enrichments reach the later one only. *)
Theorem blockmap_points_to_last (bs : list eth.Block) (n : Z) :
  (mkBlockmap bs !! n = None <-> n ∉ eth.Num <$> bs) /\
  (forall i : nat,
     mkBlockmap bs !! n = Some i <->
     eth.Num <$> bs !! i = Some n /\
     (forall j, (i < j)%nat -> eth.Num <$> bs !! j ≠ Some n)).
Proof. split; [apply mkBlockmap_None | apply mkBlockmap_lookup]. Qed.

Lemma synthetic_lookup start limit (i : nat) :
  synthetic start limit !! i =
    if decide (i < Z.to_nat limit)%nat
    then Some (eth.mkBlock (eth.mkHeader [] (wrap64 (start + Z.of_nat i)) []) [])
    else None.
Proof.
  unfold synthetic. rewrite list_lookup_fmap.
  destruct (decide (i < Z.to_nat limit)%nat) as [Hlt|Hge].
  - by rewrite lookup_seq_lt.
  - by rewrite lookup_seq_ge by lia.
Qed.

Lemma mkBlockmap_synthetic start limit n :
  is_uint64 start -> 0 <= limit -> start + limit <= 2 ^ 64 ->
  start <= n < start + limit ->
  mkBlockmap (synthetic start limit) !! n = Some (Z.to_nat (n - start)).
Proof.
  intros Hs Hl Hsum Hn. apply mkBlockmap_lookup. split.
  - rewrite synthetic_lookup, decide_True by lia. cbn. f_equal.
    rewrite wrap64_small; [lia | unfold is_uint64 in *; lia].
  - intros j Hj. rewrite synthetic_lookup.
    destruct (decide (j < Z.to_nat limit)%nat) as [Hlt|]; [|done].
    cbn. intros [= H]. rewrite wrap64_small in H; unfold is_uint64 in *; lia.
Qed.

(** *** The groups of [logs] *)

Lemma group_logs_spec start limit results : forall acc m,
  group_logs start limit results acc = inl m ->
  forall k, m !! k =
    match filter (λ r, log_key r = k) results with
    | [] => acc !! k
    | l => Some (default [] (acc !! k) ++ l)
    end.
Proof.
  induction results as [|r results IH]; intros acc m Hg k.
  - cbn in Hg. by injection Hg as <-.
  - cbn [group_logs] in Hg. destruct (_ || _); [done|].
    assert (Hg' : group_logs start limit results
                    (<[log_key r := default [] (acc !! log_key r) ++ [r]]> acc)
                  = inl m).
    { unfold log_key. by destruct (acc !! _). }
    rewrite (IH _ _ Hg' k).
    destruct (decide (log_key r = k)) as [Hk|Hk].
    + rewrite filter_cons_True by done. rewrite <- Hk, lookup_insert_eq.
      cbn [default from_option id].
      destruct (filter _ results) as [|x l]; [done|].
      by rewrite <- app_assoc.
    + rewrite filter_cons_False by done. by rewrite lookup_insert_ne.
Qed.

Lemma group_logs_in_range start limit results : forall acc m,
  group_logs start limit results acc = inl m ->
  Forall (λ r, ¬ log_out start limit (lrBlockNum r)) results.
Proof.
  induction results as [|r results IH]; intros acc m Hg; [done|].
  cbn [group_logs] in Hg. destruct (_ || _) eqn:Hout; [done|].
  constructor.
  - intros Ho. apply log_out_test in Ho. congruence.
  - destruct (acc !! _); by eapply IH.
Qed.

Lemma group_logs_total start limit results : forall acc,
  Forall (λ r, ¬ log_out start limit (lrBlockNum r)) results ->
  exists m, group_logs start limit results acc = inl m.
Proof.
  induction results as [|r results IH]; intros acc Hall; [by eexists|].
  apply Forall_cons in Hall as [Hr Hall]. cbn [group_logs].
  destruct (_ || _) eqn:Hout; [by apply log_out_test in Hout|].
  destruct (acc !! _); by apply IH.
Qed.

(** X16.  The first loop of [logs] succeeds exactly when every log lies
    within the range, and then the group of a key holds the logs of the
    response with that block number and transaction index, in response
    order; a key no log falls into is not in the map.  When it fails,
    the error names the first log out of range. *)
Theorem group_logs_groups_in_order (start limit : Z) (results : list logResult) :
  (forall m, group_logs start limit results ∅ = inl m <->
     Forall (λ r, ¬ log_out start limit (lrBlockNum r)) results /\
     forall k, m !! k = group_of (filter (λ r, log_key r = k) results)) /\
  (forall e, group_logs start limit results ∅ = inr e <->
     exists pre r post,
       results = pre ++ r :: post /\
       Forall (λ x, ¬ log_out start limit (lrBlockNum x)) pre /\
       log_out start limit (lrBlockNum r) /\
       e = ErrLogRange (lrBlockNum r) start limit).
Proof.
  split; [|intros e; apply group_logs_range].
  assert (Hspec : forall m, group_logs start limit results ∅ = inl m ->
            forall k, m !! k = group_of (filter (λ r, log_key r = k) results)).
  { intros m Hg k. rewrite (group_logs_spec _ _ _ _ _ Hg k), lookup_empty.
    by destruct (filter _ results). }
  intros m. split.
  - intros Hg. split; [by eapply group_logs_in_range | by apply Hspec].
  - intros [Hall Hm].
    destruct (group_logs_total start limit results ∅ Hall) as [m' Hg].
    rewrite Hg. f_equal. apply map_eq. intros k.
    by rewrite Hm, (Hspec m' Hg k).
Qed.

Lemma group_logs_key start limit results m k l :
  group_logs start limit results ∅ = inl m -> m !! k = Some l ->
  exists r, r ∈ results /\ log_key r = k /\
            ¬ log_out start limit (lrBlockNum r).
Proof.
  intros Hg Hk. rewrite (group_logs_spec _ _ _ _ _ Hg k), lookup_empty in Hk.
  destruct (filter _ results) as [|x rest] eqn:Hf; [done|].
  assert (Hx : x ∈ filter (λ r, log_key r = k) results)
    by (rewrite Hf; by left).
  apply list_elem_of_filter in Hx as [Hkx Hin].
  exists x. split; [done|]. split; [done|].
  pose proof (group_logs_in_range _ _ _ _ _ Hg) as Hall.
  by apply (proj1 (Forall_forall _ _) Hall).
Qed.

Lemma write_logs_error (bm : gmap Z nat) (m : gmap key (list logResult))
    (order : list key) : forall bs,
  ((write_logs bm m order bs).2 = None <->
   forall k, k ∈ order -> is_Some (m !! k) -> is_Some (bm !! k.1)) /\
  ((write_logs bm m order bs).2 ≠ None ->
   (write_logs bm m order bs).2 = Some ErrBlockNotFound).
Proof.
  induction order as [|k order IH]; intros bs.
  - cbn. split; [|done]. split; [|done]. intros _ k Hk.
    by apply elem_of_nil in Hk.
  - cbn [write_logs]. destruct (m !! k) as [l|] eqn:Hk.
    + destruct (bm !! k.1) as [i|] eqn:Hb.
      * destruct (IH (alter (write_log_group k l) i bs)) as [IH1 IH2].
        split; [|done]. rewrite IH1. split.
        -- intros H k' Hin Hs. apply elem_of_cons in Hin as [->|Hin];
             [by rewrite Hb | by apply H].
        -- intros H k' Hin. apply H. by right.
      * cbn [snd]. split; [|done]. split; [done|]. intros H.
        destruct (H k) as [? Hc]; [by left | by rewrite Hk |].
        by rewrite Hb in Hc.
    + destruct (IH bs) as [IH1 IH2]. split; [|done]. rewrite IH1. split.
      * intros H k' Hin Hs. apply elem_of_cons in Hin as [->|Hin];
          [by rewrite Hk in Hs; destruct Hs | by apply H].
      * intros H k' Hin. apply H. by right.
Qed.

(** X17.  Whether [logs] fails, and with which error, does not depend
    on the order in which Go ranges over the groups, nor on what the
    blocks hold: two orders over the same keys give the same error. *)
Theorem logs_error_independent_of_order (url : string) (filter : Filter)
    (bm : gmap Z nat) (start limit : Z) (resp : do_result (headerResp * logResp))
    (order1 order2 : list key) (bs1 bs2 : list eth.Block) :
  (forall k, k ∈ order1 <-> k ∈ order2) ->
  (logs url filter bm start limit resp order1 bs1).1.2
  = (logs url filter bm start limit resp order2 bs2).1.2.
Proof.
  intros Hsame. unfold logs. destruct resp as [e|[hresp lresp]]; [done|].
  destruct (Exists (hrError hresp)); [done|].
  destruct (Exists (lgError lresp)); [done|].
  destruct (hrHeader hresp); [|done].
  destruct (group_logs start limit (lgResult lresp) ∅) as [m|e]; [|done].
  cbn [fst snd].
  destruct (write_logs_error bm m order1 bs1) as [H1 H1'].
  destruct (write_logs_error bm m order2 bs2) as [H2 H2'].
  destruct ((write_logs bm m order1 bs1).2) as [e1|] eqn:E1.
  - rewrite H1' by done.
    destruct ((write_logs bm m order2 bs2).2) as [e2|] eqn:E2;
      [by rewrite H2'|].
    exfalso. pose proof (proj1 H2 eq_refl) as Hn.
    assert (Hc : Some e1 = None); [|done].
    apply H1. intros k Hk. apply Hn. by apply Hsame.
  - destruct ((write_logs bm m order2 bs2).2) as [e2|] eqn:E2; [|done].
    exfalso. pose proof (proj1 H1 eq_refl) as Hn.
    assert (Hc : Some e2 = None); [|done].
    apply H2. intros k Hk. apply Hn. by apply Hsame.
Qed.

Lemma logs_error_independent_of_order_witness :
  (logs "u" noFilter (mkBlockmap two_blocks) 100 2
     (DoOk (present, mkLogResp noError [log_for 100 0 hashA; log_for 101 1 hashB]))
     [(100, 0); (101, 1)] two_blocks).1.2
  = (logs "u" noFilter (mkBlockmap two_blocks) 100 2
     (DoOk (present, mkLogResp noError [log_for 100 0 hashA; log_for 101 1 hashB]))
     [(101, 1); (100, 0)] two_blocks).1.2.
Proof.
  apply (logs_error_independent_of_order "u" noFilter (mkBlockmap two_blocks)
           100 2 _ [(100, 0); (101, 1)] [(101, 1); (100, 0)]).
  intros k. rewrite !elem_of_cons. split; intros [H|[H|H]]; auto;
    by apply elem_of_nil in H.
Defined.

(** *** Enrichment of synthetic blocks *)

Lemma wrap64_overflow start limit :
  is_uint64 start -> is_uint64 limit -> 2 ^ 64 <= start + limit ->
  wrap64 (start + limit) < start.
Proof.
  unfold is_uint64, wrap64. intros Hs Hl Ho.
  replace (start + limit) with ((start + limit - 2 ^ 64) + 1 * 2 ^ 64) by lia.
  rewrite Z.mod_add by lia. rewrite Z.mod_small; lia.
Qed.

Lemma synthetic_in_range start limit n :
  is_uint64 start -> is_uint64 limit ->
  start <= n < wrap64 (start + limit) ->
  is_Some (mkBlockmap (synthetic start limit) !! n).
Proof.
  intros Hs Hl Hn. destruct (decide (start + limit < 2 ^ 64)) as [Hlt|Hge].
  - rewrite wrap64_small in Hn by (unfold is_uint64 in *; lia).
    unfold is_uint64 in Hl.
    rewrite mkBlockmap_synthetic by (done || lia). done.
  - pose proof (wrap64_overflow start limit Hs Hl). lia.
Qed.

Lemma logs_synthetic_finds url filter start limit resp order bs :
  is_uint64 start -> is_uint64 limit ->
  (logs url filter (mkBlockmap (synthetic start limit)) start limit resp
     order bs).1.2 ≠ Some ErrBlockNotFound.
Proof.
  intros Hs Hl. unfold logs. destruct resp as [e|[hresp lresp]]; [done|].
  destruct (Exists (hrError hresp)); [done|].
  destruct (Exists (lgError lresp)); [done|].
  destruct (hrHeader hresp); [|done].
  destruct (group_logs start limit (lgResult lresp) ∅) as [m|e] eqn:Hg.
  - cbn [fst snd].
    destruct (write_logs_error (mkBlockmap (synthetic start limit)) m order bs)
      as [H1 _].
    rewrite (proj2 H1); [done|].
    intros k _ [l Hk].
    destruct (group_logs_key _ _ _ _ _ _ Hg Hk) as (r & _ & <- & Hin).
    apply synthetic_in_range; [done..|]. unfold log_out in Hin. cbn. lia.
  - apply group_logs_range in Hg as (? & ? & ? & _ & _ & _ & ->). done.
Qed.

Lemma receipts_loop_not_found bm start limit resps : forall bs,
  (receipts_loop bm start limit resps bs).2 = Some ErrBlockNotFound ->
  exists r r0, r ∈ resps /\ head (rrResult r) = Some r0 /\
               ¬ receipt_out start limit (rBlockNum r0) /\
               bm !! rBlockNum r0 = None.
Proof.
  induction resps as [|r resps IH]; intros bs; [done|].
  cbn [receipts_loop].
  assert (Hrest : forall bs',
    (receipts_loop bm start limit resps bs').2 = Some ErrBlockNotFound ->
    exists r' r0, r' ∈ r :: resps /\ head (rrResult r') = Some r0 /\
                  ¬ receipt_out start limit (rBlockNum r0) /\
                  bm !! rBlockNum r0 = None).
  { intros bs' H. destruct (IH bs' H) as (r' & r0 & Hin & Hrest).
    exists r', r0. split; [by right | done]. }
  destruct (rrResult r) as [|r0 more] eqn:Hr; [apply Hrest|].
  destruct (_ || _) eqn:Hout; [done|].
  destruct (bm !! rBlockNum r0) eqn:Hb; [apply Hrest|].
  intros _. exists r, r0. split; [by left|]. rewrite Hr. split; [done|].
  split; [|done]. intros Ho. apply receipt_out_test in Ho. congruence.
Qed.

Lemma finish_err r before : (finish r before).1.2 = r.1.2.
Proof. by destruct r as [[bs [e|]] evs]. Qed.

(** X18.  On the blocks [Get] makes up itself (neither blocks nor
    headers asked for, 64-bit [start] and [limit]) the enrichment with
    logs never fails with "block not found": every log that passes the
    range check has its block.  The enrichment with receipts does, and
    only for a response whose first receipt reports the block
    [start + limit], one past the last block asked for. *)
Theorem synthetic_block_not_found (c : Client) (url : string) (filter : Filter)
    (start limit : Z) (e : env) :
  is_uint64 start -> is_uint64 limit ->
  UseBlocks filter = false -> UseHeaders filter = false ->
  (Get c url filter start limit e).2.1.2
    ≠ Some (ErrWrap "getting logs" ErrBlockNotFound) /\
  ((Get c url filter start limit e).2.1.2
     = Some (ErrWrap "getting receipts" ErrBlockNotFound) ->
   start + limit < 2 ^ 64 /\
   exists resps r r0,
     e_receipts e = DoOk resps /\ r ∈ resps /\
     head (rrResult r) = Some r0 /\ rBlockNum r0 = start + limit).
Proof.
  intros Hs Hl HB HH. unfold Get. rewrite HB, HH. cbn [snd].
  rewrite finish_err. unfold enrich.
  destruct (UseReceipts filter).
  - destruct (receipts _ _ _ _ _ _) as [[bs' err] evs] eqn:Hr. cbn [fst snd].
    split; [by destruct err|]. intros He.
    assert (Herr : err = Some ErrBlockNotFound).
    { destruct err as [x|]; [|done]. cbn in He. by injection He as ->. }
    subst err. unfold receipts in Hr.
    destruct (e_receipts e) as [x|resps]; [by injection Hr|].
    destruct (first_error _); [by injection Hr|].
    assert (Hl2 : (receipts_loop (mkBlockmap (synthetic start limit)) start
                     limit resps (synthetic start limit)).2
                  = Some ErrBlockNotFound).
    { destruct (receipts_loop _ _ _ _ _). by injection Hr as <- <- _. }
    apply receipts_loop_not_found in Hl2 as (r & r0 & Hin & Hh & Hout & Hnone).
    unfold receipt_out in Hout.
    destruct (decide (start + limit < 2 ^ 64)) as [Hlt|Hge].
    + split; [done|]. exists resps, r, r0. repeat split; try done.
      rewrite wrap64_small in Hout by (unfold is_uint64 in *; lia).
      destruct (decide (rBlockNum r0 = start + limit)) as [|Hne]; [done|].
      unfold is_uint64 in Hl.
      rewrite mkBlockmap_synthetic in Hnone by (done || lia). done.
    + pose proof (wrap64_overflow start limit Hs Hl). lia.
  - destruct (UseLogs filter).
    + pose proof (logs_synthetic_finds url filter start limit (e_logs e)
                    (e_logorder e) (synthetic start limit) Hs Hl) as Hlg.
      destruct (logs _ _ _ _ _ _ _ _) as [[bs' err] evs]. cbn [fst snd] in *.
      split; [|by destruct err]. destruct err as [x|]; [|done]. cbn.
      intros [= ->]. done.
    + destruct (UseTraces filter); [|done].
      destruct (traces _ _ _ _ _ _ _) as [[bs' err] evs]. cbn [fst snd].
      split; by destruct err.
Qed.

Lemma synthetic_block_not_found_witness :
  (Get three "u" (mkFilter false false true false false [] []) 100 2
     (world [] [mkReceiptResp noError [receipt_for 102 0 hashA]])).2.1.2
     = Some (ErrWrap "getting receipts" ErrBlockNotFound) /\
  100 + 2 < 2 ^ 64.
Proof.
  assert (H : (Get three "u" (mkFilter false false true false false [] []) 100 2
     (world [] [mkReceiptResp noError [receipt_for 102 0 hashA]])).2.1.2
     = Some (ErrWrap "getting receipts" ErrBlockNotFound)).
  { vm_compute. reflexivity. }
  split; [exact H|].
  apply (proj2 (synthetic_block_not_found three "u"
           (mkFilter false false true false false [] []) 100 2
           (world [] [mkReceiptResp noError [receipt_for 102 0 hashA]])
           ltac:(unfold is_uint64; lia) ltac:(unfold is_uint64; lia)
           eq_refl eq_refl) H).
Defined.

(** *** A request for no block *)

Lemma blocks_zero_limit resp url start :
  f_err (blocks resp url start 0) ≠ None /\
  f_events (blocks resp url start 0) = [EvDo url []].
Proof.
  unfold blocks. destruct resp as [e|resps]; [done|].
  by destruct (first_error _).
Qed.

Lemma headers_zero_limit resp url start :
  f_err (headers resp url start 0) ≠ None /\
  f_events (headers resp url start 0) = [EvDo url []].
Proof.
  unfold headers. destruct resp as [e|resps]; [done|].
  by destruct (first_error _).
Qed.

Lemma get_error_passes c nocache url start limit f order :
  f_err (f url start limit) ≠ None ->
  (forall seg, cache.segments c !! (start, limit) = Some seg ->
               cache.done seg = false) ->
  f_err (cache.get c nocache url start limit f order).2 ≠ None /\
  f_events (cache.get c nocache url start limit f order).2
    = f_events (f url start limit).
Proof.
  intros Hf Hc. destruct nocache; [done|].
  destruct (inserted_lookup_key c start limit) as [seg Hseg].
  assert (Hd : cache.done seg = false).
  { apply inserted_lookup in Hseg as Hs. destruct Hs as [[Hs _]|[_ ->]];
      [by apply Hc | done]. }
  rewrite (get_unfinished c url start limit f order seg Hseg Hd).
  cbn [snd]. unfold fetch_through.
  by destruct (f_err (f url start limit)).
Qed.

Lemma table_numbered_zero segs start seg :
  table_numbered segs -> segs !! (start, 0) = Some seg ->
  cache.done seg = false.
Proof.
  intros Ht Hs. destruct (cache.done seg) eqn:Hd; [|done].
  destruct (Ht _ _ Hs Hd) as [(Hlen & _) Hne]. cbn in Hlen.
  by destruct (cache.d seg).
Qed.

(** X19.  A [Get] for no block ([limit] 0): when blocks or headers are
    asked for it always fails, after sending one empty batch and
    nothing else (no such segment is ever served from the table);
    otherwise it returns no block. *)
Theorem Get_zero_limit (c : Client) (url : string) (filter : Filter)
    (start : Z) (e : env) :
  table_numbered (cache.segments (bcache c)) ->
  table_numbered (cache.segments (hcache c)) ->
  (Get c url filter start 0 e).2.1.1 = [] /\
  (UseBlocks filter = true \/ UseHeaders filter = true ->
   (Get c url filter start 0 e).2.1.2 ≠ None /\
   (Get c url filter start 0 e).2.2 = [EvDo url []]).
Proof.
  intros Hb Hh. unfold Get.
  destruct (UseBlocks filter) eqn:HB; [|destruct (UseHeaders filter) eqn:HH].
  - destruct (blocks_zero_limit (e_blocks e) url start) as [Hf Hev].
    destruct (get_error_passes (bcache c) (nocache c) url start 0
                (blocks (e_blocks e)) (e_sorted e) Hf) as [Hg1 Hg2].
    { intros seg. by apply table_numbered_zero. }
    destruct (cache.get (bcache c) _ _ _ _ _ _) as [bc r]. cbn [snd] in *.
    destruct (f_err r) as [err|]; [|done]. cbn [fst snd].
    split; [done|]. intros _. split; [done|]. by rewrite Hg2, Hev.
  - destruct (headers_zero_limit (e_headers e) url start) as [Hf Hev].
    destruct (get_error_passes (hcache c) (nocache c) url start 0
                (headers (e_headers e)) (e_sorted e) Hf) as [Hg1 Hg2].
    { intros seg. by apply table_numbered_zero. }
    destruct (cache.get (hcache c) _ _ _ _ _ _) as [hc r]. cbn [snd] in *.
    destruct (f_err r) as [err|]; [|done]. cbn [fst snd].
    split; [done|]. intros _. split; [done|]. by rewrite Hg2, Hev.
  - cbn [snd]. split; [|by intros [?|?]].
    pose proof (enrich_frame url filter start 0 e (synthetic start 0)) as Hf.
    unfold finish.
    destruct (enrich url filter start 0 e (synthetic start 0))
      as [[bs' [e'|]] evs]; cbn [fst snd] in *; [done|].
    by destruct bs'.
Qed.

Lemma Get_zero_limit_witness :
  (Get three "u" onlyBlocks 100 0 (world chain2 [])).2.1.1 = [].
Proof.
  apply (Get_zero_limit three "u" onlyBlocks 100 (world chain2 []));
    intros k seg Hk; vm_compute in Hk; discriminate Hk.
Defined.

(** *** The requests of [traces] *)

Lemma traces_loop_ok url bm start resp order idxs : forall bs,
  Forall (λ i, trace_failure bm (resp i) = None) idxs ->
  (traces_loop url bm start resp order idxs bs).1.2 = None /\
  (traces_loop url bm start resp order idxs bs).2
    = trace_request url start <$> idxs.
Proof.
  induction idxs as [|i idxs IH]; intros bs Hall; [done|].
  apply Forall_cons in Hall as [Hi Hall]. cbn [traces_loop].
  unfold trace_failure in Hi. destruct (resp i) as [e|res]; [done|].
  destruct (Exists _); [done|]. destruct (trResult res) as [|r0 more]; [done|].
  destruct (bm !! _) as [j|]; [|done].
  destruct (IH (alter (trace_block r0 (r0 :: more) (order i)) j bs) Hall)
    as [IH1 IH2].
  destruct (traces_loop _ _ _ _ _ _ _) as [[bs' e'] evs]. cbn [fst snd] in *.
  split; [done|]. by rewrite IH2.
Qed.

Lemma traces_loop_fail url bm start resp order pre i post e : forall bs,
  Forall (λ j, trace_failure bm (resp j) = None) pre ->
  trace_failure bm (resp i) = Some e ->
  (traces_loop url bm start resp order (pre ++ i :: post) bs).1.2 = Some e /\
  (traces_loop url bm start resp order (pre ++ i :: post) bs).2
    = trace_request url start <$> (pre ++ [i]).
Proof.
  induction pre as [|p pre IH]; intros bs Hall Hi.
  - cbn [app traces_loop]. unfold trace_failure in Hi.
    destruct (resp i) as [x|res]; [by injection Hi as <-|].
    destruct (Exists _); [by injection Hi as <-|].
    destruct (trResult res) as [|r0 more]; [by injection Hi as <-|].
    destruct (bm !! _) as [j|]; [done | by injection Hi as <-].
  - apply Forall_cons in Hall as [Hp Hall].
    rewrite <- !app_comm_cons. cbn [traces_loop].
    unfold trace_failure in Hp. destruct (resp p) as [x|res]; [done|].
    destruct (Exists _); [done|].
    destruct (trResult res) as [|r0 more]; [done|].
    destruct (bm !! _) as [j|]; [|done].
    destruct (IH (alter (trace_block r0 (r0 :: more) (order p)) j bs) Hall Hi)
      as [IH1 IH2].
    destruct (traces_loop _ _ _ _ _ _ _) as [[bs' e'] evs]. cbn [fst snd] in *.
    split; [done|]. by rewrite IH2.
Qed.

(** X20.  [traces] asks for one block after the other, in ascending
    order, and stops at the first response it cannot use: when no
    response fails it has sent [limit] requests and returns no error;
    otherwise it returns the error of the first failing response [i]
    and has sent the requests for the offsets 0 to [i] only. *)
Theorem traces_stops_at_first_failure (url : string) (bm : gmap Z nat)
    (start limit : Z) (resp : nat -> do_result traceBlockResp)
    (order : nat -> list key) (bs : list eth.Block) :
  ((forall i, (i < Z.to_nat limit)%nat -> trace_failure bm (resp i) = None) ->
   (traces url bm start limit resp order bs).1.2 = None /\
   (traces url bm start limit resp order bs).2
     = trace_request url start <$> seq 0 (Z.to_nat limit)) /\
  (forall i e,
     (i < Z.to_nat limit)%nat ->
     (forall j, (j < i)%nat -> trace_failure bm (resp j) = None) ->
     trace_failure bm (resp i) = Some e ->
     (traces url bm start limit resp order bs).1.2 = Some e /\
     (traces url bm start limit resp order bs).2
       = trace_request url start <$> seq 0 (S i)).
Proof.
  unfold traces. split.
  - intros Hall. apply traces_loop_ok. apply Forall_forall. intros i Hi.
    apply elem_of_seq in Hi. apply Hall. lia.
  - intros i e Hi Hpre Hfail.
    replace (seq 0 (S i)) with (seq 0 i ++ [i]) by (by rewrite seq_S).
    replace (Z.to_nat limit) with (i + S (Z.to_nat limit - S i))%nat by lia.
    rewrite seq_app.
    apply (traces_loop_fail url bm start resp order (seq 0 i) i
             (seq (S i) (Z.to_nat limit - S i)) e bs); [|done].
    apply Forall_forall. intros j Hj.
    apply elem_of_seq in Hj. apply Hpre. lia.
Qed.

(** *** [Get] without the cache *)

Lemma set_bcache_id c : set_bcache c (bcache c) = c.
Proof. by destruct c. Qed.

Lemma set_hcache_id c : set_hcache c (hcache c) = c.
Proof. by destruct c. Qed.

(** X21.  With [nocache] set, [Get] leaves the client as it was (no
    segment is stored, no read is counted) and its result does not
    depend on what the tables hold. *)
Theorem Get_nocache_leaves_client (c : Client) (url : string) (filter : Filter)
    (start limit : Z) (e : env) :
  nocache c = true ->
  (Get c url filter start limit e).1 = c /\
  (forall c', nocache c' = true ->
     (Get c' url filter start limit e).2 = (Get c url filter start limit e).2).
Proof.
  intros Hn.
  assert (Hshape : forall x, nocache x = true ->
    Get x url filter start limit e =
      (x,
       if UseBlocks filter then
         let r := blocks (e_blocks e) url start limit in
         match f_err r with
         | Some err => ([], Some (ErrWrap "getting blocks" err), f_events r)
         | None => finish (enrich url filter start limit e (f_blocks r))
                     (f_events r)
         end
       else if UseHeaders filter then
         let r := headers (e_headers e) url start limit in
         match f_err r with
         | Some err => ([], Some (ErrWrap "getting headers" err), f_events r)
         | None => finish (enrich url filter start limit e (f_blocks r))
                     (f_events r)
         end
       else finish (enrich url filter start limit e (synthetic start limit)) [])).
  { intros x Hx. unfold Get. rewrite Hx. unfold cache.get. cbv zeta.
    destruct (UseBlocks filter); [|destruct (UseHeaders filter)].
    - destruct (f_err _); by rewrite set_bcache_id.
    - destruct (f_err _); by rewrite set_hcache_id.
    - done. }
  rewrite (Hshape c Hn). split; [done|]. intros c' Hn'.
  by rewrite (Hshape c' Hn').
Qed.

Lemma Get_nocache_leaves_client_witness :
  (Get (mkClient true false [urlA] "" 0 second warm five five) "u" onlyBlocks
     200 1 (world [mkBlockResp noError (Some (blk 200 hashB hashC))] [])).1
  = mkClient true false [urlA] "" 0 second warm five five.
Proof.
  apply (Get_nocache_leaves_client
           (mkClient true false [urlA] "" 0 second warm five five)).
  reflexivity.
Defined.

(** *** What [traces] writes *)

Lemma group_traces_spec num results : forall acc k,
  group_traces num results acc !! k =
    match filter (λ r, (num, tTxIdx r) = k) results with
    | [] => acc !! k
    | l => Some (default [] (acc !! k) ++ l)
    end.
Proof.
  induction results as [|r results IH]; intros acc k; [done|].
  cbn [group_traces].
  assert (Hg : forall acc',
    acc' = <[(num, tTxIdx r) := default [] (acc !! (num, tTxIdx r)) ++ [r]]> acc ->
    group_traces num results acc' !! k =
      match filter (λ r0, (num, tTxIdx r0) = k) (r :: results) with
      | [] => acc !! k
      | l => Some (default [] (acc !! k) ++ l)
      end).
  { intros acc' ->. rewrite IH.
    destruct (decide ((num, tTxIdx r) = k)) as [Hk|Hk].
    - rewrite filter_cons_True by done. rewrite <- Hk, lookup_insert_eq.
      cbn [default from_option id].
      destruct (filter _ results) as [|x l]; [done|].
      by rewrite <- app_assoc.
    - rewrite filter_cons_False by done. by rewrite lookup_insert_ne. }
  destruct (acc !! (num, tTxIdx r)) eqn:Ha; by apply Hg.
Qed.

Lemma set_traces_Idx ts t : eth.Idx (set_traces ts t) = eth.Idx t.
Proof. done. Qed.

Lemma updTx_slot b idx (f : eth.Tx -> eth.Tx) :
  (forall t, eth.Idx (f t) = eth.Idx t) ->
  exists t, eth.Idx t = idx /\ slot (eth.updTx b idx f) idx (f t).
Proof.
  intros Hf. unfold slot, eth.updTx, eth.TxAt.
  destruct (eth.findTx idx (eth.Txs b)) as [j|] eqn:Hj; simpl.
  - destruct (findTx_Some _ _ _ Hj) as (t & Ht & Hi).
    exists t. split; [done|]. exists j. rewrite findTx_alter by done.
    split; [done|]. by rewrite list_lookup_alter_eq, Ht.
  - exists (eth.emptyTx idx). split; [done|]. exists (length (eth.Txs b)).
    rewrite findTx_alter by done. rewrite findTx_app_None by done. simpl.
    rewrite Z.eqb_refl. split; [done|].
    rewrite list_lookup_alter_eq, lookup_app_r by lia.
    by rewrite Nat.sub_diag.
Qed.

Lemma updTx_slot_ne b idx idx' (f : eth.Tx -> eth.Tx) tx :
  (forall t, eth.Idx (f t) = eth.Idx t) ->
  idx' ≠ idx -> slot b idx tx -> slot (eth.updTx b idx' f) idx tx.
Proof.
  intros Hf Hne (j & Hj & Ht). unfold slot, eth.updTx, eth.TxAt.
  destruct (findTx_Some _ _ _ Hj) as (t & Ht' & Hidx).
  rewrite Ht in Ht'. injection Ht' as <-.
  destruct (eth.findTx idx' (eth.Txs b)) as [i|] eqn:Hi; simpl;
    exists j; rewrite findTx_alter by done.
  - split; [done|]. rewrite list_lookup_alter_ne; [done|]. intros ->.
    destruct (findTx_Some _ _ _ Hi) as (t' & Ht' & Hidx').
    rewrite Ht in Ht'. injection Ht' as <-. congruence.
  - split; [by apply findTx_app_Some|].
    pose proof (lookup_lt_Some _ _ _ Ht) as Hlt.
    rewrite list_lookup_alter_ne by lia. by rewrite lookup_app_l.
Qed.

Lemma write_traces_keeps (m : gmap key (list traceBlockResult))
    (order : list key) idx tx : forall b,
  (forall k, k ∈ order -> is_Some (m !! k) -> k.2 ≠ idx) ->
  slot b idx tx -> slot (write_traces m order b) idx tx.
Proof.
  induction order as [|k order IH]; intros b Hne Hs; [done|].
  cbn [write_traces]. destruct (m !! k) as [ts|] eqn:Hk.
  - apply IH; [intros k' Hk'; apply Hne; by right|].
    apply updTx_slot_ne; [apply set_traces_Idx| |done].
    apply Hne; [by left | by rewrite Hk].
  - apply IH; [|done]. intros k' Hk'. apply Hne. by right.
Qed.

Lemma write_traces_sets (m : gmap key (list traceBlockResult))
    (order : list key) (k : key) ts : forall b,
  NoDup order -> k ∈ order -> m !! k = Some ts ->
  (forall k', is_Some (m !! k') -> k'.1 = k.1) ->
  exists t, eth.Idx t = k.2 /\
            slot (write_traces m order b) k.2 (set_traces ts t).
Proof.
  induction order as [|k0 order IH]; intros b Hnd Hin Hk Hnum.
  - by apply elem_of_nil in Hin.
  - apply NoDup_cons in Hnd as [Hk0 Hnd]. cbn [write_traces].
    destruct (decide (k0 = k)) as [->|Hne].
    + rewrite Hk.
      destruct (updTx_slot b k.2 (set_traces ts) (set_traces_Idx ts))
        as (t & Hi & Hs).
      exists t. split; [done|]. apply write_traces_keeps; [|done].
      intros k' Hk' Hsome Heq. apply Hk0.
      assert (k' = k); [|by subst].
      destruct k' as [a1 b1], k as [a2 b2]. cbn in *.
      f_equal; [by apply (Hnum (a1, b1)) | done].
    + apply elem_of_cons in Hin as [->|Hin]; [done|].
      destruct (m !! k0); by apply IH.
Qed.

(** X22.  What [traces] writes to a block for one response.  The block
    takes the block hash of the first trace and keeps its number and
    parent hash.  For every transaction index [idx] that some trace of
    the response carries, the transaction [Block.Tx] finds for [idx]
    ends up with exactly the actions of the traces with that index, in
    response order and numbered from 0 within the transaction, and with
    the transaction hash of the first of them; the block number a
    trace reports plays no part. *)
Theorem trace_block_writes (r0 : traceBlockResult)
    (results : list traceBlockResult) (order : list key) (b : eth.Block)
    (idx : Z) :
  NoDup order ->
  (eth.Num b, idx) ∈ order ->
  (exists r, r ∈ results /\ tTxIdx r = idx) ->
  eth.BlockHash (trace_block r0 results order b) = tBlockHash r0 /\
  frame (trace_block r0 results order b) = frame b /\
  exists tx,
    slot (trace_block r0 results order b) idx tx /\
    eth.Idx tx = idx /\
    eth.TraceActions tx
      = imap set_idx (filter (λ r, tTxIdx r = idx) results) /\
    eth.PrecompHash tx
      = default [] (tTxHash <$> head (filter (λ r, tTxIdx r = idx) results)).
Proof.
  intros Hnd Hin (r & Hr & Hidx).
  split; [|split; [apply frame_trace_block|]].
  { unfold trace_block, eth.BlockHash. by rewrite write_traces_header. }
  unfold trace_block.
  set (b1 := eth.withHash (tBlockHash r0) b).
  set (m := group_traces (eth.Num b1) results ∅).
  set (ts := filter (λ r, tTxIdx r = idx) results).
  assert (Hfilter : forall i,
            filter (λ r1, (eth.Num b1, tTxIdx r1) = (eth.Num b1, i)) results
            = filter (λ r1, tTxIdx r1 = i) results).
  { intros i. apply list_filter_iff. intros x. split; [by intros [= ->]|].
    by intros ->. }
  assert (Hts : m !! (eth.Num b1, idx) = Some ts).
  { subst m. rewrite group_traces_spec, lookup_empty, Hfilter. fold ts.
    assert (Hne : r ∈ ts) by (by apply list_elem_of_filter).
    destruct ts; [by apply elem_of_nil in Hne | done]. }
  assert (Hkeys : forall k', is_Some (m !! k') -> k'.1 = eth.Num b1).
  { intros [a i] [l Hl]. subst m.
    rewrite group_traces_spec, lookup_empty in Hl.
    destruct (filter (λ r1, (eth.Num b1, tTxIdx r1) = (a, i)) results)
      as [|x rest] eqn:Hf; [done|].
    assert (Hx : x ∈ filter (λ r1, (eth.Num b1, tTxIdx r1) = (a, i)) results)
      by (rewrite Hf; by left).
    apply list_elem_of_filter in Hx as [Hx _]. by injection Hx. }
  destruct (write_traces_sets m order (eth.Num b1, idx) ts b1 Hnd Hin Hts Hkeys)
    as (t & Hi & Hs).
  exists (set_traces ts t). split; [done|]. split; [done|]. split; [done|].
  cbn. unfold eth.Write. done.
Qed.

Lemma trace_block_writes_witness :
  eth.BlockHash
    (trace_block (trace_for 100 0 hashA "call") three_traces
       [(100, 1); (100, 0)] (blk 100 hashC hashC))
  = tBlockHash (trace_for 100 0 hashA "call").
Proof.
  apply (trace_block_writes (trace_for 100 0 hashA "call") three_traces
           [(100, 1); (100, 0)] (blk 100 hashC hashC) 0).
  - apply (bool_decide_unpack _). vm_compute. exact I.
  - apply (bool_decide_unpack _). vm_compute. exact I.
  - exists (trace_for 100 0 hashA "call"). split; [left|reflexivity].
Defined.

(** *** A result that is missing *)

Lemma slots_missing {A B} (zero : B) (pick : A -> option B) limit
    (resps : list A) (i : nat) :
  (i < Z.to_nat limit)%nat -> resps !! i ≫= pick = None ->
  slots zero pick limit resps !! i = Some zero.
Proof.
  intros Hi Hp. unfold slots. rewrite list_lookup_fmap, lookup_seq_lt by done.
  cbn. by rewrite Hp.
Qed.

(** X23.  A response of the block batch that is missing or carries a
    null result, with no error in the batch, leaves the zero block
    (number 0, empty hash and parent) in its slot, and only [validate]
    can object: the fetch then succeeds only if the slot is not the
    first one unless [start] is 0, and the block before it has an empty
    hash.  Asked for block 0 alone, [blocks] returns the zero block
    without error. *)
Theorem missing_result_is_zero_block (resps : list blockResp) (url : string)
    (start limit : Z) (i : nat) :
  first_error (brError <$> resps) = None ->
  (i < Z.to_nat limit)%nat ->
  resps !! i ≫= brBlock = None ->
  f_blocks (blocks (DoOk resps) url start limit) !! i = Some eth.zeroBlock /\
  (f_err (blocks (DoOk resps) url start limit) = None ->
   (i = 0%nat -> start = 0) /\
   (forall j prev,
      i = S j ->
      f_blocks (blocks (DoOk resps) url start limit) !! j = Some prev ->
      eth.BlockHash prev = [])) /\
  (start = 0 -> limit = 1 ->
   f_err (blocks (DoOk resps) url start limit) = None /\
   f_blocks (blocks (DoOk resps) url start limit) = [eth.zeroBlock]).
Proof.
  intros He Hi Hp. unfold blocks. rewrite He. cbn [f_blocks f_err].
  pose proof (slots_missing eth.zeroBlock brBlock limit resps i Hi Hp) as Hz.
  split; [done|]. split.
  - intros Hv. apply validate_None in Hv as (_ & H0 & _ & Hl). split.
    + intros ->. rewrite Hz in H0. by injection H0.
    + intros j prev -> Hj. symmetry. apply (Hl j prev eth.zeroBlock Hj Hz).
  - intros -> ->.
    assert (Hs : slots eth.zeroBlock brBlock 1 resps = [eth.zeroBlock]).
    { assert (i = 0%nat) as -> by (simpl in Hi; lia).
      apply list_eq. intros [|j]; [exact Hz|].
      apply lookup_ge_None_2. rewrite slots_length. simpl. lia. }
    by rewrite Hs.
Qed.

Lemma missing_result_is_zero_block_witness :
  f_blocks (blocks (DoOk [mkBlockResp noError None]) "u" 0 1) !! 0%nat
  = Some eth.zeroBlock.
Proof.
  apply (missing_result_is_zero_block [mkBlockResp noError None] "u" 0 1 0).
  - reflexivity.
  - simpl. lia.
  - reflexivity.
Defined.

(** *** The refresher is launched once *)

Lemma Latest_shape c url n resp :
  NumHash.err (lcache c) = None ->
  exists lc reqs,
    NumHash.err lc = None /\ NumHash.once lc = true /\
    (Latest c url n resp).1.1 = set_lcache c lc /\
    Forall (λ ev, is_launch ev = false) reqs /\
    (Latest c url n resp).2 =
      (if NumHash.once (lcache c) then []
       else if decide (wsurl c = "") then [EvLaunchPoll url] else [EvLaunchWS])
      ++ reqs.
Proof.
  intros He. unfold Latest.
  set (launch := if NumHash.once (lcache c) then [] else _).
  set (lc1 := NumHash.mk _ true _ _ _ _).
  assert (Hg : NumHash.err (NumHash.get lc1 n).1 = None /\
               NumHash.once (NumHash.get lc1 n).1 = true).
  { unfold NumHash.get. subst lc1. cbn [NumHash.err]. rewrite He.
    destruct (_ || _); [done|]. by destruct (_ <=? _). }
  destruct (NumHash.get lc1 n) as [lc2 [[num h] ok]]. cbn [fst] in Hg.
  destruct Hg as [Hg1 Hg2].
  destruct ok.
  { exists lc2, []. cbn [fst snd]. by rewrite app_nil_r. }
  assert (Hreq : Forall (λ ev, is_launch ev = false) [EvDo url [latest_request]])
    by (by constructor).
  destruct resp as [e0|hresp]; [by exists lc2, [EvDo url [latest_request]]|].
  destruct (Exists (hrError hresp));
    [by exists lc2, [EvDo url [latest_request]]|].
  destruct (hrHeader hresp) as [hd|];
    [|by exists lc2, [EvDo url [latest_request]]].
  exists (NumHash.update lc2 (eth.Number hd) (eth.Hash hd)),
         [EvDo url [latest_request]].
  cbn [fst snd]. unfold NumHash.update. by destruct (_ <=? _).
Qed.

Lemma filter_launch_none (evs : list event) :
  Forall (λ ev, is_launch ev = false) evs ->
  filter (λ ev, is_launch ev = true) evs = [].
Proof.
  induction 1 as [|ev evs Hev _ IH]; [done|].
  rewrite filter_cons_False; [done|]. by rewrite Hev.
Qed.

Lemma Latests_quiet calls : forall c,
  NumHash.err (lcache c) = None -> NumHash.once (lcache c) = true ->
  filter (λ ev, is_launch ev = true) (Latests c calls).2 = [].
Proof.
  induction calls as [|[[url n] resp] calls IH]; intros c He Ho; [done|].
  cbn [Latests].
  destruct (Latest_shape c url n resp He) as (lc & reqs & H1 & H2 & H3 & H4 & H5).
  rewrite Ho in H5. cbn [app] in H5.
  destruct (Latest c url n resp) as [[c1 out] evs]. cbn [fst snd] in *.
  subst c1 evs. destruct out as [r|].
  - specialize (IH (set_lcache c lc) H1 H2).
    destruct (Latests (set_lcache c lc) calls) as [c2 evs']. cbn [snd] in *.
    by rewrite filter_app, IH, filter_launch_none.
  - cbn [snd]. by apply filter_launch_none.
Qed.

(** X24.  In a run of [Latest] calls with no refresher error pending or
    arriving, the refresher is launched at most once, by the first call
    and only if it had not been launched before: the websocket listener
    when a WS URL is set, else the poller for that call's URL.  No
    later call of the run launches anything. *)
Theorem refresher_launched_once (c : Client) (url : string) (n : Z)
    (resp : do_result headerResp)
    (rest : list (string * Z * do_result headerResp)) :
  NumHash.err (lcache c) = None ->
  filter (λ ev, is_launch ev = true) (Latests c ((url, n, resp) :: rest)).2
  = if NumHash.once (lcache c) then []
    else if decide (wsurl c = "") then [EvLaunchPoll url] else [EvLaunchWS].
Proof.
  intros He. cbn [Latests].
  destruct (Latest_shape c url n resp He) as (lc & reqs & H1 & H2 & H3 & H4 & H5).
  pose proof (Latests_quiet rest (set_lcache c lc) H1 H2) as Hq.
  destruct (Latest c url n resp) as [[c1 out] evs]. cbn [fst snd] in *.
  subst c1 evs.
  assert (Hfirst :
    filter (λ ev, is_launch ev = true)
      ((if NumHash.once (lcache c) then []
        else if decide (wsurl c = "") then [EvLaunchPoll url] else [EvLaunchWS])
       ++ reqs)
    = if NumHash.once (lcache c) then []
      else if decide (wsurl c = "") then [EvLaunchPoll url] else [EvLaunchWS]).
  { rewrite filter_app, (filter_launch_none reqs H4), app_nil_r.
    destruct (NumHash.once (lcache c)); [done|]. by destruct (decide _). }
  destruct out as [r|]; [|done].
  destruct (Latests (set_lcache c lc) rest) as [c2 evs']. cbn [snd] in *.
  by rewrite filter_app, Hq, app_nil_r.
Qed.

Lemma refresher_launched_once_witness :
  filter (λ ev, is_launch ev = true)
    (Latests (WithWSURL three "ws://a")
       [("u", 0, DoOk present); ("v", 0, DoOk present)]).2
  = [EvLaunchWS].
Proof.
  apply (refresher_launched_once (WithWSURL three "ws://a") "u" 0 (DoOk present)
           [("v", 0, DoOk present)]).
  reflexivity.
Defined.
